(** * Jubblution: the per-frame simulation core of [jubbles.py]

    A shallow embedding of the [Jubble] class and of [update_jubbles],
    followed by the properties of the specification.

    Modelling conventions.
    - Python objects live in a store: a [gmap] from references ([loc]) to
      [Jubble] records.  A Python list of jubbles is a [list loc]; two
      lists may hold the same references (this is what [copy.copy] of a
      list produces), and [goal_jubble] is a reference, not a value.
    - Python floats are idealised as real numbers ([R]); [math.hypot],
      [math.atan2], [math.cos] and [math.sin] are the mathematical
      functions.  Ages are Python ints ([Z]).  The integral float
      constants that are only ever compared with ints ([DEATH_AGE],
      [TIME_TAKEN_TO_DECOMPOSE], [MATURE_AGE]) are kept as [Z]: Python
      compares an int with a float by value.  The code rounds every
      result to a double and the model does not, so an identity of real
      arithmetic need not hold of the values the code computes.  The
      properties stated of positions, distances and angles are therefore
      the expressions the code evaluates, comparisons, and bounds that
      leave room for the rounding; the exact identities are kept as
      lemmas about the model and are used to prove those bounds.
    - An operation that raises in Python ([None] in an arithmetic
      expression, attribute access on [None], a failed [assert], an index
      out of range) returns [None] in the option monad.
    - The pseudo random generator is an explicit state: a stream of draws
      of [random.random()] together with the number of draws consumed.
    - pygame itself is not modelled.  The methods [draw], [erase] and
      their helpers change no attribute; they are embedded as the list of
      calls they make to [pygame.draw], with the arguments they compute.
      [update_jubbles] is the part of the source function that changes
      the state; [update_jubbles_frame] is the whole of it, drawing
      included. *)

From Stdlib Require Import Reals Lra ZArith.
From stdpp Require Import base option list gmap.

(** ** Decidable comparisons on the reals, giving Python's booleans *)

#[global] Instance Rle_decision (a b : R) : Decision (a <= b)%R := Rle_dec a b.
#[global] Instance Rlt_decision (a b : R) : Decision (a < b)%R := Rlt_dec a b.

(** ** Module constants *)

Definition SCREEN_SIZE : Z * Z := (640, 480)%Z.
Definition EDGE_AVOIDANCE : Z := 30.
Definition HORIZONTAL_RANGE : Z * Z :=
  (EDGE_AVOIDANCE, SCREEN_SIZE.1 - EDGE_AVOIDANCE)%Z.
Definition VERTICAL_RANGE : Z * Z :=
  (EDGE_AVOIDANCE, SCREEN_SIZE.2 - EDGE_AVOIDANCE)%Z.

Definition DEF_ANGLE : R := 0.
Definition DEF_SPEED : R := 1.
Definition DEF_DETECTION_RADIUS : R := 150.
Definition DEF_DETECTION_SLICE : R := PI / 2.

Definition MATURE_AGE : Z := 600.
Definition DEATH_AGE : Z := 3000.
Definition TIME_TAKEN_TO_DECOMPOSE : Z := 300.

Definition BIRTH_SIZE : R := 5.
Definition MATURE_SIZE : R := 15.

Definition TURN_ANGLE : R := PI / 7.
Definition CHANCE_OF_TURN : R := 1 / 10.

Definition ANGLE_RIGHT : R := 0.
Definition ANGLE_UP : R := PI * (3 / 2).
Definition ANGLE_LEFT : R := PI.
Definition ANGLE_DOWN : R := PI / 2.

(** ** Geometry *)

Definition hypot (a b : R) : R := sqrt (a * a + b * b).

(** [math.atan2 y x] on finite arguments (signed zeros are not
    distinguished). *)
Definition atan2 (y x : R) : R :=
  if decide (0 < x)%R then atan (y / x)
  else if decide (x < 0)%R then
    if decide (0 <= y)%R then (atan (y / x) + PI)%R else (atan (y / x) - PI)%R
  else if decide (0 < y)%R then (PI / 2)%R
  else if decide (y < 0)%R then (- (PI / 2))%R
  else 0%R.

Definition dist (a b : R * R) : R := hypot (a.1 - b.1) (a.2 - b.2).

Definition to_polar (dx dy : R) : R * R := (atan2 dy dx, hypot dx dy).

Definition to_cartesian (angle magnitude : R) : R * R :=
  ((magnitude * cos angle)%R, (magnitude * sin angle)%R).

Definition circles_are_touching (centre1 centre2 : R * R) (radius1 radius2 : R)
  : bool :=
  bool_decide (dist centre1 centre2 <= radius1 + radius2)%R.

(** ** The random source *)

Record Random := mkRandom { draws : nat → R; consumed : nat }.

Definition random_random (g : Random) : R * Random :=
  (draws g (consumed g), mkRandom (draws g) (S (consumed g))).

(** [random.uniform a b] is [a + (b-a) * random()]. *)
Definition random_uniform (a b : R) (g : Random) : R * Random :=
  let (r, g') := random_random g in ((a + (b - a) * r)%R, g').

Definition blueMoon (chance : R) (g : Random) : bool * Random :=
  let (r, g') := random_random g in (bool_decide (r < chance)%R, g').

(** Every draw of [random.random()] lies in the half-open unit interval. *)
Definition unit_draws (g : Random) : Prop :=
  ∀ n, (0 <= draws g n < 1)%R.

(** ** The agent *)

Abbreviation loc := nat.

Record Jubble := mkJubble {
  id : Z;
  x : R;
  y : R;
  colour : Z * Z * Z;
  angle : R;
  speed : R;
  detection_radius : R;
  age : Z;
  is_alive : bool;
  age_of_death : option Z;
  has_coord_goal : bool;
  has_jubble_goal : bool;
  goal_x : option R;
  goal_y : option R;
  goal_jubble : option loc
}.

Abbreviation heap := (gmap loc Jubble).

(** Attribute assignments [self.f = v]. *)
Definition with_pos (vx vy : R) (j : Jubble) : Jubble :=
  mkJubble (id j) vx vy (colour j) (angle j) (speed j) (detection_radius j)
    (age j) (is_alive j) (age_of_death j) (has_coord_goal j)
    (has_jubble_goal j) (goal_x j) (goal_y j) (goal_jubble j).
Definition with_angle (v : R) (j : Jubble) : Jubble :=
  mkJubble (id j) (x j) (y j) (colour j) v (speed j) (detection_radius j)
    (age j) (is_alive j) (age_of_death j) (has_coord_goal j)
    (has_jubble_goal j) (goal_x j) (goal_y j) (goal_jubble j).
Definition with_age (v : Z) (j : Jubble) : Jubble :=
  mkJubble (id j) (x j) (y j) (colour j) (angle j) (speed j)
    (detection_radius j) v (is_alive j) (age_of_death j) (has_coord_goal j)
    (has_jubble_goal j) (goal_x j) (goal_y j) (goal_jubble j).
Definition with_death (alive : bool) (aod : option Z) (j : Jubble) : Jubble :=
  mkJubble (id j) (x j) (y j) (colour j) (angle j) (speed j)
    (detection_radius j) (age j) alive aod (has_coord_goal j)
    (has_jubble_goal j) (goal_x j) (goal_y j) (goal_jubble j).
Definition with_has_coord_goal (v : bool) (j : Jubble) : Jubble :=
  mkJubble (id j) (x j) (y j) (colour j) (angle j) (speed j)
    (detection_radius j) (age j) (is_alive j) (age_of_death j) v
    (has_jubble_goal j) (goal_x j) (goal_y j) (goal_jubble j).
Definition with_has_jubble_goal (v : bool) (j : Jubble) : Jubble :=
  mkJubble (id j) (x j) (y j) (colour j) (angle j) (speed j)
    (detection_radius j) (age j) (is_alive j) (age_of_death j)
    (has_coord_goal j) v (goal_x j) (goal_y j) (goal_jubble j).
Definition with_goal_xy (gx gy : option R) (j : Jubble) : Jubble :=
  mkJubble (id j) (x j) (y j) (colour j) (angle j) (speed j)
    (detection_radius j) (age j) (is_alive j) (age_of_death j)
    (has_coord_goal j) (has_jubble_goal j) gx gy (goal_jubble j).
Definition with_goal_jubble (v : option loc) (j : Jubble) : Jubble :=
  mkJubble (id j) (x j) (y j) (colour j) (angle j) (speed j)
    (detection_radius j) (age j) (is_alive j) (age_of_death j)
    (has_coord_goal j) (has_jubble_goal j) (goal_x j) (goal_y j) v.

(** [Jubble.__init__]: the four random choices are arguments. *)
Definition Jubble_init (rid : Z) (rx ry : Z) (rcolour : Z * Z * Z) : Jubble :=
  mkJubble rid (IZR rx) (IZR ry) rcolour DEF_ANGLE DEF_SPEED
    DEF_DETECTION_RADIUS 0 true None false false None None None.

Definition get_pos (self : Jubble) : R * R := (x self, y self).

Definition kill (self : Jubble) : Jubble :=
  with_death false (Some (age self)) self.

Definition get_radius (self : Jubble) : option R :=
  a ← (if is_alive self then Some (age self) else age_of_death self);
  let a' := if bool_decide (MATURE_AGE ≤ a)%Z then MATURE_AGE else a in
  Some (IZR a' / IZR MATURE_AGE * (MATURE_SIZE - BIRTH_SIZE) + BIRTH_SIZE)%R.

Definition set_coord_goal (self : Jubble) (gx gy : R) : Jubble :=
  if bool_decide (IZR HORIZONTAL_RANGE.1 <= gx)%R
     && bool_decide (gx <= IZR HORIZONTAL_RANGE.2)%R
     && (bool_decide (IZR VERTICAL_RANGE.1 <= gy)%R
         && bool_decide (gy <= IZR VERTICAL_RANGE.2)%R)
  then with_goal_xy (Some gx) (Some gy) (with_has_coord_goal true self)
  else self.

Definition set_jubble_goal (self : Jubble) (gj : loc) : Jubble :=
  with_goal_jubble (Some gj) (with_has_jubble_goal true self).

Definition _coord_in_range (self : Jubble) (ox oy : R) : bool :=
  bool_decide (dist (get_pos self) (ox, oy) <= detection_radius self)%R.

Definition _can_detect_coord (self : Jubble) (ox oy : R) : bool :=
  let left_edge := (angle self - DEF_DETECTION_SLICE / 2)%R in
  let right_edge := (angle self + DEF_DETECTION_SLICE / 2)%R in
  let angle_of_self_to_point := (to_polar (ox - x self) (oy - y self)).1 in
  _coord_in_range self ox oy
  && (bool_decide (left_edge <= angle_of_self_to_point)%R
      && bool_decide (angle_of_self_to_point <= right_edge)%R).

Definition can_detect_jubble (self other : Jubble) : bool :=
  _can_detect_coord self (get_pos other).1 (get_pos other).2.

Definition can_chase_jubble (self other : Jubble) : bool :=
  _coord_in_range self (get_pos other).1 (get_pos other).2.

Definition will_fight_with_jubble (self other : Jubble) : bool :=
  bool_decide (age other ≤ age self)%Z.

Definition will_win_against_jubble (self other : Jubble) : bool :=
  bool_decide (age other ≤ age self)%Z && can_detect_jubble self other.

Definition will_be_drawn (self : Jubble) : option bool :=
  if is_alive self then Some true
  else aod ← age_of_death self;
       Some (bool_decide (age self - aod < TIME_TAKEN_TO_DECOMPOSE)%Z).

Definition colliding_with_jubble (self other : Jubble) : option bool :=
  if is_alive self && is_alive other then
    r1 ← get_radius self; r2 ← get_radius other;
    Some (circles_are_touching (get_pos self) (get_pos other) r1 r2)
  else Some false.

Definition _correct_offmap_drift (self : Jubble) : Jubble :=
  let s1 := if bool_decide (x self <= IZR HORIZONTAL_RANGE.1)%R
            then with_angle ANGLE_RIGHT self else self in
  let s2 := if bool_decide (IZR HORIZONTAL_RANGE.2 <= x s1)%R
            then with_angle ANGLE_LEFT s1 else s1 in
  let s3 := if bool_decide (y s2 <= IZR VERTICAL_RANGE.1)%R
            then with_angle ANGLE_DOWN s2 else s2 in
  if bool_decide (IZR VERTICAL_RANGE.2 <= y s3)%R
  then with_angle ANGLE_UP s3 else s3.

Definition _move_one_unit (self : Jubble) : Jubble :=
  let (change_x, change_y) := to_cartesian (angle self) (speed self) in
  _correct_offmap_drift
    (with_pos (x self + change_x) (y self + change_y) self).

Definition _get_older (self : Jubble) : Jubble :=
  let s := with_age (age self + 1) self in
  if bool_decide (DEATH_AGE ≤ age s)%Z && is_alive s then kill s else s.

Definition _add_random_angle_shift (self : Jubble) (g : Random)
  : Jubble * Random :=
  let (d, g') := random_uniform (- TURN_ANGLE) TURN_ANGLE g in
  (with_angle (angle self + d) self, g').

(** [_handle_jubble_goal] reads the goal object through the store. *)
Definition _handle_jubble_goal (h : heap) (self : Jubble) : option Jubble :=
  if has_jubble_goal self then
    gl ← goal_jubble self;
    gj ← h !! gl;
    if is_alive gj && can_chase_jubble self gj
    then Some (set_coord_goal self (x gj) (y gj))
    else Some (with_has_jubble_goal false self)
  else None.

Definition _handle_coord_goal (self : Jubble) : option Jubble :=
  if has_coord_goal self then
    gx ← goal_x self;
    gy ← goal_y self;
    let s := with_angle (to_polar (gx - x self) (gy - y self)).1 self in
    if has_coord_goal s
       && bool_decide (dist (x s, y s) (gx, gy) <= speed s)%R
    then Some (with_pos gx gy (with_has_coord_goal false s))
    else Some s
  else None.

(** [update] on the object [self], reading other objects in [h]. *)
Definition update (h : heap) (self : Jubble) (g : Random)
  : option (Jubble * Random) :=
  moved ← (if is_alive self then
             s1 ← (if has_jubble_goal self then _handle_jubble_goal h self
                   else Some self);
             sg ← (if has_coord_goal s1 then
                     s2 ← _handle_coord_goal s1; Some (s2, g)
                   else
                     let (turn, g1) := blueMoon CHANCE_OF_TURN g in
                     if turn then Some (_add_random_angle_shift s1 g1)
                     else Some (s1, g1));
             Some (_move_one_unit sg.1, sg.2)
           else Some (self, g));
  Some (_get_older moved.1, moved.2).

(** ** The population stepper *)

(** [for i in xrange(n): body], threading a state through a body that may
    raise. *)
Fixpoint xrange_loop {S : Type} (body : nat → S → option S)
    (start n : nat) (s : S) : option S :=
  match n with
  | O => Some s
  | Datatypes.S n' => s' ← body start s; xrange_loop body (Datatypes.S start) n' s'
  end.

Definition for_xrange {S : Type} (n : nat) (body : nat → S → option S) (s : S)
  : option S :=
  xrange_loop body 0 n s.

(** The body of the kill loop, for the object [l = old_jubbles[j]].
    The goal is read before [colliding_with_jubble] looks at [is_alive]:
    for a dead agent that has [has_jubble_goal] set and no [goal_jubble]
    this raises, where the code answers [False] without touching the
    goal.  No method builds such an agent: [set_jubble_goal] sets both
    attributes and nothing clears [goal_jubble]. *)
Definition fight_one (l : loc) (h : heap) : option heap :=
  self ← h !! l;
  if has_jubble_goal self then
    gl ← goal_jubble self;
    gj ← h !! gl;
    c ← colliding_with_jubble self gj;
    if c && will_win_against_jubble self gj
    then Some (<[gl := kill gj]> h)
    else Some h
  else Some h.

Definition fight_phase (old_jubbles : list loc) (h : heap) : option heap :=
  for_xrange (length old_jubbles)
    (λ j h, l ← old_jubbles !! j; fight_one l h) h.

(** The body of the two nested loops that set new chase targets. *)
Definition assign_one (old_jubbles new_jubbles : list loc) (j oj : nat)
    (h : heap) : option heap :=
  if bool_decide (j ≠ oj) then
    lj ← old_jubbles !! j;
    self ← h !! lj;
    if is_alive self then
      loj ← old_jubbles !! oj;
      other ← h !! loj;
      if is_alive other then
        if negb (has_jubble_goal self)
           && can_detect_jubble self other
           && will_fight_with_jubble self other
        then
          nj ← new_jubbles !! j;
          noj ← new_jubbles !! oj;
          target ← h !! nj;
          Some (<[nj := set_jubble_goal target noj]> h)
        else Some h
      else Some h
    else Some h
  else Some h.

Definition assign_phase (old_jubbles new_jubbles : list loc) (h : heap)
  : option heap :=
  for_xrange (length new_jubbles)
    (λ j h, for_xrange (length old_jubbles)
              (λ oj h, assign_one old_jubbles new_jubbles j oj h) h) h.

(** [[nj for nj in new_jubbles if nj.will_be_drawn()]] *)
Fixpoint prune_phase (h : heap) (new_jubbles : list loc) : option (list loc) :=
  match new_jubbles with
  | [] => Some []
  | l :: rest =>
      nj ← h !! l;
      keep ← will_be_drawn nj;
      rest' ← prune_phase h rest;
      Some (if (keep : bool) then l :: rest' else rest')
  end.

(** [new_jubbles[j].update()] on the store. *)
Definition update_at (l : loc) (hg : heap * Random) : option (heap * Random) :=
  let (h, g) := hg in
  self ← h !! l;
  sg ← update h self g;
  Some (<[l := sg.1]> h, sg.2).

Definition update_phase (new_jubbles : list loc) (hg : heap * Random)
  : option (heap * Random) :=
  for_xrange (length new_jubbles)
    (λ j hg, l ← new_jubbles !! j; update_at l hg) hg.

(** [copy.copy] of a list: a new list that holds the same references. *)
Definition copy_copy (l : list loc) : list loc := l.

(** One call of [update_jubbles]: the store after the call, the returned
    list and the state of the random source. *)
Definition update_jubbles (old_jubbles : list loc) (h : heap) (g : Random)
  : option (heap * list loc * Random) :=
  h1 ← fight_phase old_jubbles h;
  let new_jubbles := copy_copy old_jubbles in
  h2 ← assign_phase old_jubbles new_jubbles h1;
  new_jubbles' ← prune_phase h2 new_jubbles;
  hg ← update_phase new_jubbles' (h2, g);
  Some (hg.1, new_jubbles', hg.2).

(** ** Colours of the dead *)

(** [int(r)] on a float: truncation towards zero. *)
Definition python_int (r : R) : Z :=
  if decide (0 <= r)%R then Int_part r else (- Int_part (- r))%Z.

Definition generate_death_colour (decompositionFraction : R) : Z * Z * Z :=
  let fraction := if bool_decide (1 <= decompositionFraction)%R then 1%R
                  else decompositionFraction in
  let c := python_int (255 * fraction) in
  (c, c, c).

(** The colour [draw] computes for a dead jubble, before it hands it to
    the drawing routines. *)
Definition draw_death_colour (self : Jubble) : option (Z * Z * Z) :=
  aod ← age_of_death self;
  Some (generate_death_colour
          (IZR (age self - aod) / IZR TIME_TAKEN_TO_DECOMPOSE)).

(** ** Drawing *)

Definition BG_COLOUR : Z * Z * Z := (255, 255, 255)%Z.
Definition VIEWING_ANGLE_LINE_COLOUR : Z * Z * Z := (200, 200, 200)%Z.
Definition NOSE_TO_BODY : R := 14 / 10.
Definition NOSE_WIDTH : Z := 3.

(** The two pygame routines the program calls, with the arguments it
    hands them (the screen apart). *)
Inductive draw_call : Type :=
| pygame_draw_circle (col : Z * Z * Z) (pos : R * R) (radius : R)
| pygame_draw_line (col : Z * Z * Z) (start_pos end_pos : R * R) (width : Z).

(** The drawing methods return the calls they make, in order. *)
Definition _draw_body (self : Jubble) (col : Z * Z * Z)
  : option (list draw_call) :=
  r ← get_radius self;
  Some [pygame_draw_circle col (get_pos self) r].

Definition _draw_nose (self : Jubble) (col : Z * Z * Z)
  : option (list draw_call) :=
  r ← get_radius self;
  let nose := to_cartesian (angle self) r in
  Some [pygame_draw_line col (get_pos self)
          ((x self + NOSE_TO_BODY * nose.1)%R,
           (y self + NOSE_TO_BODY * nose.2)%R)
          NOSE_WIDTH].

Definition _draw_viewing_angle (self : Jubble) (col : Z * Z * Z)
  : list draw_call :=
  let left := to_cartesian (angle self - DEF_DETECTION_SLICE / 2) 100 in
  let right := to_cartesian (angle self + DEF_DETECTION_SLICE / 2) 100 in
  [pygame_draw_line col (get_pos self)
     ((x self + left.1)%R, (y self + left.2)%R) 2;
   pygame_draw_line col (get_pos self)
     ((x self + right.1)%R, (y self + right.2)%R) 2].

Definition _draw_jubble_goal (h : heap) (self : Jubble) (col : Z * Z * Z)
  : option (list draw_call) :=
  gl ← goal_jubble self;
  gj ← h !! gl;
  Some [pygame_draw_line col (get_pos self) (get_pos gj) 1].

Definition draw (h : heap) (self : Jubble) : option (list draw_call) :=
  if negb (is_alive self) then
    death_colour ← draw_death_colour self;
    b ← _draw_body self death_colour;
    n ← _draw_nose self death_colour;
    Some (b ++ n)
  else
    let v := _draw_viewing_angle self VIEWING_ANGLE_LINE_COLOUR in
    t ← (if is_alive self && has_jubble_goal self
         then _draw_jubble_goal h self (255, 0, 0)%Z
         else Some []);
    b ← _draw_body self (colour self);
    n ← _draw_nose self (colour self);
    Some (v ++ t ++ b ++ n).

Definition erase (h : heap) (self : Jubble) : option (list draw_call) :=
  if negb (is_alive self) then
    b ← _draw_body self BG_COLOUR;
    n ← _draw_nose self BG_COLOUR;
    Some (b ++ n)
  else
    let v := _draw_viewing_angle self BG_COLOUR in
    t ← (if is_alive self && has_jubble_goal self
         then _draw_jubble_goal h self BG_COLOUR
         else Some []);
    b ← _draw_body self BG_COLOUR;
    n ← _draw_nose self BG_COLOUR;
    Some (v ++ t ++ b ++ n).

(** [for j in xrange(len(jubbles)): jubbles[j].erase()], and the same
    loop for [draw]: the calls made so far are the state of the loop. *)
Definition erase_phase (jubbles : list loc) (h : heap)
  : option (list draw_call) :=
  for_xrange (length jubbles)
    (λ j done, l ← jubbles !! j; self ← h !! l; c ← erase h self;
               Some (done ++ c)) [].

Definition draw_phase (jubbles : list loc) (h : heap)
  : option (list draw_call) :=
  for_xrange (length jubbles)
    (λ j done, l ← jubbles !! j; self ← h !! l; c ← draw h self;
               Some (done ++ c)) [].

(** The whole of [update_jubbles], with the calls it makes to pygame:
    erase, then the four phases of [update_jubbles] above, then draw. *)
Definition update_jubbles_frame (old_jubbles : list loc) (h : heap)
    (g : Random) : option (heap * list loc * Random * list draw_call) :=
  e ← erase_phase old_jubbles h;
  h1 ← fight_phase old_jubbles h;
  let new_jubbles := copy_copy old_jubbles in
  h2 ← assign_phase old_jubbles new_jubbles h1;
  new_jubbles' ← prune_phase h2 new_jubbles;
  hg ← update_phase new_jubbles' (h2, g);
  d ← draw_phase new_jubbles' hg.1;
  Some (hg.1, new_jubbles', hg.2, e ++ d).

(** ** The driver *)

(** The pygame events [main] looks at. *)
Inductive event : Type :=
| QUIT
| MOUSEBUTTONDOWN (pos : Z * Z)
| OTHER.

(** [for j in jubbles: j.set_coord_goal] at the position of the click *)
Fixpoint click_all (pos : Z * Z) (jubbles : list loc) (h : heap)
  : option heap :=
  match jubbles with
  | [] => Some h
  | l :: rest =>
      self ← h !! l;
      click_all pos rest
        (<[l := set_coord_goal self (IZR pos.1) (IZR pos.2)]> h)
  end.

(** [for e in pygame.event.get(): ...], on the store and [running]. *)
Fixpoint handle_events (events : list event) (jubbles : list loc)
    (h : heap) (running : bool) : option (heap * bool) :=
  match events with
  | [] => Some (h, running)
  | QUIT :: rest => handle_events rest jubbles h false
  | MOUSEBUTTONDOWN pos :: rest =>
      h' ← click_all pos jubbles h;
      handle_events rest jubbles h' running
  | OTHER :: rest => handle_events rest jubbles h running
  end.

(** [len([j for j in jubbles if j.is_alive])] *)
Fixpoint count_alive (h : heap) (jubbles : list loc) : option nat :=
  match jubbles with
  | [] => Some 0
  | l :: rest =>
      j ← h !! l;
      n ← count_alive h rest;
      Some (if is_alive j then S n else n)
  end.

(** [Jubble(screen)]: the new object is stored at a reference that is
    not in use; [init] holds the random choices of the constructor. *)
Definition new_Jubble (init : Z * Z * Z * (Z * Z * Z)) (h : heap)
  : heap * loc :=
  let l := fresh (dom h) in
  (<[l := Jubble_init init.1.1.1 init.1.1.2 init.1.2 init.2]> h, l).

(** [if len([...]) < 10: jubbles.append(Jubble(screen))] *)
Definition spawn (init : Z * Z * Z * (Z * Z * Z)) (jubbles : list loc)
    (h : heap) : option (heap * list loc) :=
  n ← count_alive h jubbles;
  if decide (n < 10) then
    let (h', l) := new_Jubble init h in Some (h', jubbles ++ [l])
  else Some (h, jubbles).

(** One turn of the [while running] loop of [main]; the calls to the
    display and the clock are left out. *)
Definition main_iteration (events : list event)
    (init : Z * Z * Z * (Z * Z * Z))
    (jubbles : list loc) (h : heap) (g : Random)
  : option (heap * list loc * Random * bool) :=
  r ← update_jubbles jubbles h g;
  hr ← handle_events events r.1.2 r.1.1 true;
  s ← spawn init r.1.2 hr.1;
  Some (s.1, s.2, r.2, hr.2).

(** * Notions used to state the properties *)

(** Death comes with its date: the property every method preserves. *)
Definition death_dated (j : Jubble) : Prop :=
  is_alive j = false → is_Some (age_of_death j).

(** States an agent can be in: built by the constructor, then subjected to
    any sequence of its public mutators, in any store. *)
Inductive reachable : Jubble → Prop :=
| reach_init rid rx ry rc : reachable (Jubble_init rid rx ry rc)
| reach_update h j g j' g' :
    reachable j → update h j g = Some (j', g') → reachable j'
| reach_set_coord_goal j gx gy :
    reachable j → reachable (set_coord_goal j gx gy)
| reach_set_jubble_goal j l :
    reachable j → reachable (set_jubble_goal j l)
| reach_kill j : reachable j → reachable (kill j).

(** Every corpse of [h] is still a corpse in [h'], with the same age of
    death. *)
Definition corpses_kept (h h' : heap) : Prop :=
  ∀ k a, h !! k = Some a → is_alive a = false →
    ∃ a', h' !! k = Some a' ∧ is_alive a' = false
          ∧ age_of_death a' = age_of_death a.

(** The kill decision of the agent [l] in the store [h]: the reference of
    the victim, if the agent has a goal, collides with it and wins.  This
    is the condition of the kill loop of [update_jubbles]. *)
Definition kill_decision (h : heap) (l : loc) : option (option loc) :=
  self ← h !! l;
  if has_jubble_goal self then
    gl ← goal_jubble self;
    gj ← h !! gl;
    c ← colliding_with_jubble self gj;
    Some (if c && will_win_against_jubble self gj then Some gl else None)
  else Some None.

(** The phase as the specification words it: all kill decisions are
    computed from the unmodified pre-tick store, then they are applied. *)
Definition fight_phase_snapshot (old_jubbles : list loc) (h : heap)
  : option heap :=
  decisions ← mapM (kill_decision h) old_jubbles;
  Some (foldl (λ h' d, match d with
                       | Some gl => alter kill gl h'
                       | None => h'
                       end) h decisions).

(** The phase with pre-tick decisions applied in index order, each one
    only if the attacker and its target are both still alive when the
    attacker's turn comes. *)
Definition fight_one_pretick (h0 : heap) (l : loc) (h : heap) : option heap :=
  d ← kill_decision h0 l;
  match d with
  | Some gl =>
      self ← h !! l;
      gj ← h !! gl;
      if is_alive self && is_alive gj then Some (<[gl := kill gj]> h)
      else Some h
  | None => Some h
  end.

Definition fight_phase_pretick (old_jubbles : list loc) (h : heap)
  : option heap :=
  for_xrange (length old_jubbles)
    (λ j s, l ← old_jubbles !! j; fight_one_pretick h l s) h.

(** [h1] differs from [h0] only by agents, alive in [h0], that have been
    killed. *)
Definition only_killed (h0 h1 : heap) : Prop :=
  ∀ k, h1 !! k = h0 !! k
       ∨ ∃ a, h0 !! k = Some a ∧ is_alive a = true ∧ h1 !! k = Some (kill a).

(** The two agents of the counterexample: equal age, five units apart,
    facing each other, each with the other as its goal. *)
Definition duel_a : Jubble :=
  mkJubble 1 100 100 (0, 0, 0)%Z ANGLE_RIGHT DEF_SPEED DEF_DETECTION_RADIUS
    10 true None false true None None (Some 1).
Definition duel_b : Jubble :=
  mkJubble 2 105 100 (0, 0, 0)%Z ANGLE_LEFT DEF_SPEED DEF_DETECTION_RADIUS
    10 true None false true None None (Some 0).
Definition duel_heap : heap := <[0 := duel_a]> (<[1 := duel_b]> ∅).

(** What the phase reads of an agent is not what it writes. *)
Definition same_body (a a' : Jubble) : Prop :=
  x a' = x a ∧ y a' = y a ∧ angle a' = angle a
  ∧ detection_radius a' = detection_radius a ∧ age a' = age a
  ∧ is_alive a' = is_alive a.

(** [h'] has the agents of [h], with agent goals added and none
    removed. *)
Definition goals_extended (h h' : heap) : Prop :=
  ∀ k, match h !! k with
       | Some a => ∃ a', h' !! k = Some a' ∧ same_body a a'
                         ∧ (has_jubble_goal a = true →
                            has_jubble_goal a' = true)
       | None => h' !! k = None
       end.

(** Every reference of the list is bound in the store. *)
Definition all_bound (old : list loc) (h : heap) : Prop :=
  ∀ i l, old !! i = Some l → is_Some (h !! l).

(** The agents of the duel before they have any goal. *)
Definition peer_a : Jubble :=
  with_goal_jubble None (with_has_jubble_goal false duel_a).
Definition peer_b : Jubble :=
  with_goal_jubble None (with_has_jubble_goal false duel_b).
Definition peer_heap : heap := <[0 := peer_a]> (<[1 := peer_b]> ∅).

(** The heading [_correct_offmap_drift] leaves, as a function of the
    position and the heading before. *)
Definition drift_angle (px py t : R) : R :=
  let a1 := if bool_decide (px <= 30)%R then ANGLE_RIGHT else t in
  let a2 := if bool_decide (610 <= px)%R then ANGLE_LEFT else a1 in
  let a3 := if bool_decide (py <= 30)%R then ANGLE_DOWN else a2 in
  if bool_decide (450 <= py)%R then ANGLE_UP else a3.

(** Where a wandering agent can be, and which way it then heads: at most
    one unit beyond the top and bottom edges, at most two beyond the left
    and right ones, and heading back in whenever it is out. *)
Definition near_field_pos (px py : R) : Prop :=
  (29 <= py <= 451)%R ∧ (28 <= px <= 612)%R
  ∧ ((px < 30)%R →
     (117 / 2 <= px + py)%R ∧ (117 / 2 <= px + (480 - py))%R)
  ∧ ((610 < px)%R →
     (117 / 2 <= (640 - px) + py)%R
     ∧ (117 / 2 <= (640 - px) + (480 - py))%R).

Definition near_field_angle (px py t : R) : Prop :=
  ((py < 30)%R → t = ANGLE_DOWN)
  ∧ ((450 < py)%R → t = ANGLE_UP)
  ∧ ((px < 30)%R →
     ((py <= 30)%R → t = ANGLE_DOWN) ∧ ((450 <= py)%R → t = ANGLE_UP)
     ∧ ((30 < py < 450)%R → t = ANGLE_RIGHT))
  ∧ ((610 < px)%R →
     ((py <= 30)%R → t = ANGLE_DOWN) ∧ ((450 <= py)%R → t = ANGLE_UP)
     ∧ ((30 < py < 450)%R → t = ANGLE_LEFT)).

Definition near_field (px py t : R) : Prop :=
  near_field_pos px py ∧ near_field_angle px py t.

(** The random walk of [update]: what an alive agent without goal does to
    its heading before it moves. *)
Definition wander (s : Jubble) (g : Random) : Jubble * Random :=
  let (turn, g1) := blueMoon CHANCE_OF_TURN g in
  if turn then _add_random_angle_shift s g1 else (s, g1).

(** An agent without goal, at the default speed, in the near field. *)
Definition roaming (s : Jubble) : Prop :=
  speed s = DEF_SPEED ∧ has_coord_goal s = false
  ∧ has_jubble_goal s = false ∧ near_field (x s) (y s) (angle s).

(** [n] successive calls of [update] on one agent; [hs i] is the store
    at the time of call [i]. *)
Fixpoint updates (n : nat) (hs : nat → heap) (s : Jubble) (g : Random)
  : option (Jubble * Random) :=
  match n with
  | O => Some (s, g)
  | S n' => sg ← updates n' hs s g; update (hs n') sg.1 sg.2
  end.

(** The cone as the specification words it: the point is within the
    detection radius, and the direction to it makes an angle of at most
    [DEF_DETECTION_SLICE / 2] with the heading (the scalar product with
    the unit heading vector is at least the distance times the cosine of
    the half-angle). *)
Definition in_detection_cone (self : Jubble) (ox oy : R) : Prop :=
  (dist (get_pos self) (ox, oy) <= detection_radius self)%R
  ∧ (cos (DEF_DETECTION_SLICE / 2) * dist (get_pos self) (ox, oy)
     <= (ox - x self) * cos (angle self) + (oy - y self) * sin (angle self))%R.

(** An agent heading up, as [_correct_offmap_drift] leaves it at the
    bottom edge. *)
Definition lookout : Jubble :=
  with_angle ANGLE_UP (Jubble_init 1 100 100 (0, 0, 0)%Z).

(** A coordinate goal, when held, has its two coordinates. *)
Definition coord_goal_set (j : Jubble) : Prop :=
  has_coord_goal j = true → is_Some (goal_x j) ∧ is_Some (goal_y j).

(** An agent goal, when held, refers to an agent of the store. *)
Definition jubble_goal_bound (h : heap) (j : Jubble) : Prop :=
  has_jubble_goal j = true →
  ∃ gl, goal_jubble j = Some gl ∧ is_Some (h !! gl).

(** The stores the program builds: every dead agent has its age of death,
    every goal flag comes with its goal. *)
Definition wf_store (h : heap) : Prop :=
  ∀ k a, h !! k = Some a →
    death_dated a ∧ coord_goal_set a ∧ jubble_goal_bound h a.

(** What identifies an agent and what it is born with. *)
Definition same_traits (a a' : Jubble) : Prop :=
  id a' = id a ∧ colour a' = colour a ∧ speed a' = speed a
  ∧ detection_radius a' = detection_radius a.

(** [h'] holds the same objects as [h], no more and no fewer, and each
    object of [h'] is related by [Rel] to what it was in [h]. *)
Definition pointwise (Rel : Jubble → Jubble → Prop) (h h' : heap) : Prop :=
  ∀ k, match h !! k with
       | Some a => ∃ a', h' !! k = Some a' ∧ Rel a a'
       | None => h' !! k = None
       end.

(** Ages as the program produces them. *)
Definition age_sane (j : Jubble) : Prop :=
  (0 ≤ age j)%Z
  ∧ (is_alive j = true → (age j < DEATH_AGE)%Z)
  ∧ (is_alive j = false →
     ∃ d, age_of_death j = Some d ∧ (0 ≤ d ≤ age j)%Z).

(** The agent at [k] is bound in [h] and [will_be_drawn] says yes. *)
Definition drawn_in (h : heap) (k : loc) : Prop :=
  h !! k ≫= will_be_drawn = Some true.

(** The two stores give the same answer to [will_be_drawn] everywhere. *)
Definition drawn_kept (h h' : heap) : Prop :=
  ∀ k, h' !! k ≫= will_be_drawn = h !! k ≫= will_be_drawn.

(** A reason for the fight phase to kill the agent [a] bound at [k]: a
    live agent of the list has [k] as its goal, is at least as old as
    [a], detects it and touches it, all in the store [h]. *)
Definition attacked (old : list loc) (h : heap) (k : loc) (a : Jubble)
  : Prop :=
  ∃ i l self,
    old !! i = Some l ∧ h !! l = Some self ∧ is_alive self = true
    ∧ has_jubble_goal self = true ∧ goal_jubble self = Some k
    ∧ (age a ≤ age self)%Z ∧ can_detect_jubble self a = true
    ∧ colliding_with_jubble self a = Some true.

(** A reason for the goal-assignment phase to give the agent [a] bound at
    [k] the goal [loj]: [a] is alive and has no agent goal, [loj] is at
    another index of the list and is bound to a live agent that [a]
    detects and that is not older than [a], all in the store [h]. *)
Definition targeted (old : list loc) (h : heap) (k : loc) (a : Jubble)
    (loj : loc) : Prop :=
  ∃ j oj b,
    old !! j = Some k ∧ old !! oj = Some loj ∧ j ≠ oj ∧ h !! loj = Some b
    ∧ is_alive a = true ∧ is_alive b = true ∧ has_jubble_goal a = false
    ∧ can_detect_jubble a b = true ∧ (age b ≤ age a)%Z.

(** The agent at [k] is bound in [h] and alive. *)
Definition alive_in (h : heap) (k : loc) : Prop :=
  is_alive <$> h !! k = Some true.

(** What [main] can rely on between two turns of its loop: a well-formed
    store, a list of bound references without repetition, and at most ten
    live agents in the list. *)
Definition main_inv (h : heap) (jubbles : list loc) : Prop :=
  wf_store h ∧ all_bound jubbles h ∧ NoDup jubbles
  ∧ ∃ n, count_alive h jubbles = Some n ∧ n ≤ 10.

(** The same drawing call in another colour. *)
Definition repaint (col : Z * Z * Z) (c : draw_call) : draw_call :=
  match c with
  | pygame_draw_circle _ p r => pygame_draw_circle col p r
  | pygame_draw_line _ a b w => pygame_draw_line col a b w
  end.

(** The calls of one pass over a list, when [f] gives the calls made for
    one reference. *)
Fixpoint calls (f : loc → option (list draw_call)) (l : list loc)
  : option (list draw_call) :=
  match l with
  | [] => Some []
  | k :: rest => c ← f k; cs ← calls f rest; Some (c ++ cs)
  end.

(** Two states of an agent that [draw] and [erase] cannot tell apart:
    all the attributes they read are equal. *)
Definition same_look (a a' : Jubble) : Prop :=
  x a' = x a ∧ y a' = y a ∧ colour a' = colour a ∧ angle a' = angle a
  ∧ age a' = age a ∧ is_alive a' = is_alive a
  ∧ age_of_death a' = age_of_death a
  ∧ has_jubble_goal a' = has_jubble_goal a
  ∧ goal_jubble a' = goal_jubble a.

(** Every agent of [h] is still in [h'] and looks the same there. *)
Definition look_kept (h h' : heap) : Prop :=
  ∀ k a, h !! k = Some a → ∃ a', h' !! k = Some a' ∧ same_look a a'.

(** A point of the window. *)
Definition on_screen (p : R * R) : Prop :=
  (0 <= p.1 <= IZR SCREEN_SIZE.1)%R ∧ (0 <= p.2 <= IZR SCREEN_SIZE.2)%R.

(** * Properties *)

(** ** Basic facts about the agent's methods *)

Lemma HORIZONTAL_RANGE_eq : HORIZONTAL_RANGE = (30, 610)%Z.
Proof. reflexivity. Qed.

Lemma VERTICAL_RANGE_eq : VERTICAL_RANGE = (30, 450)%Z.
Proof. reflexivity. Qed.

Lemma set_coord_goal_accept self gx gy :
  (30 <= gx <= 610)%R → (30 <= gy <= 450)%R →
  set_coord_goal self gx gy
  = with_goal_xy (Some gx) (Some gy) (with_has_coord_goal true self).
Proof.
  intros Hx Hy. unfold set_coord_goal.
  rewrite HORIZONTAL_RANGE_eq, VERTICAL_RANGE_eq. simpl.
  rewrite !bool_decide_eq_true_2 by lra. reflexivity.
Qed.

Lemma set_coord_goal_reject self gx gy :
  ¬ ((30 <= gx <= 610)%R ∧ (30 <= gy <= 450)%R) →
  set_coord_goal self gx gy = self.
Proof.
  intros Hn. unfold set_coord_goal.
  rewrite HORIZONTAL_RANGE_eq, VERTICAL_RANGE_eq. simpl.
  repeat case_bool_decide; simpl; try reflexivity.
  exfalso. apply Hn. lra.
Qed.

(** [set_coord_goal] touches the coordinate goal only. *)
Lemma set_coord_goal_frame self gx gy :
  let s := set_coord_goal self gx gy in
  id s = id self ∧ x s = x self ∧ y s = y self ∧ colour s = colour self
  ∧ angle s = angle self ∧ speed s = speed self
  ∧ detection_radius s = detection_radius self ∧ age s = age self
  ∧ is_alive s = is_alive self ∧ age_of_death s = age_of_death self
  ∧ has_jubble_goal s = has_jubble_goal self
  ∧ goal_jubble s = goal_jubble self.
Proof.
  unfold set_coord_goal.
  destruct (_ && _); simpl; repeat split; reflexivity.
Qed.

Lemma correct_offmap_drift_frame s :
  let s' := _correct_offmap_drift s in
  id s' = id s ∧ x s' = x s ∧ y s' = y s ∧ colour s' = colour s
  ∧ speed s' = speed s ∧ detection_radius s' = detection_radius s
  ∧ age s' = age s ∧ is_alive s' = is_alive s
  ∧ age_of_death s' = age_of_death s
  ∧ has_coord_goal s' = has_coord_goal s
  ∧ has_jubble_goal s' = has_jubble_goal s
  ∧ goal_jubble s' = goal_jubble s.
Proof.
  unfold _correct_offmap_drift.
  repeat case_bool_decide; simpl; repeat split; reflexivity.
Qed.

Lemma move_one_unit_life s :
  age (_move_one_unit s) = age s
  ∧ is_alive (_move_one_unit s) = is_alive s
  ∧ age_of_death (_move_one_unit s) = age_of_death s.
Proof.
  unfold _move_one_unit. simpl.
  pose proof (correct_offmap_drift_frame
    (with_pos (x s + speed s * cos (angle s)) (y s + speed s * sin (angle s)) s))
    as H.
  simpl in H. tauto.
Qed.

Lemma move_one_unit_goals s :
  has_coord_goal (_move_one_unit s) = has_coord_goal s
  ∧ has_jubble_goal (_move_one_unit s) = has_jubble_goal s
  ∧ goal_jubble (_move_one_unit s) = goal_jubble s
  ∧ speed (_move_one_unit s) = speed s.
Proof.
  unfold _move_one_unit. simpl.
  pose proof (correct_offmap_drift_frame
    (with_pos (x s + speed s * cos (angle s)) (y s + speed s * sin (angle s)) s))
    as H.
  simpl in H. tauto.
Qed.

(** A dead jubble only ages. *)
Lemma get_older_dead s :
  is_alive s = false → _get_older s = with_age (age s + 1) s.
Proof.
  intros Hd. unfold _get_older. simpl. rewrite Hd.
  rewrite andb_false_r. reflexivity.
Qed.

Lemma update_dead h s g :
  is_alive s = false → update h s g = Some (with_age (age s + 1) s, g).
Proof.
  intros Hd. unfold update. rewrite Hd. simpl.
  rewrite get_older_dead by exact Hd. reflexivity.
Qed.

Lemma get_older_age s : age (_get_older s) = (age s + 1)%Z.
Proof. unfold _get_older. simpl. destruct (_ && _); reflexivity. Qed.

Lemma death_dated_kill j : death_dated (kill j).
Proof. intros _. simpl. eauto. Qed.

Lemma death_dated_get_older j : death_dated j → death_dated (_get_older j).
Proof.
  intros Hj. unfold _get_older.
  destruct (_ && _) eqn:E.
  - apply death_dated_kill.
  - exact Hj.
Qed.

Lemma death_dated_set_coord_goal j gx gy :
  death_dated j → death_dated (set_coord_goal j gx gy).
Proof.
  intros Hj. unfold death_dated.
  destruct (set_coord_goal_frame j gx gy) as (_&_&_&_&_&_&_&_&Ha&Hd&_).
  rewrite Ha, Hd. exact Hj.
Qed.

Lemma death_dated_set_jubble_goal j l :
  death_dated j → death_dated (set_jubble_goal j l).
Proof. intros Hj. exact Hj. Qed.

Lemma death_dated_move j : death_dated j → death_dated (_move_one_unit j).
Proof.
  intros Hj. unfold death_dated.
  destruct (move_one_unit_life j) as (_&Ha&Hd). rewrite Ha, Hd. exact Hj.
Qed.

Lemma handle_jubble_goal_life h s s' :
  _handle_jubble_goal h s = Some s' →
  age s' = age s ∧ is_alive s' = is_alive s
  ∧ age_of_death s' = age_of_death s.
Proof.
  unfold _handle_jubble_goal. intros H.
  destruct (has_jubble_goal s); [|discriminate].
  destruct (goal_jubble s) as [gl|]; [|discriminate]. simpl in H.
  destruct (h !! gl) as [gj|]; [|discriminate]. simpl in H.
  destruct (_ && _); inversion H; subst; clear H.
  - destruct (set_coord_goal_frame s (x gj) (y gj))
      as (_&_&_&_&_&_&_&Hg&Ha&Hd&_). auto.
  - auto.
Qed.

Lemma handle_coord_goal_life s s' :
  _handle_coord_goal s = Some s' →
  age s' = age s ∧ is_alive s' = is_alive s
  ∧ age_of_death s' = age_of_death s.
Proof.
  unfold _handle_coord_goal. intros H.
  destruct (has_coord_goal s); [|discriminate].
  destruct (goal_x s) as [gx|]; [|discriminate].
  destruct (goal_y s) as [gy|]; [|discriminate]. simpl in H.
  destruct (_ && _); inversion H; subst; auto.
Qed.

Lemma death_dated_update h j g j' g' :
  death_dated j → update h j g = Some (j', g') → death_dated j'.
Proof.
  intros Hj Hu. unfold update in Hu.
  destruct (is_alive j) eqn:Ea.
  - destruct (if has_jubble_goal j then _ else _) as [s1|] eqn:E1;
      [|discriminate]. simpl in Hu.
    assert (Hs1 : death_dated s1).
    { destruct (has_jubble_goal j).
      - apply handle_jubble_goal_life in E1 as (_&Ha&Hd).
        unfold death_dated. rewrite Ha, Hd. exact Hj.
      - inversion E1; subst. exact Hj. }
    destruct (has_coord_goal s1).
    + destruct (_handle_coord_goal s1) as [s2|] eqn:E2; [|discriminate].
      simpl in Hu. inversion Hu; subst.
      apply death_dated_get_older, death_dated_move.
      apply handle_coord_goal_life in E2 as (_&Ha&Hd).
      unfold death_dated. rewrite Ha, Hd. exact Hs1.
    + unfold blueMoon, _add_random_angle_shift, random_uniform in Hu.
      simpl in Hu.
      destruct (bool_decide _); simpl in Hu; inversion Hu; subst;
        apply death_dated_get_older, death_dated_move; exact Hs1.
  - simpl in Hu. inversion Hu; subst.
    apply death_dated_get_older. exact Hj.
Qed.

Lemma reachable_death_dated j : reachable j → death_dated j.
Proof.
  induction 1.
  - intros Hd. discriminate Hd.
  - eapply death_dated_update; eassumption.
  - apply death_dated_set_coord_goal; assumption.
  - apply death_dated_set_jubble_goal; assumption.
  - apply death_dated_kill.
Qed.

(** ** Rendering window and the date of death *)

(** C9. [will_be_drawn] answers true exactly for an agent that is alive
    or has been dead for strictly less than [TIME_TAKEN_TO_DECOMPOSE]
    ticks; a corpse is still drawn at [TIME_TAKEN_TO_DECOMPOSE - 1] ticks
    after its death and no longer at [TIME_TAKEN_TO_DECOMPOSE]. *)
Theorem will_be_drawn_window (j : Jubble) :
  (will_be_drawn j = Some true ↔
     is_alive j = true
     ∨ (is_alive j = false
        ∧ ∃ d, age_of_death j = Some d
               ∧ (age j - d < TIME_TAKEN_TO_DECOMPOSE)%Z))
  ∧ (∀ d, is_alive j = false → age_of_death j = Some d →
       (age j - d = TIME_TAKEN_TO_DECOMPOSE - 1)%Z →
       will_be_drawn j = Some true)
  ∧ (∀ d, is_alive j = false → age_of_death j = Some d →
       (age j - d = TIME_TAKEN_TO_DECOMPOSE)%Z →
       will_be_drawn j = Some false).
Proof.
  unfold will_be_drawn. split; [|split].
  - destruct (is_alive j) eqn:Ea.
    + split; auto.
    + destruct (age_of_death j) as [d|] eqn:Ed; simpl.
      * split.
        -- intros H. right. split; [reflexivity|]. exists d.
           split; [reflexivity|].
           injection H as H. apply bool_decide_eq_true_1 in H. exact H.
        -- intros [H|(_&d'&Hd'&Hlt)]; [discriminate|].
           injection Hd' as <-. f_equal. apply bool_decide_eq_true_2, Hlt.
      * split; [discriminate|].
        intros [H|(_&d'&Hd'&_)]; discriminate.
  - intros d Ha Hd Hage. rewrite Ha, Hd. simpl. f_equal.
    apply bool_decide_eq_true_2. unfold TIME_TAKEN_TO_DECOMPOSE in *. lia.
  - intros d Ha Hd Hage. rewrite Ha, Hd. simpl. f_equal.
    apply bool_decide_eq_false_2. lia.
Qed.

Lemma will_be_drawn_window_witness :
  let j := with_age 299 (kill (Jubble_init 1 100 100 (0, 0, 0)%Z)) in
  will_be_drawn j = Some true
  ∧ will_be_drawn (with_age 300 j) = Some false.
Proof.
  split.
  - apply (proj1 (proj2 (will_be_drawn_window
      (with_age 299 (kill (Jubble_init 1 100 100 (0, 0, 0)%Z))))) 0%Z);
      reflexivity.
  - apply (proj2 (proj2 (will_be_drawn_window
      (with_age 300
         (with_age 299 (kill (Jubble_init 1 100 100 (0, 0, 0)%Z)))))) 0%Z);
      reflexivity.
Defined.

(** C10. On every reachable agent state [will_be_drawn] returns a boolean:
    a dead agent always carries its age of death, so the subtraction
    [age - age_of_death] never meets [None]; and no method brings a dead
    agent back to life or removes its age of death. *)
Theorem will_be_drawn_total (j : Jubble) :
  reachable j →
  (∃ b, will_be_drawn j = Some b)
  ∧ (is_alive j = false → ∃ d, age_of_death j = Some d)
  ∧ (is_alive j = false →
     ∀ h g gx gy l,
       (∃ j', update h j g = Some (j', g) ∧ is_alive j' = false
              ∧ age_of_death j' = age_of_death j)
       ∧ is_alive (set_coord_goal j gx gy) = false
       ∧ age_of_death (set_coord_goal j gx gy) = age_of_death j
       ∧ is_alive (set_jubble_goal j l) = false
       ∧ age_of_death (set_jubble_goal j l) = age_of_death j
       ∧ is_alive (kill j) = false
       ∧ is_Some (age_of_death (kill j))).
Proof.
  intros Hr. pose proof (reachable_death_dated j Hr) as Hd.
  unfold death_dated in Hd. split; [|split].
  - unfold will_be_drawn. destruct (is_alive j); [eauto|].
    destruct (Hd eq_refl) as [d E]. rewrite E. simpl. eauto.
  - intros Ha. destruct (Hd Ha) as [d E]. eauto.
  - intros Ha h g gx gy l. split.
    + eexists. split; [apply update_dead, Ha|]. auto.
    + destruct (set_coord_goal_frame j gx gy)
        as (_&_&_&_&_&_&_&_&Ea&Eo&_).
      rewrite Ea, Eo. repeat split; try assumption. simpl. eauto.
Qed.

Lemma will_be_drawn_total_witness :
  ∃ b, will_be_drawn (kill (Jubble_init 1 100 100 (0, 0, 0)%Z)) = Some b.
Proof.
  apply (proj1 (will_be_drawn_total
                  (kill (Jubble_init 1 100 100 (0, 0, 0)%Z))
                  (reach_kill _ (reach_init 1 100 100 (0, 0, 0)%Z)))).
Defined.

(** ** Goal flags *)

(** C3, counterexample.  A constructed agent that is given an agent goal
    and then an in-bounds coordinate goal holds both goals at once. *)
Lemma both_goals_at_once :
  let j := set_coord_goal
             (set_jubble_goal (Jubble_init 1 100 100 (0, 0, 0)%Z) 2)
             200 200 in
  reachable j ∧ has_coord_goal j = true ∧ has_jubble_goal j = true.
Proof.
  simpl. split.
  - apply reach_set_coord_goal, reach_set_jubble_goal, reach_init.
  - rewrite set_coord_goal_accept by lra. split; reflexivity.
Qed.

(** C3, as the code has it.  The two goal flags are independent.  An
    accepted [set_coord_goal] raises the coordinate flag and stores the
    point, a rejected one changes nothing, and neither touches the agent
    goal; [set_jubble_goal] raises the agent flag and stores the reference
    without touching the coordinate goal. *)
Theorem goal_flags_independent (j : Jubble) (gx gy : R) (l : loc) :
  (has_jubble_goal (set_coord_goal j gx gy) = has_jubble_goal j
   ∧ goal_jubble (set_coord_goal j gx gy) = goal_jubble j)
  ∧ ((30 <= gx <= 610)%R ∧ (30 <= gy <= 450)%R →
     has_coord_goal (set_coord_goal j gx gy) = true
     ∧ goal_x (set_coord_goal j gx gy) = Some gx
     ∧ goal_y (set_coord_goal j gx gy) = Some gy)
  ∧ (¬ ((30 <= gx <= 610)%R ∧ (30 <= gy <= 450)%R) →
     set_coord_goal j gx gy = j)
  ∧ (has_jubble_goal (set_jubble_goal j l) = true
     ∧ goal_jubble (set_jubble_goal j l) = Some l
     ∧ has_coord_goal (set_jubble_goal j l) = has_coord_goal j
     ∧ goal_x (set_jubble_goal j l) = goal_x j
     ∧ goal_y (set_jubble_goal j l) = goal_y j).
Proof.
  split; [|split; [|split]].
  - destruct (set_coord_goal_frame j gx gy) as (_&_&_&_&_&_&_&_&_&_&H1&H2).
    auto.
  - intros [Hx Hy]. rewrite set_coord_goal_accept by assumption.
    repeat split; reflexivity.
  - apply set_coord_goal_reject.
  - repeat split; reflexivity.
Qed.

Lemma goal_flags_independent_witness :
  has_coord_goal (set_coord_goal (Jubble_init 1 100 100 (0, 0, 0)%Z) 200 200)
  = true.
Proof.
  apply (proj1 (proj2 (goal_flags_independent
                         (Jubble_init 1 100 100 (0, 0, 0)%Z) 200 200 0))).
  split; lra.
Defined.

(** ** Radius *)

Lemma get_radius_alive j :
  is_alive j = true →
  get_radius j
  = Some (IZR (if bool_decide (MATURE_AGE ≤ age j)%Z then MATURE_AGE
               else age j)
          / IZR MATURE_AGE * (MATURE_SIZE - BIRTH_SIZE) + BIRTH_SIZE)%R.
Proof. intros Ha. unfold get_radius. rewrite Ha. reflexivity. Qed.

(** C8. The radius of a live agent grows strictly with its age up to
    [MATURE_AGE] and equals [MATURE_SIZE] from then on; the radius of a
    dead agent is computed from its age of death (it is the radius of a
    live agent of that age), so it is the radius the agent had when it
    was killed and it does not change while the corpse keeps ageing. *)
Theorem get_radius_growth :
  (∀ j1 j2, is_alive j1 = true → is_alive j2 = true →
     (age j1 < age j2 ≤ MATURE_AGE)%Z →
     ∃ r1 r2, get_radius j1 = Some r1 ∧ get_radius j2 = Some r2
              ∧ (r1 < r2)%R)
  ∧ (∀ j, is_alive j = true → (MATURE_AGE ≤ age j)%Z →
       get_radius j = Some MATURE_SIZE)
  ∧ (∀ j d, is_alive j = false → age_of_death j = Some d →
       get_radius j = get_radius (with_death true None (with_age d j)))
  ∧ (∀ j, is_alive j = true → get_radius (kill j) = get_radius j)
  ∧ (∀ j h g, is_alive j = false →
       ∃ j', update h j g = Some (j', g)
             ∧ age j' = (age j + 1)%Z
             ∧ get_radius j' = get_radius j).
Proof.
  split; [|split; [|split; [|split]]].
  - intros j1 j2 H1 H2 [Hlt Hle].
    rewrite !get_radius_alive by assumption.
    eexists _, _. split; [reflexivity|]. split; [reflexivity|].
    unfold MATURE_AGE, MATURE_SIZE, BIRTH_SIZE in *.
    rewrite (bool_decide_eq_false_2 (600 ≤ age j1)%Z) by lia.
    assert (Hlt' : (IZR (age j1) < IZR (age j2))%R) by (apply IZR_lt; lia).
    case_bool_decide.
    + assert (age j2 = 600%Z) as E by lia. rewrite E in Hlt'. lra.
    + lra.
  - intros j Ha Hm. rewrite get_radius_alive by assumption.
    rewrite bool_decide_eq_true_2 by assumption.
    unfold MATURE_AGE, MATURE_SIZE, BIRTH_SIZE. f_equal. lra.
  - intros j d Ha Hd. unfold get_radius. simpl. rewrite Ha, Hd. reflexivity.
  - intros j Ha. unfold get_radius. simpl. rewrite Ha. reflexivity.
  - intros j h g Hd. eexists. split; [apply update_dead, Hd|].
    split; [reflexivity|].
    unfold get_radius. simpl. rewrite Hd. reflexivity.
Qed.

Lemma get_radius_growth_witness :
  ∃ r1 r2,
    get_radius (with_age 10 (Jubble_init 1 100 100 (0, 0, 0)%Z)) = Some r1
    ∧ get_radius (with_age 600 (Jubble_init 1 100 100 (0, 0, 0)%Z)) = Some r2
    ∧ (r1 < r2)%R.
Proof.
  apply (proj1 get_radius_growth
           (with_age 10 (Jubble_init 1 100 100 (0, 0, 0)%Z))
           (with_age 600 (Jubble_init 1 100 100 (0, 0, 0)%Z)));
    [reflexivity | reflexivity | simpl; unfold MATURE_AGE; lia].
Defined.

(** ** Loops *)

Section xrange.
Context {S : Type}.
Implicit Types (body : nat → S → option S) (s : S).

(** A property kept by every iteration is kept by the loop. *)
Lemma xrange_loop_inv body (P : S → Prop) :
  (∀ i s s', body i s = Some s' → P s → P s') →
  ∀ n start s s', xrange_loop body start n s = Some s' → P s → P s'.
Proof.
  intros Hstep. induction n as [|n IH]; intros start s s' Hl Hs; simpl in Hl.
  - congruence.
  - destruct (body start s) as [s1|] eqn:E; [|discriminate]. simpl in Hl.
    eapply IH; [exact Hl|]. eapply Hstep; eassumption.
Qed.

(** The same, with the index known to be in range. *)
Lemma xrange_loop_inv_range body (P : S → Prop) n0 :
  (∀ i s s', i < n0 → body i s = Some s' → P s → P s') →
  ∀ n start s s', start + n ≤ n0 →
    xrange_loop body start n s = Some s' → P s → P s'.
Proof.
  intros Hstep. induction n as [|n IH]; intros start s s' Hn Hl Hs;
    simpl in Hl.
  - congruence.
  - destruct (body start s) as [s1|] eqn:E; [|discriminate]. simpl in Hl.
    eapply (IH (Datatypes.S start)); [lia|exact Hl|].
    eapply Hstep; [|eassumption..]. lia.
Qed.

(** The loop does not raise when no iteration does, on the states an
    invariant describes. *)
Lemma xrange_loop_total body (P : S → Prop) n0 :
  (∀ i s, i < n0 → P s → ∃ s', body i s = Some s' ∧ P s') →
  ∀ n start s, start + n ≤ n0 → P s →
    ∃ s', xrange_loop body start n s = Some s' ∧ P s'.
Proof.
  intros Hstep. induction n as [|n IH]; intros start s Hn Hs; simpl.
  - eauto.
  - destruct (Hstep start s) as (s1&E&Hs1); [lia|exact Hs|].
    rewrite E. simpl. apply IH; [lia|exact Hs1].
Qed.

(** Two bodies that agree on the states of an invariant give the same
    loop. *)
Lemma xrange_loop_ext body1 body2 (P : S → Prop) :
  (∀ i s, P s → body1 i s = body2 i s) →
  (∀ i s s', body1 i s = Some s' → P s → P s') →
  ∀ n start s, P s →
    xrange_loop body1 start n s = xrange_loop body2 start n s.
Proof.
  intros Hag Hstep. induction n as [|n IH]; intros start s Hs; simpl.
  - reflexivity.
  - rewrite <- Hag by exact Hs.
    destruct (body1 start s) as [s1|] eqn:E; [|reflexivity]. simpl.
    apply IH. eapply Hstep; eassumption.
Qed.

(** Cutting a loop at iteration [i]. *)
Lemma xrange_loop_split body i :
  ∀ n start s s', i < n →
    xrange_loop body start n s = Some s' →
    ∃ s1 s2, xrange_loop body start i s = Some s1
             ∧ body (start + i) s1 = Some s2
             ∧ xrange_loop body (Datatypes.S (start + i)) (n - Datatypes.S i) s2
               = Some s'.
Proof.
  induction i as [|i IH]; intros n start s s' Hi Hl.
  - destruct n as [|n]; [lia|]. simpl in Hl.
    destruct (body start s) as [s1|] eqn:E; [|discriminate]. simpl in Hl.
    exists s, s1. simpl. rewrite Nat.add_0_r, Nat.sub_0_r. auto.
  - destruct n as [|n]; [lia|]. simpl in Hl.
    destruct (body start s) as [s1|] eqn:E; [|discriminate]. simpl in Hl.
    destruct (IH n (Datatypes.S start) s1 s') as (t1&t2&H1&H2&H3);
      [lia|exact Hl|].
    exists t1, t2. simpl. rewrite E. simpl.
    replace (start + Datatypes.S i) with (Datatypes.S start + i) by lia.
    auto.
Qed.
End xrange.

(** ** What one iteration of each phase does to the store *)

Lemma colliding_with_jubble_some a b :
  colliding_with_jubble a b
  = Some (is_alive a && is_alive b
          && match get_radius a, get_radius b with
             | Some r1, Some r2 =>
                 circles_are_touching (get_pos a) (get_pos b) r1 r2
             | _, _ => false
             end).
Proof.
  unfold colliding_with_jubble.
  destruct (is_alive a) eqn:Ea, (is_alive b) eqn:Eb; simpl; try reflexivity.
  rewrite (get_radius_alive a Ea), (get_radius_alive b Eb). reflexivity.
Qed.

Lemma colliding_alive a b :
  colliding_with_jubble a b = Some true →
  is_alive a = true ∧ is_alive b = true.
Proof.
  rewrite colliding_with_jubble_some. intros H. injection H as H.
  apply andb_true_iff in H as [H _]. apply andb_true_iff in H. exact H.
Qed.

Lemma fight_one_cases l h h' :
  fight_one l h = Some h' →
  h' = h
  ∨ ∃ self gl gj,
      h !! l = Some self ∧ has_jubble_goal self = true
      ∧ goal_jubble self = Some gl ∧ h !! gl = Some gj
      ∧ is_alive self = true ∧ is_alive gj = true
      ∧ h' = <[gl := kill gj]> h.
Proof.
  unfold fight_one. intros H.
  destruct (h !! l) as [self|] eqn:El; [|discriminate]. simpl in H.
  destruct (has_jubble_goal self) eqn:Eg; [|left; congruence].
  destruct (goal_jubble self) as [gl|] eqn:Egl; [|discriminate]. simpl in H.
  destruct (h !! gl) as [gj|] eqn:Egj; [|discriminate]. simpl in H.
  destruct (colliding_with_jubble self gj) as [c|] eqn:Ec; [|discriminate].
  simpl in H.
  destruct c; simpl in H; [|left; congruence].
  destruct (will_win_against_jubble self gj); [|left; congruence].
  right. apply colliding_alive in Ec as [Ha Hb].
  exists self, gl, gj. repeat split; try assumption. congruence.
Qed.

Lemma assign_one_cases old new j oj h h' :
  assign_one old new j oj h = Some h' →
  h' = h
  ∨ ∃ nj noj target,
      new !! j = Some nj ∧ new !! oj = Some noj ∧ h !! nj = Some target
      ∧ h' = <[nj := set_jubble_goal target noj]> h.
Proof.
  unfold assign_one. intros H.
  case_bool_decide; [|left; congruence].
  destruct (old !! j) as [lj|]; [|discriminate]. simpl in H.
  destruct (h !! lj) as [self|]; [|discriminate]. simpl in H.
  destruct (is_alive self); [|left; congruence].
  destruct (old !! oj) as [loj|]; [|discriminate]. simpl in H.
  destruct (h !! loj) as [other|]; [|discriminate]. simpl in H.
  destruct (is_alive other); [|left; congruence].
  destruct (_ && _); [|left; congruence].
  destruct (new !! j) as [nj|]; [|discriminate]. simpl in H.
  destruct (new !! oj) as [noj|]; [|discriminate]. simpl in H.
  destruct (h !! nj) as [target|] eqn:Et; [|discriminate]. simpl in H.
  right. exists nj, noj, target. repeat split; congruence.
Qed.

Lemma update_at_cases l h g h' g' :
  update_at l (h, g) = Some (h', g') →
  ∃ self s', h !! l = Some self ∧ update h self g = Some (s', g')
             ∧ h' = <[l := s']> h.
Proof.
  unfold update_at. intros H.
  destruct (h !! l) as [self|]; [|discriminate]. simpl in H.
  destruct (update h self g) as [[s' g1]|] eqn:Eu; [|discriminate].
  simpl in H. injection H as <- <-. eauto.
Qed.

(** ** Death is recorded once by the program *)

Lemma corpses_kept_refl h : corpses_kept h h.
Proof. intros k a Hk Ha. eauto. Qed.

Lemma corpses_kept_trans h1 h2 h3 :
  corpses_kept h1 h2 → corpses_kept h2 h3 → corpses_kept h1 h3.
Proof.
  intros H12 H23 k a Hk Ha.
  destruct (H12 k a Hk Ha) as (a2&Hk2&Ha2&Hd2).
  destruct (H23 k a2 Hk2 Ha2) as (a3&Hk3&Ha3&Hd3).
  exists a3. repeat split; congruence.
Qed.

Lemma corpses_kept_fight_one l h h' :
  fight_one l h = Some h' → corpses_kept h h'.
Proof.
  intros H. apply fight_one_cases in H as [->|H];
    [apply corpses_kept_refl|].
  destruct H as (self&gl&gj&_&_&_&Hgj&_&Hal&->).
  intros k a Hk Ha. destruct (decide (gl = k)) as [->|Hne].
  - congruence.
  - rewrite lookup_insert_ne by exact Hne. eauto.
Qed.

Lemma corpses_kept_assign_one old new j oj h h' :
  assign_one old new j oj h = Some h' → corpses_kept h h'.
Proof.
  intros H. apply assign_one_cases in H as [->|H];
    [apply corpses_kept_refl|].
  destruct H as (nj&noj&target&_&_&Ht&->).
  intros k a Hk Ha. destruct (decide (nj = k)) as [->|Hne].
  - rewrite lookup_insert_eq. assert (a = target) as -> by congruence.
    eexists. split; [reflexivity|]. auto.
  - rewrite lookup_insert_ne by exact Hne. eauto.
Qed.

Lemma corpses_kept_update_at l h g h' g' :
  update_at l (h, g) = Some (h', g') → corpses_kept h h'.
Proof.
  intros H. apply update_at_cases in H as (self&s'&Hl&Hu&->).
  intros k a Hk Ha. destruct (decide (l = k)) as [->|Hne].
  - rewrite lookup_insert_eq. assert (a = self) as -> by congruence.
    rewrite update_dead in Hu by exact Ha. injection Hu as <- _.
    eexists. split; [reflexivity|]. auto.
  - rewrite lookup_insert_ne by exact Hne. eauto.
Qed.

Lemma corpses_kept_fight_phase old h h' :
  fight_phase old h = Some h' → corpses_kept h h'.
Proof.
  intros H. unfold fight_phase, for_xrange in H.
  eapply (xrange_loop_inv _ (corpses_kept h)); [|exact H|apply corpses_kept_refl].
  intros i s s' Hb Hs. simpl in Hb.
  destruct (old !! i) as [l|]; [|discriminate]. simpl in Hb.
  eapply corpses_kept_trans; [exact Hs|].
  eapply corpses_kept_fight_one, Hb.
Qed.

Lemma corpses_kept_assign_phase old new h h' :
  assign_phase old new h = Some h' → corpses_kept h h'.
Proof.
  intros H. unfold assign_phase, for_xrange in H.
  eapply (xrange_loop_inv _ (corpses_kept h)); [|exact H|apply corpses_kept_refl].
  intros j s s' Hb Hs. simpl in Hb.
  eapply corpses_kept_trans; [exact Hs|].
  eapply (xrange_loop_inv _ (corpses_kept s)); [|exact Hb|apply corpses_kept_refl].
  intros oj t t' Hb' Ht.
  eapply corpses_kept_trans; [exact Ht|].
  eapply corpses_kept_assign_one, Hb'.
Qed.

Lemma corpses_kept_update_phase new h g h' g' :
  update_phase new (h, g) = Some (h', g') → corpses_kept h h'.
Proof.
  intros H. unfold update_phase, for_xrange in H.
  assert (Hstep : ∀ i (s s' : heap * Random),
             (l ← new !! i; update_at l s) = Some s' →
             corpses_kept h s.1 → corpses_kept h s'.1); last first.
  { exact (xrange_loop_inv _ (λ hg : heap * Random, corpses_kept h hg.1)
             Hstep _ _ _ _ H (corpses_kept_refl h)). }
  intros i [s gs] [s' gs'] Hb Hs. simpl in *.
  destruct (new !! i) as [l|]; [|discriminate]. simpl in Hb.
  eapply corpses_kept_trans; [exact Hs|].
  eapply corpses_kept_update_at, Hb.
Qed.

(** C6, counterexample.  [kill] stores the current age without looking at
    the alive flag: killing a constructed agent, letting the corpse age by
    one [update] and killing it again moves the age of death from 0 to 1. *)
Lemma second_kill_overwrites_age_of_death :
  let j1 := kill (Jubble_init 1 100 100 (0, 0, 0)%Z) in
  let g := mkRandom (λ _, 0%R) 0 in
  ∃ j2, update ∅ j1 g = Some (j2, g)
        ∧ age_of_death j1 = Some 0%Z
        ∧ age_of_death (kill j2) = Some 1%Z
        ∧ age_of_death (kill j2) ≠ age_of_death j1.
Proof.
  simpl. eexists. split; [apply update_dead; reflexivity|].
  split; [reflexivity|]. split; [reflexivity|]. simpl. discriminate.
Qed.

(** C6, as the code has it.  [kill] always marks the agent dead and
    stores its current age as the age of death, so calling it twice in a
    row changes nothing the second time; it is the callers that guard it:
    [update] on a dead agent and a whole call of [update_jubbles] leave
    the age of death of every agent that is already dead as it was. *)
Theorem age_of_death_recorded_once :
  (∀ j, is_alive (kill j) = false ∧ age_of_death (kill j) = Some (age j)
        ∧ kill (kill j) = kill j)
  ∧ (∀ h j g, is_alive j = false →
       ∃ j', update h j g = Some (j', g) ∧ is_alive j' = false
             ∧ age_of_death j' = age_of_death j)
  ∧ (∀ old h g h' new g' k a,
       update_jubbles old h g = Some (h', new, g') →
       h !! k = Some a → is_alive a = false →
       ∃ a', h' !! k = Some a' ∧ is_alive a' = false
             ∧ age_of_death a' = age_of_death a).
Proof.
  split; [|split].
  - intros j. repeat split; reflexivity.
  - intros h j g Hd. eexists. split; [apply update_dead, Hd|]. auto.
  - intros old h g h' new g' k a Hu. revert k a.
    change (corpses_kept h h').
    unfold update_jubbles in Hu.
    destruct (fight_phase old h) as [h1|] eqn:E1; [|discriminate].
    simpl in Hu.
    destruct (assign_phase old (copy_copy old) h1) as [h2|] eqn:E2;
      [|discriminate]. simpl in Hu.
    destruct (prune_phase h2 (copy_copy old)) as [new'|] eqn:E3;
      [|discriminate]. simpl in Hu.
    destruct (update_phase new' (h2, g)) as [[h3 g3]|] eqn:E4;
      [|discriminate]. simpl in Hu. injection Hu as <- <- <-.
    eapply corpses_kept_trans; [eapply corpses_kept_fight_phase, E1|].
    eapply corpses_kept_trans; [eapply corpses_kept_assign_phase, E2|].
    eapply corpses_kept_update_phase, E4.
Qed.

Lemma age_of_death_recorded_once_witness :
  ∃ j', update ∅ (kill (Jubble_init 1 100 100 (0, 0, 0)%Z))
          (mkRandom (λ _, 0%R) 0) = Some (j', mkRandom (λ _, 0%R) 0)
        ∧ is_alive j' = false
        ∧ age_of_death j' = Some 0%Z.
Proof.
  apply (proj1 (proj2 age_of_death_recorded_once) ∅
           (kill (Jubble_init 1 100 100 (0, 0, 0)%Z))
           (mkRandom (λ _, 0%R) 0)).
  reflexivity.
Defined.

(** ** The fight phase *)

Lemma only_killed_refl h : only_killed h h.
Proof. intros k. left. reflexivity. Qed.

Lemma only_killed_fight_one h0 h1 h2 l :
  only_killed h0 h1 → fight_one l h1 = Some h2 → only_killed h0 h2.
Proof.
  intros Hk H. apply fight_one_cases in H as [->|H]; [exact Hk|].
  destruct H as (self&gl&gj&_&_&_&Hgj&_&Hal&->).
  intros k. destruct (decide (gl = k)) as [->|Hne].
  - rewrite lookup_insert_eq. destruct (Hk k) as [E|(a&E0&Ea&E1)].
    + right. exists gj. rewrite <- E. auto.
    + rewrite E1 in Hgj. injection Hgj as <-. discriminate Hal.
  - rewrite lookup_insert_ne by exact Hne. apply Hk.
Qed.

Lemma colliding_dead_l a b :
  is_alive a = false → colliding_with_jubble a b = Some false.
Proof. intros H. unfold colliding_with_jubble. rewrite H. reflexivity. Qed.

Lemma colliding_dead_r a b :
  is_alive b = false → colliding_with_jubble a b = Some false.
Proof.
  intros H. unfold colliding_with_jubble. rewrite H, andb_false_r.
  reflexivity.
Qed.

(** In a store reached by kills only, the loop body takes the pre-tick
    decision, restricted to attackers and targets that are still alive. *)
Lemma fight_one_is_pretick h0 h1 l :
  only_killed h0 h1 → fight_one l h1 = fight_one_pretick h0 l h1.
Proof.
  intros Hk. unfold fight_one, fight_one_pretick, kill_decision.
  destruct (Hk l) as [El|(self0&El0&Ea0&El1)].
  - rewrite El. destruct (h0 !! l) as [self|] eqn:E0; [|reflexivity].
    simpl. destruct (has_jubble_goal self); [|reflexivity].
    destruct (goal_jubble self) as [gl|]; [|reflexivity]. simpl.
    destruct (Hk gl) as [Eg|(gj0&Eg0&Eb0&Eg1)].
    + rewrite Eg. destruct (h0 !! gl) as [gj|] eqn:Eg0; [|reflexivity].
      simpl. destruct (colliding_with_jubble self gj) as [c|] eqn:Ec;
        [|reflexivity]. simpl.
      destruct c; simpl; [|reflexivity].
      destruct (will_win_against_jubble self gj); [|reflexivity].
      simpl.
      apply colliding_alive in Ec as [Ha Hb]. rewrite Ha, Eg. simpl.
      rewrite Hb. reflexivity.
    + rewrite Eg0, Eg1. simpl.
      rewrite (colliding_dead_r self (kill gj0)) by reflexivity. simpl.
      destruct (colliding_with_jubble self gj0) as [c|] eqn:Ec.
      2:{ rewrite colliding_with_jubble_some in Ec. discriminate. }
      simpl. destruct (_ && _); [|reflexivity].
      simpl. rewrite Eg1. simpl. rewrite andb_false_r. reflexivity.
  - rewrite El0, El1. simpl.
    destruct (has_jubble_goal self0); [|reflexivity].
    destruct (goal_jubble self0) as [gl|]; [|reflexivity]. simpl.
    assert (Hdom : h1 !! gl = None ∧ h0 !! gl = None
                   ∨ ∃ g1 g0, h1 !! gl = Some g1 ∧ h0 !! gl = Some g0).
    { destruct (Hk gl) as [Eg|(gj0&Eg0&Eb0&Eg1)].
      - rewrite Eg. destruct (h0 !! gl); eauto.
      - right. eauto. }
    destruct Hdom as [[-> ->]|(g1&g0&Hg1&Hg0)]; [reflexivity|].
    rewrite Hg1, Hg0. simpl.
    destruct (colliding_with_jubble self0 g0) as [c|] eqn:Ec.
    2:{ rewrite colliding_with_jubble_some in Ec. discriminate. }
    simpl. destruct (_ && _); [|reflexivity].
    simpl. rewrite Hg1. reflexivity.
Qed.

Lemma fight_one_goal l h self gl gj c :
  h !! l = Some self → has_jubble_goal self = true →
  goal_jubble self = Some gl → h !! gl = Some gj →
  colliding_with_jubble self gj = Some c →
  fight_one l h
  = Some (if c && will_win_against_jubble self gj
          then <[gl := kill gj]> h else h).
Proof.
  intros Hl Hg Hgl Hgj Hc. unfold fight_one.
  rewrite Hl. simpl. rewrite Hg, Hgl. simpl. rewrite Hgj. simpl.
  rewrite Hc. simpl. destruct (_ && _); reflexivity.
Qed.

Lemma kill_decision_goal l h self gl gj c :
  h !! l = Some self → has_jubble_goal self = true →
  goal_jubble self = Some gl → h !! gl = Some gj →
  colliding_with_jubble self gj = Some c →
  kill_decision h l
  = Some (if c && will_win_against_jubble self gj then Some gl else None).
Proof.
  intros Hl Hg Hgl Hgj Hc. unfold kill_decision.
  rewrite Hl. simpl. rewrite Hg, Hgl. simpl. rewrite Hgj. simpl.
  rewrite Hc. reflexivity.
Qed.

Lemma fight_phase_pair l1 l2 h :
  fight_phase [l1; l2] h = h1 ← fight_one l1 h; fight_one l2 h1.
Proof.
  unfold fight_phase, for_xrange. simpl.
  destruct (fight_one l1 h) as [h1|]; [|reflexivity]. simpl.
  destruct (fight_one l2 h1); reflexivity.
Qed.

Lemma atan2_east dx : (0 < dx)%R → atan2 0 dx = 0%R.
Proof.
  intros H. unfold atan2. rewrite decide_True by exact H.
  replace (0 / dx)%R with 0%R by (unfold Rdiv; ring). apply atan_0.
Qed.

Lemma atan2_west dx : (dx < 0)%R → atan2 0 dx = PI.
Proof.
  intros H. unfold atan2.
  rewrite decide_False by lra. rewrite decide_True by exact H.
  rewrite decide_True by lra.
  replace (0 / dx)%R with 0%R by (unfold Rdiv; ring). rewrite atan_0. lra.
Qed.

Lemma hypot_axis a : (0 <= a)%R → hypot a 0 = a ∧ hypot (- a) 0 = a.
Proof.
  intros H. unfold hypot. split.
  - replace (a * a + 0 * 0)%R with (a * a)%R by ring. apply sqrt_square, H.
  - replace (- a * - a + 0 * 0)%R with (a * a)%R by ring.
    apply sqrt_square, H.
Qed.

Lemma duel_dist :
  dist (get_pos duel_a) (get_pos duel_b) = 5%R
  ∧ dist (get_pos duel_b) (get_pos duel_a) = 5%R.
Proof.
  unfold dist. simpl. split.
  - replace (100 - 105)%R with (- 5)%R by lra.
    replace (100 - 100)%R with 0%R by lra. apply hypot_axis. lra.
  - replace (105 - 100)%R with 5%R by lra.
    replace (100 - 100)%R with 0%R by lra. apply hypot_axis. lra.
Qed.

Lemma duel_colliding :
  colliding_with_jubble duel_a duel_b = Some true
  ∧ colliding_with_jubble duel_b duel_a = Some true.
Proof.
  destruct duel_dist as [Hab Hba].
  rewrite !colliding_with_jubble_some. unfold circles_are_touching.
  rewrite Hab, Hba. simpl.
  split; f_equal; apply bool_decide_eq_true_2;
    unfold MATURE_AGE, MATURE_SIZE, BIRTH_SIZE; lra.
Qed.

Lemma duel_detect :
  can_detect_jubble duel_a duel_b = true
  ∧ can_detect_jubble duel_b duel_a = true.
Proof.
  destruct duel_dist as [Hab Hba].
  unfold can_detect_jubble, _can_detect_coord, _coord_in_range, to_polar.
  change (get_pos duel_b).1 with 105%R. change (get_pos duel_b).2 with 100%R.
  change (get_pos duel_a).1 with 100%R. change (get_pos duel_a).2 with 100%R.
  change (100%R, 100%R) with (get_pos duel_a).
  change (105%R, 100%R) with (get_pos duel_b).
  rewrite Hab, Hba. simpl.
  replace (100 - 100)%R with 0%R by lra.
  rewrite (atan2_east (105 - 100)) by lra.
  rewrite (atan2_west (100 - 105)) by lra.
  pose proof PI_RGT_0 as Hpi.
  unfold DEF_DETECTION_RADIUS, DEF_DETECTION_SLICE, ANGLE_RIGHT, ANGLE_LEFT.
  rewrite !bool_decide_eq_true_2 by lra. split; reflexivity.
Qed.

Lemma duel_will_win :
  will_win_against_jubble duel_a duel_b = true
  ∧ will_win_against_jubble duel_b duel_a = true.
Proof.
  unfold will_win_against_jubble. destruct duel_detect as [-> ->].
  split; reflexivity.
Qed.

Lemma duel_heap_lookup :
  duel_heap !! 0 = Some duel_a ∧ duel_heap !! 1 = Some duel_b.
Proof.
  unfold duel_heap. split.
  - apply lookup_insert_eq.
  - rewrite lookup_insert_ne by lia. apply lookup_insert_eq.
Qed.

(** C1, counterexample.  In the duel the loop kills the second agent
    first, and the second agent, now dead, no longer collides: the first
    agent survives.  Decisions taken from the pre-tick store would kill
    both. *)
Lemma duel_first_agent_survives :
  ∃ hseq hsnap,
    fight_phase [0; 1] duel_heap = Some hseq
    ∧ fight_phase_snapshot [0; 1] duel_heap = Some hsnap
    ∧ is_alive <$> hseq !! 0 = Some true
    ∧ is_alive <$> hsnap !! 0 = Some false
    ∧ fight_phase [0; 1] duel_heap ≠ fight_phase_snapshot [0; 1] duel_heap.
Proof.
  destruct duel_heap_lookup as [H0 H1].
  destruct duel_colliding as [Cab Cba].
  destruct duel_will_win as [Wab Wba].
  assert (Hseq : fight_phase [0; 1] duel_heap
                 = Some (<[1 := kill duel_b]> duel_heap)).
  { rewrite fight_phase_pair.
    rewrite (fight_one_goal 0 duel_heap duel_a 1 duel_b true)
      by (assumption || reflexivity).
    rewrite Wab. simpl.
    rewrite (fight_one_goal 1 _ (kill duel_b) 0 duel_a false).
    - reflexivity.
    - apply lookup_insert_eq.
    - reflexivity.
    - reflexivity.
    - rewrite lookup_insert_ne by lia. exact H0.
    - apply colliding_dead_l. reflexivity. }
  assert (Hsnap : fight_phase_snapshot [0; 1] duel_heap
                  = Some (alter kill 0 (alter kill 1 duel_heap))).
  { unfold fight_phase_snapshot. simpl.
    rewrite (kill_decision_goal 0 duel_heap duel_a 1 duel_b true)
      by (assumption || reflexivity).
    rewrite (kill_decision_goal 1 duel_heap duel_b 0 duel_a true)
      by (assumption || reflexivity).
    rewrite Wab, Wba. reflexivity. }
  assert (A1 : is_alive <$> (<[1 := kill duel_b]> duel_heap) !! 0 = Some true).
  { rewrite lookup_insert_ne by lia. rewrite H0. reflexivity. }
  assert (A2 : is_alive <$> alter kill 0 (alter kill 1 duel_heap) !! 0
               = Some false).
  { rewrite lookup_alter_eq. rewrite lookup_alter_ne by lia.
    rewrite H0. reflexivity. }
  eexists _, _. split; [exact Hseq|]. split; [exact Hsnap|].
  split; [exact A1|]. split; [exact A2|].
  rewrite Hseq, Hsnap. intros E.
  assert (E' : is_alive <$> (<[1 := kill duel_b]> duel_heap) !! 0
               = is_alive <$> alter kill 0 (alter kill 1 duel_heap) !! 0)
    by congruence.
  rewrite A1, A2 in E'. discriminate.
Qed.

(** C1, as the code has it.  The phase is the loop that takes every kill
    decision from the pre-tick store and carries it out, in ascending
    index order, only when the attacker and its target are both still
    alive at the attacker's turn: an agent killed earlier in the phase
    kills nobody. *)
Theorem fight_phase_pretick_decisions (old_jubbles : list loc) (h : heap) :
  fight_phase old_jubbles h = fight_phase_pretick old_jubbles h.
Proof.
  unfold fight_phase, fight_phase_pretick, for_xrange.
  apply (xrange_loop_ext _ _ (only_killed h)).
  - intros i s Hs. destruct (old_jubbles !! i) as [l|]; [|reflexivity].
    simpl. apply fight_one_is_pretick, Hs.
  - intros i s s' Hb Hs. destruct (old_jubbles !! i) as [l|]; [|discriminate].
    simpl in Hb. eapply only_killed_fight_one; eassumption.
  - apply only_killed_refl.
Qed.

(** ** The goal-assignment phase *)

Lemma same_body_refl a : same_body a a.
Proof. repeat split. Qed.

Lemma same_body_trans a b c : same_body a b → same_body b c → same_body a c.
Proof.
  unfold same_body. intros (?&?&?&?&?&?) (?&?&?&?&?&?).
  repeat split; congruence.
Qed.

Lemma goals_extended_refl h : goals_extended h h.
Proof.
  intros k. destruct (h !! k) as [a|]; [|reflexivity].
  exists a. split; [reflexivity|]. split; [apply same_body_refl|auto].
Qed.

Lemma goals_extended_trans h1 h2 h3 :
  goals_extended h1 h2 → goals_extended h2 h3 → goals_extended h1 h3.
Proof.
  intros H12 H23 k. specialize (H12 k). specialize (H23 k).
  destruct (h1 !! k) as [a|].
  - destruct H12 as (a2&E2&B2&G2). rewrite E2 in H23.
    destruct H23 as (a3&E3&B3&G3). exists a3.
    split; [exact E3|]. split; [eapply same_body_trans; eassumption|auto].
  - rewrite H12 in H23. exact H23.
Qed.

Lemma goals_extended_lookup h h' k a :
  goals_extended h h' → h !! k = Some a →
  ∃ a', h' !! k = Some a' ∧ same_body a a'
        ∧ (has_jubble_goal a = true → has_jubble_goal a' = true).
Proof. intros H E. specialize (H k). rewrite E in H. exact H. Qed.

Lemma goals_extended_assign_one old new j oj h h' :
  assign_one old new j oj h = Some h' → goals_extended h h'.
Proof.
  intros H. apply assign_one_cases in H as [->|H];
    [apply goals_extended_refl|].
  destruct H as (nj&noj&target&_&_&Ht&->).
  intros k. destruct (decide (nj = k)) as [->|Hne].
  - rewrite Ht, lookup_insert_eq. eexists. split; [reflexivity|].
    split; [repeat split|reflexivity].
  - rewrite lookup_insert_ne by exact Hne.
    destruct (h !! k) as [a|]; [|reflexivity].
    exists a. split; [reflexivity|]. split; [apply same_body_refl|auto].
Qed.

Lemma goals_extended_inner old new j start n h h' :
  xrange_loop (λ oj s, assign_one old new j oj s) start n h = Some h' →
  goals_extended h h'.
Proof.
  intros H.
  eapply (xrange_loop_inv _ (goals_extended h));
    [|exact H|apply goals_extended_refl].
  intros oj t t' Hb Ht. eapply goals_extended_trans; [exact Ht|].
  eapply goals_extended_assign_one, Hb.
Qed.

Lemma goals_extended_outer old new start n h h' :
  xrange_loop
    (λ j s, for_xrange (length old) (λ oj s, assign_one old new j oj s) s)
    start n h = Some h' →
  goals_extended h h'.
Proof.
  intros H.
  eapply (xrange_loop_inv _ (goals_extended h));
    [|exact H|apply goals_extended_refl].
  intros j t t' Hb Ht. eapply goals_extended_trans; [exact Ht|].
  eapply goals_extended_inner, Hb.
Qed.

Lemma can_detect_same_body a b a' b' :
  same_body a a' → same_body b b' →
  can_detect_jubble a' b' = can_detect_jubble a b.
Proof.
  intros (Hx&Hy&Ha&Hr&_&_) (Hx'&Hy'&_).
  unfold can_detect_jubble, _can_detect_coord, _coord_in_range, get_pos.
  simpl. rewrite Hx, Hy, Ha, Hr, Hx', Hy'. reflexivity.
Qed.

Lemma all_bound_extended old h h' :
  all_bound old h → goals_extended h h' → all_bound old h'.
Proof.
  intros Hb He i l Hi. destruct (Hb i l Hi) as [a Ea].
  destruct (goals_extended_lookup h h' l a He Ea) as (a'&E'&_). eauto.
Qed.

Lemma assign_one_total old j oj h :
  j < length old → oj < length old → all_bound old h →
  ∃ h', assign_one old (copy_copy old) j oj h = Some h'.
Proof.
  intros Hj Hoj Hb. unfold assign_one, copy_copy.
  case_bool_decide; [|eauto].
  destruct (lookup_lt_is_Some_2 old j Hj) as [lj Elj].
  destruct (lookup_lt_is_Some_2 old oj Hoj) as [loj Eloj].
  destruct (Hb j lj Elj) as [a Ea]. destruct (Hb oj loj Eloj) as [b Eb].
  rewrite Elj. simpl. rewrite Ea. simpl.
  destruct (is_alive a); [|eauto].
  rewrite Eloj. simpl. rewrite Eb. simpl.
  destruct (is_alive b); [|eauto].
  destruct (_ && _); [|eauto].
  simpl. eauto.
Qed.

(** The phase raises nothing when the list only holds bound references. *)
Lemma assign_phase_total old h :
  all_bound old h → ∃ h', assign_phase old (copy_copy old) h = Some h'.
Proof.
  intros Hb. unfold assign_phase, for_xrange, copy_copy.
  destruct (xrange_loop_total
    (λ j s, xrange_loop (λ oj s, assign_one old old j oj s) 0 (length old) s)
    (all_bound old) (length old)) with (n := length old) (start := 0) (s := h)
    as (h'&E&_); [|lia|exact Hb|eauto].
  intros j s Hj Hs.
  destruct (xrange_loop_total (λ oj s, assign_one old old j oj s)
    (λ t, all_bound old t) (length old))
    with (n := length old) (start := 0) (s := s) as (s'&E&Hs');
    [|lia|exact Hs|eauto].
  intros oj t Hoj Ht.
  destruct (assign_one_total old j oj t Hj Hoj Ht) as [t' Et].
  exists t'. split; [exact Et|].
  eapply all_bound_extended; [exact Ht|].
  eapply goals_extended_assign_one, Et.
Qed.

(** At the pair [(j, oj)] the agent [j] ends with an agent goal. *)
Lemma assign_one_hit old j oj lj loj t t' a b :
  old !! j = Some lj → old !! oj = Some loj → j ≠ oj →
  t !! lj = Some a → t !! loj = Some b →
  is_alive a = true → is_alive b = true →
  can_detect_jubble a b = true → (age b ≤ age a)%Z →
  assign_one old (copy_copy old) j oj t = Some t' →
  ∃ a', t' !! lj = Some a' ∧ has_jubble_goal a' = true.
Proof.
  intros Elj Eloj Hne Ea Eb Aa Ab Hd Hage. unfold assign_one, copy_copy.
  rewrite bool_decide_eq_true_2 by exact Hne.
  rewrite Elj. simpl. rewrite Ea. simpl. rewrite Aa.
  rewrite Eloj. simpl. rewrite Eb. simpl. rewrite Ab, Hd.
  unfold will_fight_with_jubble. rewrite (bool_decide_eq_true_2 _ Hage).
  destruct (has_jubble_goal a) eqn:Eg; simpl.
  - intros H. injection H as <-. eauto.
  - intros H. injection H as <-.
    rewrite lookup_insert_eq. eauto.
Qed.

Lemma assign_phase_sets_goal old h h' j oj lj loj a b :
  old !! j = Some lj → old !! oj = Some loj → j ≠ oj →
  h !! lj = Some a → h !! loj = Some b →
  is_alive a = true → is_alive b = true →
  can_detect_jubble a b = true → (age b ≤ age a)%Z →
  assign_phase old (copy_copy old) h = Some h' →
  ∃ a', h' !! lj = Some a' ∧ has_jubble_goal a' = true.
Proof.
  intros Elj Eloj Hne Ea Eb Aa Ab Hd Hage Hp.
  unfold assign_phase, for_xrange, copy_copy in Hp.
  assert (Hj : j < length old) by (eapply lookup_lt_Some; eassumption).
  assert (Hoj : oj < length old) by (eapply lookup_lt_Some; eassumption).
  destruct (xrange_loop_split _ j _ _ _ _ Hj Hp) as (s1&s2&P1&P2&P3).
  simpl in P2.
  destruct (xrange_loop_split _ oj _ _ _ _ Hoj P2) as (t1&t2&Q1&Q2&Q3).
  simpl in Q2.
  assert (E1 : goals_extended h t1).
  { eapply goals_extended_trans.
    - eapply goals_extended_outer, P1.
    - eapply goals_extended_inner, Q1. }
  destruct (goals_extended_lookup _ _ _ _ E1 Ea) as (a1&Ea1&Ba1&_).
  destruct (goals_extended_lookup _ _ _ _ E1 Eb) as (b1&Eb1&Bb1&_).
  assert (Hhit : ∃ a2, t2 !! lj = Some a2 ∧ has_jubble_goal a2 = true).
  { eapply (assign_one_hit old j oj lj loj t1 t2 a1 b1); try eassumption.
    - destruct Ba1 as (_&_&_&_&_&->). exact Aa.
    - destruct Bb1 as (_&_&_&_&_&->). exact Ab.
    - rewrite (can_detect_same_body a b a1 b1) by assumption. exact Hd.
    - destruct Ba1 as (_&_&_&_&->&_). destruct Bb1 as (_&_&_&_&->&_).
      exact Hage. }
  destruct Hhit as (a2&Ea2&Ga2).
  assert (E2 : goals_extended t2 h').
  { eapply goals_extended_trans.
    - eapply goals_extended_inner, Q3.
    - eapply goals_extended_outer, P3. }
  destruct (goals_extended_lookup _ _ _ _ E2 Ea2) as (a3&Ea3&_&Ga3).
  eauto.
Qed.

Lemma assign_one_eq old new j oj h lj loj a b nj noj target :
  j ≠ oj → old !! j = Some lj → h !! lj = Some a →
  old !! oj = Some loj → h !! loj = Some b →
  is_alive a = true → is_alive b = true →
  new !! j = Some nj → new !! oj = Some noj → h !! nj = Some target →
  assign_one old new j oj h
  = Some (if negb (has_jubble_goal a) && can_detect_jubble a b
             && will_fight_with_jubble a b
          then <[nj := set_jubble_goal target noj]> h else h).
Proof.
  intros Hne Elj Ea Eloj Eb Aa Ab Enj Enoj Et. unfold assign_one.
  rewrite bool_decide_eq_true_2 by exact Hne.
  rewrite Elj. simpl. rewrite Ea. simpl. rewrite Aa.
  rewrite Eloj. simpl. rewrite Eb. simpl. rewrite Ab.
  destruct (_ && _); [|reflexivity].
  rewrite Enj. simpl. rewrite Enoj. simpl. rewrite Et. reflexivity.
Qed.

Lemma assign_one_diag old new j h : assign_one old new j j h = Some h.
Proof.
  unfold assign_one. rewrite bool_decide_eq_false_2; [reflexivity|].
  intros H. apply H. reflexivity.
Qed.

Lemma assign_phase_pair l1 l2 h :
  assign_phase [l1; l2] (copy_copy [l1; l2]) h
  = h1 ← assign_one [l1; l2] [l1; l2] 0 1 h;
    assign_one [l1; l2] [l1; l2] 1 0 h1.
Proof.
  unfold assign_phase, for_xrange, copy_copy. cbn [length xrange_loop].
  rewrite assign_one_diag. cbn [mbind option_bind].
  destruct (assign_one [l1; l2] [l1; l2] 0 1 h) as [h1|]; [|reflexivity].
  cbn [mbind option_bind].
  destruct (assign_one [l1; l2] [l1; l2] 1 0 h1) as [h2|]; [|reflexivity].
  cbn [mbind option_bind]. rewrite assign_one_diag. reflexivity.
Qed.

(** C5, counterexample.  Two live agents of age 10, neither with a goal,
    each in the detection cone of the other: after the goal-assignment
    phase each has the other as its agent goal. *)
Lemma equal_age_peers_target_each_other :
  (is_alive peer_a = true ∧ is_alive peer_b = true
   ∧ age peer_a = age peer_b
   ∧ has_jubble_goal peer_a = false ∧ has_jubble_goal peer_b = false
   ∧ can_detect_jubble peer_a peer_b = true
   ∧ can_detect_jubble peer_b peer_a = true)
  ∧ ∃ h', assign_phase [0; 1] (copy_copy [0; 1]) peer_heap = Some h'
          ∧ h' !! 0 = Some (set_jubble_goal peer_a 1)
          ∧ h' !! 1 = Some (set_jubble_goal peer_b 0).
Proof.
  destruct duel_detect as [Dab Dba].
  split; [repeat split; assumption|].
  assert (H0 : peer_heap !! 0 = Some peer_a) by apply lookup_insert_eq.
  assert (H1 : peer_heap !! 1 = Some peer_b).
  { unfold peer_heap. rewrite lookup_insert_ne by lia.
    apply lookup_insert_eq. }
  exists (<[1 := set_jubble_goal peer_b 0]>
            (<[0 := set_jubble_goal peer_a 1]> peer_heap)).
  split; [|split].
  - rewrite assign_phase_pair.
    rewrite (assign_one_eq _ _ 0 1 peer_heap 0 1 peer_a peer_b 0 1 peer_a)
      by (assumption || reflexivity || lia).
    change (can_detect_jubble peer_a peer_b)
      with (can_detect_jubble duel_a duel_b).
    rewrite Dab. simpl.
    rewrite (assign_one_eq _ _ 1 0 _ 1 0 peer_b (set_jubble_goal peer_a 1)
               1 0 peer_b).
    + change (can_detect_jubble peer_b (set_jubble_goal peer_a 1))
        with (can_detect_jubble duel_b duel_a).
      rewrite Dba. reflexivity.
    + lia.
    + reflexivity.
    + rewrite lookup_insert_ne by lia. exact H1.
    + reflexivity.
    + apply lookup_insert_eq.
    + reflexivity.
    + reflexivity.
    + reflexivity.
    + reflexivity.
    + rewrite lookup_insert_ne by lia. exact H1.
  - rewrite lookup_insert_ne by lia. apply lookup_insert_eq.
  - apply lookup_insert_eq.
Qed.

(** ** Wandering near the edges *)

Section trigonometry.
Local Open Scope R_scope.

(** A turn of at most [TURN_ANGLE] keeps the heading within 45 degrees
    of where it was. *)
Lemma small_turn d :
  - TURN_ANGLE <= d <= TURN_ANGLE →
  0 <= cos d ∧ - (1 / 2) <= sin d <= 1 / 2 ∧ - cos d <= sin d <= cos d.
Proof.
  unfold TURN_ANGLE. intros [Hl Hu]. pose proof PI_RGT_0 as Hpi.
  assert (Hs6 : sin d <= 1 / 2).
  { rewrite <- sin_PI6. apply sin_incr_1; lra. }
  assert (Hs6' : - (1 / 2) <= sin d).
  { rewrite <- sin_PI6, <- sin_neg. apply sin_incr_1; lra. }
  assert (Hs4 : sin d <= sin (PI / 4)) by (apply sin_incr_1; lra).
  assert (Hs4' : - sin (PI / 4) <= sin d).
  { rewrite <- sin_neg. apply sin_incr_1; lra. }
  assert (Hc4 : cos (PI / 4) <= cos d).
  { destruct (Rle_dec 0 d) as [Hd|Hd].
    - apply cos_decr_1; lra.
    - rewrite <- (cos_neg d). apply cos_decr_1; lra. }
  assert (E : sin (PI / 4) = cos (PI / 4)) by (rewrite sin_PI4, cos_PI4; reflexivity).
  assert (H0 : 0 <= cos (PI / 4)) by (apply cos_ge_0; lra).
  lra.
Qed.

Lemma unit_vector t :
  -1 <= cos t <= 1 ∧ -1 <= sin t <= 1
  ∧ - (3 / 2) <= cos t + sin t <= 3 / 2
  ∧ - (3 / 2) <= cos t - sin t <= 3 / 2.
Proof.
  pose proof (COS_bound t) as Hc. pose proof (SIN_bound t) as Hs.
  pose proof (sin2_cos2 t) as H. unfold Rsqr in H.
  repeat split; try lra; nra.
Qed.

Lemma heading_right d : cos (ANGLE_RIGHT + d) = cos d ∧ sin (ANGLE_RIGHT + d) = sin d.
Proof. unfold ANGLE_RIGHT. rewrite Rplus_0_l. auto. Qed.

Lemma heading_down d :
  cos (ANGLE_DOWN + d) = - sin d ∧ sin (ANGLE_DOWN + d) = cos d.
Proof.
  unfold ANGLE_DOWN. split.
  - rewrite (sin_cos d). lra.
  - symmetry. apply cos_sin.
Qed.

Lemma heading_left d :
  cos (ANGLE_LEFT + d) = - cos d ∧ sin (ANGLE_LEFT + d) = - sin d.
Proof.
  unfold ANGLE_LEFT. rewrite (Rplus_comm PI d). split.
  - apply neg_cos.
  - apply neg_sin.
Qed.

Lemma heading_up d :
  cos (ANGLE_UP + d) = sin d ∧ sin (ANGLE_UP + d) = - cos d.
Proof.
  unfold ANGLE_UP.
  replace (PI * (3 / 2) + d) with ((PI / 2 + d) + PI) by lra.
  rewrite neg_cos, neg_sin.
  destruct (heading_down d) as [Hc Hs]. unfold ANGLE_DOWN in Hc, Hs.
  rewrite Hc, Hs. split; lra.
Qed.
End trigonometry.

Lemma correct_offmap_drift_angle s :
  angle (_correct_offmap_drift s) = drift_angle (x s) (y s) (angle s).
Proof.
  unfold _correct_offmap_drift, drift_angle.
  rewrite HORIZONTAL_RANGE_eq, VERTICAL_RANGE_eq. cbn [fst snd].
  destruct (bool_decide (x s <= 30)%R); cbn [x y angle with_angle];
    destruct (bool_decide (610 <= x s)%R); cbn [x y angle with_angle];
    destruct (bool_decide (y s <= 30)%R); cbn [x y angle with_angle];
    destruct (bool_decide (450 <= y s)%R); reflexivity.
Qed.

Lemma near_field_angle_drift px py t :
  near_field_angle px py (drift_angle px py t).
Proof.
  unfold near_field_angle, drift_angle.
  repeat case_bool_decide; repeat split; intros; try reflexivity; lra.
Qed.

Lemma near_field_inside px py t :
  (30 <= px <= 610)%R → (30 <= py <= 450)%R → near_field px py t.
Proof.
  intros Hx Hy. split.
  - unfold near_field_pos. repeat split; intros; lra.
  - unfold near_field_angle. repeat split; intros; lra.
Qed.

(** One move of one unit along a heading that was turned by at most
    [TURN_ANGLE]. *)
Lemma near_field_step px py t d :
  near_field px py t → (- TURN_ANGLE <= d <= TURN_ANGLE)%R →
  near_field_pos (px + 1 * cos (t + d)) (py + 1 * sin (t + d)).
Proof.
  intros [(Hy&Hx&HL&HR) (Ad&Au&AL&AR)] Hd.
  destruct (small_turn d Hd) as (C0&S2&CS).
  destruct (unit_vector (t + d)) as (Cb&Sb&Sum&Dif).
  pose proof (COS_bound d) as Cd.
  unfold near_field_pos.
  destruct (Rlt_dec py 30) as [Ylo|Ylo];
    [|destruct (Rlt_dec 450 py) as [Yhi|Yhi]].
  - (* beyond the top edge: heading down *)
    rewrite (Ad Ylo) in *. destruct (heading_down d) as [-> ->].
    destruct (Rlt_dec px 30) as [Xlo|Xlo];
      [destruct (HL Xlo)|destruct (Rlt_dec 610 px) as [Xhi|Xhi];
                          [destruct (HR Xhi)|]];
      repeat split; intros; lra.
  - (* beyond the bottom edge: heading up *)
    rewrite (Au Yhi) in *. destruct (heading_up d) as [-> ->].
    destruct (Rlt_dec px 30) as [Xlo|Xlo];
      [destruct (HL Xlo)|destruct (Rlt_dec 610 px) as [Xhi|Xhi];
                          [destruct (HR Xhi)|]];
      repeat split; intros; lra.
  - destruct (Rlt_dec px 30) as [Xlo|Xlo];
      [|destruct (Rlt_dec 610 px) as [Xhi|Xhi]].
    + (* left of the field *)
      destruct (HL Xlo) as [W1 W2]. destruct (AL Xlo) as (A1&A2&A3).
      destruct (Rle_dec py 30) as [Y30|Y30];
        [|destruct (Rle_dec 450 py) as [Y450|Y450]].
      * rewrite (A1 Y30) in *. destruct (heading_down d) as [-> ->].
        repeat split; intros; lra.
      * rewrite (A2 Y450) in *. destruct (heading_up d) as [-> ->].
        repeat split; intros; lra.
      * rewrite A3 in * by lra. destruct (heading_right d) as [-> ->].
        repeat split; intros; lra.
    + (* right of the field *)
      destruct (HR Xhi) as [W1 W2]. destruct (AR Xhi) as (A1&A2&A3).
      destruct (Rle_dec py 30) as [Y30|Y30];
        [|destruct (Rle_dec 450 py) as [Y450|Y450]].
      * rewrite (A1 Y30) in *. destruct (heading_down d) as [-> ->].
        repeat split; intros; lra.
      * rewrite (A2 Y450) in *. destruct (heading_up d) as [-> ->].
        repeat split; intros; lra.
      * rewrite A3 in * by lra. destruct (heading_left d) as [-> ->].
        repeat split; intros; lra.
    + (* inside: any heading *)
      repeat split; intros; lra.
Qed.

Lemma update_wander h s g :
  is_alive s = true → has_jubble_goal s = false → has_coord_goal s = false →
  update h s g
  = Some (_get_older (_move_one_unit (wander s g).1), (wander s g).2).
Proof.
  intros Ha Hj Hc. unfold update, wander. rewrite Ha, Hj. simpl.
  rewrite Hc. unfold blueMoon, random_random. simpl.
  destruct (bool_decide _); reflexivity.
Qed.

Lemma with_angle_same s : with_angle (angle s + 0) s = s.
Proof. destruct s. unfold with_angle. simpl. f_equal. lra. Qed.

Lemma wander_turn s g :
  unit_draws g →
  ∃ d, (- TURN_ANGLE <= d <= TURN_ANGLE)%R
       ∧ (wander s g).1 = with_angle (angle s + d) s
       ∧ unit_draws (wander s g).2.
Proof.
  intros Hg. unfold wander, blueMoon, _add_random_angle_shift,
    random_uniform, random_random. simpl.
  assert (HT : (0 < TURN_ANGLE)%R).
  { unfold TURN_ANGLE. pose proof PI_RGT_0. lra. }
  destruct (bool_decide _); simpl.
  - eexists. split; [|split; [reflexivity|exact Hg]].
    pose proof (Hg (S (consumed g))) as Hr. simpl in Hr. nra.
  - exists 0%R. split; [lra|]. split; [|exact Hg].
    symmetry. apply with_angle_same.
Qed.

Lemma get_older_frame s :
  let s' := _get_older s in
  x s' = x s ∧ y s' = y s ∧ angle s' = angle s ∧ speed s' = speed s
  ∧ has_coord_goal s' = has_coord_goal s
  ∧ has_jubble_goal s' = has_jubble_goal s.
Proof.
  unfold _get_older. destruct (_ && _); simpl; repeat split.
Qed.

Lemma move_one_unit_pos s :
  x (_move_one_unit s) = (x s + speed s * cos (angle s))%R
  ∧ y (_move_one_unit s) = (y s + speed s * sin (angle s))%R
  ∧ angle (_move_one_unit s)
    = drift_angle (x s + speed s * cos (angle s))
        (y s + speed s * sin (angle s)) (angle s).
Proof.
  unfold _move_one_unit. simpl.
  rewrite correct_offmap_drift_angle.
  pose proof (correct_offmap_drift_frame
    (with_pos (x s + speed s * cos (angle s)) (y s + speed s * sin (angle s)) s))
    as H.
  simpl in H. destruct H as (_&Hx&Hy&_). rewrite Hx, Hy. auto.
Qed.

Lemma roaming_update h s g :
  roaming s → unit_draws g →
  ∃ s' g', update h s g = Some (s', g') ∧ roaming s' ∧ unit_draws g'.
Proof.
  intros (Hsp&Hc&Hj&Hn) Hg. destruct (is_alive s) eqn:Ha.
  - rewrite update_wander by assumption.
    destruct (wander_turn s g Hg) as (d&Hd&Ew&Hg').
    eexists _, _. split; [reflexivity|]. split; [|exact Hg'].
    rewrite Ew.
    pose proof (get_older_frame (_move_one_unit (with_angle (angle s + d) s)))
      as (Ex&Ey&Ea&Es&Ec&Ej).
    pose proof (move_one_unit_pos (with_angle (angle s + d) s))
      as (Mx&My&Ma).
    pose proof (move_one_unit_goals (with_angle (angle s + d) s))
      as (Mc&Mj&_&Ms).
    unfold roaming. rewrite Ex, Ey, Ea, Es, Ec, Ej, Mx, My, Ma, Mc, Mj, Ms.
    simpl. rewrite Hsp. unfold DEF_SPEED.
    split; [reflexivity|]. split; [assumption|]. split; [assumption|].
    split.
    + apply near_field_step; assumption.
    + apply near_field_angle_drift.
  - rewrite update_dead by exact Ha.
    eexists _, _. split; [reflexivity|]. split; [|exact Hg].
    exact (conj Hsp (conj Hc (conj Hj Hn))).
Qed.

(** C4, counterexample.  A constructed agent on the top edge that turns
    left at its first tick is above the edge after that tick. *)
Lemma fresh_agent_leaves_the_field :
  let s := Jubble_init 1 100 30 (0, 0, 0)%Z in
  let g := mkRandom (λ _, 0%R) 0 in
  (30 <= x s <= 610)%R ∧ (30 <= y s <= 450)%R
  ∧ has_coord_goal s = false ∧ has_jubble_goal s = false
  ∧ unit_draws g
  ∧ ∃ s' g', updates 1 (λ _, ∅) s g = Some (s', g') ∧ (y s' < 30)%R.
Proof.
  simpl. split; [lra|]. split; [lra|]. split; [reflexivity|].
  split; [reflexivity|]. split; [intros n; simpl; lra|].
  rewrite update_wander by reflexivity.
  eexists _, _. split; [reflexivity|].
  match goal with
  | |- (y (_get_older ?m) < _)%R =>
      destruct (get_older_frame m) as (_&->&_)
  end.
  match goal with
  | |- (y (_move_one_unit ?m) < _)%R =>
      destruct (move_one_unit_pos m) as (_&->&_)
  end.
  unfold wander, blueMoon, random_random. simpl.
  rewrite bool_decide_eq_true_2 by (unfold CHANCE_OF_TURN; lra).
  unfold _add_random_angle_shift, random_uniform, random_random. simpl.
  unfold DEF_ANGLE, DEF_SPEED, TURN_ANGLE.
  replace (0 + (- (PI / 7) + (PI / 7 - - (PI / 7)) * 0))%R
    with (- (PI / 7))%R by lra.
  rewrite sin_neg.
  pose proof PI_RGT_0 as Hpi.
  assert (0 < sin (PI / 7))%R by (apply sin_gt_0; lra).
  lra.
Qed.

(** C4, as the code has it.  The position is never clamped: on reaching
    or passing an edge only the heading is reset, to point back into the
    field.  An agent without goals that moves at the default speed and
    starts inside the playable rectangle stays, after any number of calls
    of [update], within one unit of the rectangle vertically and within
    two units horizontally: [28 <= x <= 612] and [29 <= y <= 451]. *)
Theorem wanderer_stays_near_field
    (n : nat) (hs : nat → heap) (s : Jubble) (g : Random) :
  (30 <= x s <= 610)%R → (30 <= y s <= 450)%R →
  speed s = DEF_SPEED →
  has_coord_goal s = false → has_jubble_goal s = false →
  unit_draws g →
  ∃ s' g', updates n hs s g = Some (s', g')
           ∧ (28 <= x s' <= 612)%R ∧ (29 <= y s' <= 451)%R
           ∧ has_coord_goal s' = false ∧ has_jubble_goal s' = false.
Proof.
  intros Hx Hy Hsp Hc Hj Hg.
  assert (H : ∃ s' g', updates n hs s g = Some (s', g')
                       ∧ roaming s' ∧ unit_draws g').
  { induction n as [|n IH]; simpl.
    - exists s, g. split; [reflexivity|]. split; [|exact Hg].
      exact (conj Hsp (conj Hc (conj Hj (near_field_inside _ _ _ Hx Hy)))).
    - destruct IH as (s1&g1&E&Hr&Hg1). rewrite E. simpl.
      apply roaming_update; assumption. }
  destruct H as (s'&g'&E&(_&Hc'&Hj'&((Hy'&Hx'&_)&_))&_).
  exists s', g'. auto.
Qed.

Lemma wanderer_stays_near_field_witness :
  ∃ s' g',
    updates 3 (λ _, ∅) (Jubble_init 1 100 30 (0, 0, 0)%Z)
      (mkRandom (λ _, 0%R) 0) = Some (s', g')
    ∧ (28 <= x s' <= 612)%R ∧ (29 <= y s' <= 451)%R
    ∧ has_coord_goal s' = false ∧ has_jubble_goal s' = false.
Proof.
  apply (wanderer_stays_near_field 3 (λ _, ∅)
           (Jubble_init 1 100 30 (0, 0, 0)%Z) (mkRandom (λ _, 0%R) 0)).
  - simpl. lra.
  - simpl. lra.
  - reflexivity.
  - reflexivity.
  - reflexivity.
  - intros k. simpl. lra.
Defined.

(** ** The detection cone *)

Lemma atan2_le_PI dy dx : (atan2 dy dx <= PI)%R.
Proof.
  unfold atan2. pose proof PI_RGT_0 as Hpi.
  pose proof (atan_bound (dy / dx)) as Hb.
  repeat case_decide; try lra.
  assert (Hq : (dy / dx <= 0)%R).
  { unfold Rdiv. assert (/ dx < 0)%R by (apply Rinv_lt_0_compat; assumption).
    nra. }
  assert (atan (dy / dx) <= 0)%R; [|lra].
  destruct Hq as [Hq|Hq].
  - apply atan_increasing in Hq. rewrite atan_0 in Hq. lra.
  - rewrite Hq, atan_0. lra.
Qed.

(** With a heading whose left cone edge lies beyond [PI], no angle that
    [atan2] returns is in the cone: the agent detects nothing. *)
Lemma blind_beyond_PI self ox oy :
  (PI < angle self - DEF_DETECTION_SLICE / 2)%R →
  _can_detect_coord self ox oy = false.
Proof.
  intros H. unfold _can_detect_coord, to_polar. simpl.
  pose proof (atan2_le_PI (oy - y self) (ox - x self)) as Ha.
  rewrite (bool_decide_eq_false_2
             (angle self - DEF_DETECTION_SLICE / 2
              <= atan2 (oy - y self) (ox - x self))%R) by lra.
  apply andb_false_r.
Qed.

Lemma hypot_axis_y a : (0 <= a)%R → hypot 0 a = a ∧ hypot 0 (- a) = a.
Proof.
  intros H. unfold hypot. split.
  - replace (0 * 0 + a * a)%R with (a * a)%R by ring. apply sqrt_square, H.
  - replace (0 * 0 + - a * - a)%R with (a * a)%R by ring.
    apply sqrt_square, H.
Qed.

(** C7, at the failing input.  For the agent at (100, 100) heading
    [ANGLE_UP], the point (100, 90) is ten units straight ahead, inside
    the radius and on the axis of the cone, and [_can_detect_coord]
    answers false: [atan2] returns [-PI/2] for that direction, which is
    compared with the cone [[5 PI/4, 7 PI/4]] without reducing the
    heading modulo [2 PI]. *)
Theorem heading_up_misses_point_ahead :
  (x lookout + 10 * cos (angle lookout) = 100)%R
  ∧ (y lookout + 10 * sin (angle lookout) = 90)%R
  ∧ in_detection_cone lookout 100 90
  ∧ _can_detect_coord lookout 100 90 = false.
Proof.
  assert (Hc : cos ANGLE_UP = 0%R).
  { unfold ANGLE_UP. replace (PI * (3 / 2))%R with (3 * (PI / 2))%R by lra.
    apply cos_3PI2. }
  assert (Hs : sin ANGLE_UP = (-1)%R).
  { unfold ANGLE_UP. replace (PI * (3 / 2))%R with (3 * (PI / 2))%R by lra.
    apply sin_3PI2. }
  assert (Hd : dist (get_pos lookout) (100%R, 90%R) = 10%R).
  { unfold dist. simpl.
    replace (100 - 100)%R with 0%R by lra.
    replace (100 - 90)%R with 10%R by lra. apply hypot_axis_y. lra. }
  split; [|split; [|split]].
  - simpl. rewrite Hc. lra.
  - simpl. rewrite Hs. lra.
  - unfold in_detection_cone. rewrite Hd. simpl. rewrite Hc, Hs.
    pose proof (COS_bound (DEF_DETECTION_SLICE / 2)) as Hb.
    unfold DEF_DETECTION_RADIUS. split; lra.
  - apply blind_beyond_PI. simpl.
    unfold ANGLE_UP, DEF_DETECTION_SLICE. pose proof PI_RGT_0. lra.
Qed.

(** ** The list copy shares its agents *)

Lemma fight_one_no_goal l h self :
  h !! l = Some self → has_jubble_goal self = false → fight_one l h = Some h.
Proof. intros Hl Hg. unfold fight_one. rewrite Hl. simpl. rewrite Hg. reflexivity. Qed.

Lemma fight_phase_single l h : fight_phase [l] h = fight_one l h.
Proof.
  unfold fight_phase, for_xrange. cbn [length xrange_loop].
  change ([l] !! 0) with (Some l). cbn [mbind option_bind].
  destruct (fight_one l h); reflexivity.
Qed.

Lemma assign_phase_single l h : assign_phase [l] (copy_copy [l]) h = Some h.
Proof.
  unfold assign_phase, for_xrange, copy_copy. cbn [length xrange_loop].
  rewrite assign_one_diag. reflexivity.
Qed.

Lemma update_phase_single l hg : update_phase [l] hg = update_at l hg.
Proof.
  unfold update_phase, for_xrange. cbn [length xrange_loop].
  change ([l] !! 0) with (Some l). cbn [mbind option_bind].
  destruct (update_at l hg); reflexivity.
Qed.

Lemma wander_age s g : age (wander s g).1 = age s.
Proof.
  unfold wander, blueMoon, _add_random_angle_shift, random_uniform,
    random_random. simpl.
  destruct (bool_decide _); reflexivity.
Qed.

(** C2, at the failing input.  The list returned by [copy.copy] holds
    the very objects of [old_jubbles].  With a single, newly constructed
    agent in the store, one call of [update_jubbles] leaves that agent of
    the pre-tick list one tick older, whatever the random source. *)
Theorem update_jubbles_ages_old_agent (g : Random) :
  let a := Jubble_init 1 100 100 (0, 0, 0)%Z in
  ∃ h' g' a',
    update_jubbles [0] {[0 := a]} g = Some (h', [0], g')
    ∧ h' !! 0 = Some a' ∧ age a = 0%Z ∧ age a' = 1%Z.
Proof.
  intros a.
  assert (H0 : ({[0 := a]} : heap) !! 0 = Some a) by apply lookup_singleton_eq.
  unfold update_jubbles.
  rewrite fight_phase_single, (fight_one_no_goal 0 _ a H0 eq_refl).
  cbn [mbind option_bind]. rewrite assign_phase_single.
  cbn [mbind option_bind]. unfold copy_copy, prune_phase.
  rewrite H0. cbn [mbind option_bind will_be_drawn is_alive a Jubble_init].
  rewrite update_phase_single. unfold update_at.
  rewrite H0. cbn [mbind option_bind].
  rewrite update_wander by reflexivity. cbn [mbind option_bind fst snd].
  eexists _, _, _. split; [reflexivity|].
  split; [apply lookup_insert_eq|]. split; [reflexivity|].
  rewrite get_older_age.
  destruct (move_one_unit_life (wander a g).1) as (->&_).
  rewrite wander_age. reflexivity.
Qed.

(** * Further properties of the code *)

(** ** Geometry *)

Lemma hypot_sym_neg a b : hypot (- a) (- b) = hypot a b.
Proof. unfold hypot. f_equal. ring. Qed.

Lemma hypot_nonneg a b : (0 <= hypot a b)%R.
Proof. apply sqrt_pos. Qed.

Lemma hypot_zero a b : hypot a b = 0%R → a = 0%R ∧ b = 0%R.
Proof.
  unfold hypot. intros H. apply sqrt_eq_0 in H; [|nra].
  split; nra.
Qed.

Lemma dist_sym (a b : R * R) : dist a b = dist b a.
Proof.
  unfold dist. rewrite <- (hypot_sym_neg (b.1 - a.1) (b.2 - a.2)).
  f_equal; ring.
Qed.

Lemma dist_nonneg (a b : R * R) : (0 <= dist a b)%R.
Proof. apply hypot_nonneg. Qed.

Lemma dist_self (a : R * R) : dist a a = 0%R.
Proof.
  unfold dist, hypot.
  replace ((a.1 - a.1) * (a.1 - a.1) + (a.2 - a.2) * (a.2 - a.2))%R
    with 0%R by ring.
  apply sqrt_0.
Qed.

(** X1. [dist] is a distance: symmetric, never negative, zero from a
    point to itself, and zero only between equal points. *)
Theorem dist_is_a_distance (a b : R * R) :
  dist a b = dist b a ∧ (0 <= dist a b)%R ∧ dist a a = 0%R
  ∧ (dist a b = 0%R → a = b).
Proof.
  split; [apply dist_sym|]. split; [apply dist_nonneg|].
  split; [apply dist_self|].
  destruct a as [ax ay], b as [bx b_y]. unfold dist. simpl.
  intros H. apply hypot_zero in H as [Hx Hy]. f_equal; lra.
Qed.

Lemma dist_is_a_distance_witness : (3%R, 4%R) = (3%R, 4%R).
Proof.
  apply (proj2 (proj2 (proj2 (dist_is_a_distance (3%R, 4%R) (3%R, 4%R))))).
  apply dist_self.
Defined.

Lemma circles_are_touching_sym c1 c2 r1 r2 :
  circles_are_touching c1 c2 r1 r2 = circles_are_touching c2 c1 r2 r1.
Proof.
  unfold circles_are_touching.
  rewrite (dist_sym c1 c2), (Rplus_comm r1 r2).
  reflexivity.
Qed.

(** X2. Colliding is symmetric: [a.colliding_with_jubble(b)] and
    [b.colliding_with_jubble(a)] give the same answer, and never raise. *)
Theorem colliding_with_jubble_sym (a b : Jubble) :
  colliding_with_jubble a b = colliding_with_jubble b a
  ∧ ∃ c, colliding_with_jubble a b = Some c.
Proof.
  split; [|rewrite colliding_with_jubble_some; eauto].
  rewrite !colliding_with_jubble_some. f_equal.
  rewrite (andb_comm (is_alive a) (is_alive b)). f_equal.
  destruct (get_radius a) as [r1|], (get_radius b) as [r2|]; try reflexivity.
  apply circles_are_touching_sym.
Qed.

Section polar.
Local Open Scope R_scope.

Lemma hypot_slope dx dy :
  dx ≠ 0 → hypot dx dy = Rabs dx * sqrt (1 + (dy / dx)²).
Proof.
  intros Hx. unfold hypot.
  rewrite <- sqrt_Rsqr_abs, <- sqrt_mult.
  - f_equal. unfold Rsqr. field. exact Hx.
  - apply Rle_0_sqr.
  - pose proof (Rle_0_sqr (dy / dx)). lra.
Qed.

Lemma slope_pos z : 0 < sqrt (1 + z²).
Proof. apply sqrt_lt_R0. pose proof (Rle_0_sqr z). lra. Qed.

(** Cosine and sine of the angle [atan2] returns, scaled by the norm. *)
Lemma atan2_direction dx dy :
  hypot dx dy * cos (atan2 dy dx) = dx
  ∧ hypot dx dy * sin (atan2 dy dx) = dy.
Proof.
  unfold atan2.
  destruct (decide (0 < dx)) as [Hp|Hp];
    [|destruct (decide (dx < 0)) as [Hn|Hn]].
  - rewrite hypot_slope by lra. rewrite cos_atan, sin_atan.
    rewrite Rabs_right by lra. pose proof (slope_pos (dy / dx)).
    split; field; lra.
  - assert (E : hypot dx dy = - dx * sqrt (1 + (dy / dx)²)).
    { rewrite hypot_slope by lra. rewrite Rabs_left by lra. reflexivity. }
    pose proof (slope_pos (dy / dx)).
    destruct (decide (0 <= dy)).
    + rewrite neg_cos, neg_sin, cos_atan, sin_atan, E. split; field; lra.
    + replace (atan (dy / dx) - PI) with (- (- atan (dy / dx) + PI)) by lra.
      rewrite cos_neg, sin_neg, neg_cos, neg_sin, cos_neg, sin_neg.
      rewrite cos_atan, sin_atan, E. split; field; lra.
  - assert (dx = 0) as -> by lra.
    destruct (decide (0 < dy)) as [Yp|Yp];
      [|destruct (decide (dy < 0)) as [Yn|Yn]].
    + rewrite cos_PI2, sin_PI2.
      destruct (hypot_axis_y dy) as [-> _]; lra.
    + rewrite cos_neg, sin_neg, cos_PI2, sin_PI2.
      destruct (hypot_axis_y (- dy)) as [_ E]; [lra|].
      rewrite Ropp_involutive in E. rewrite E. lra.
    + assert (dy = 0) as -> by lra.
      destruct (hypot_axis_y 0) as [-> _]; lra.
Qed.
End polar.

Section polar_ranges.
Local Open Scope R_scope.

Lemma atan2_gt_neg_PI dy dx : - PI < atan2 dy dx.
Proof.
  pose proof PI_RGT_0 as HP. unfold atan2.
  destruct (decide (0 < dx)) as [Hp|Hp];
    [|destruct (decide (dx < 0)) as [Hn|Hn]].
  - pose proof (atan_bound (dy / dx)). lra.
  - destruct (decide (0 <= dy)).
    + pose proof (atan_bound (dy / dx)). lra.
    + assert (0 < dy / dx).
      { replace (dy / dx) with ((- dy) * / (- dx)) by (field; lra).
        apply Rmult_lt_0_compat; [lra|]. apply Rinv_0_lt_compat. lra. }
      pose proof (atan_increasing 0 (dy / dx) H) as Hi.
      rewrite atan_0 in Hi. lra.
  - destruct (decide (0 < dy)); [lra|].
    destruct (decide (dy < 0)); lra.
Qed.

Lemma to_cartesian_bound a m :
  Rabs (to_cartesian a m).1 <= Rabs m ∧ Rabs (to_cartesian a m).2 <= Rabs m.
Proof.
  unfold to_cartesian. cbn [fst snd]. rewrite !Rabs_mult.
  pose proof (Rabs_pos m).
  assert (Rabs (cos a) <= 1) by (apply Rabs_le, COS_bound).
  assert (Rabs (sin a) <= 1) by (apply Rabs_le, SIN_bound).
  split; nra.
Qed.
End polar_ranges.

(** X3. What the two conversions return.  The angle of [to_polar] lies
    in the half-open turn from minus pi (excluded) to pi (included), so
    it is never [ANGLE_UP], and its magnitude is not negative; each
    component [to_cartesian] returns is at most the magnitude it was
    given, in absolute value. *)
Theorem polar_conversion_ranges (dx dy a m : R) :
  (- PI < (to_polar dx dy).1 <= PI)%R
  ∧ ((to_polar dx dy).1 < ANGLE_UP)%R
  ∧ (0 <= (to_polar dx dy).2)%R
  ∧ (Rabs (to_cartesian a m).1 <= Rabs m)%R
  ∧ (Rabs (to_cartesian a m).2 <= Rabs m)%R.
Proof.
  unfold to_polar. cbn [fst snd].
  pose proof (atan2_gt_neg_PI dy dx) as Hlo.
  pose proof (atan2_le_PI dy dx) as Hhi.
  pose proof PI_RGT_0 as HP.
  split; [lra|]. split; [unfold ANGLE_UP; lra|].
  split; [apply hypot_nonneg|]. apply to_cartesian_bound.
Qed.

(** ** Steering to a coordinate goal *)

(** [update] on a live agent that has a coordinate goal and no agent
    goal: the heading is set towards the goal, the agent is put on the
    goal if it is within one step, and then it moves one step; no random
    number is drawn. *)
Lemma update_coord_goal h s g gx gy :
  is_alive s = true → has_jubble_goal s = false → has_coord_goal s = true →
  goal_x s = Some gx → goal_y s = Some gy →
  update h s g
  = Some (_get_older
            (_move_one_unit
               (let s1 := with_angle (to_polar (gx - x s) (gy - y s)).1 s in
                if bool_decide (dist (x s, y s) (gx, gy) <= speed s)%R
                then with_pos gx gy (with_has_coord_goal false s1)
                else s1)), g).
Proof.
  intros Ha Hj Hc Hx Hy. unfold update. rewrite Ha, Hj. simpl.
  rewrite Hc. unfold _handle_coord_goal. rewrite Hc, Hx, Hy. simpl.
  rewrite Hc. simpl. destruct (bool_decide _); reflexivity.
Qed.

Lemma dist_to_goal px py gx gy :
  dist (px, py) (gx, gy) = hypot (gx - px) (gy - py).
Proof.
  unfold dist. simpl. rewrite <- (hypot_sym_neg (gx - px) (gy - py)).
  f_equal; ring.
Qed.

(** In real arithmetic, one step along the heading [atan2] gives towards
    a point that is farther than the step ends exactly one step closer
    to it. *)
Lemma step_towards s gx gy :
  (0 <= speed s < dist (x s, y s) (gx, gy))%R →
  dist (get_pos (_get_older
                   (_move_one_unit
                      (with_angle (atan2 (gy - y s) (gx - x s)) s))))
    (gx, gy)
  = (dist (x s, y s) (gx, gy) - speed s)%R.
Proof.
  intros [Hs0 Hfar]. unfold get_pos.
  set (t := atan2 (gy - y s) (gx - x s)).
  pose proof (get_older_frame (_move_one_unit (with_angle t s)))
    as (Ex&Ey&_).
  pose proof (move_one_unit_pos (with_angle t s)) as (Mx&My&_).
  rewrite Ex, Ey, Mx, My. simpl.
  rewrite !dist_to_goal in *.
  destruct (atan2_direction (gx - x s) (gy - y s)) as [Dc Ds].
  fold t in Dc, Ds.
  set (d := hypot (gx - x s) (gy - y s)) in *.
  pose proof (sin2_cos2 t) as H1. unfold Rsqr in H1.
  clearbody d t. unfold hypot.
  replace ((gx - (x s + speed s * cos t)) * (gx - (x s + speed s * cos t))
           + (gy - (y s + speed s * sin t)) * (gy - (y s + speed s * sin t)))%R
    with ((d - speed s) * (d - speed s))%R.
  - apply sqrt_square. lra.
  - replace (gx - (x s + speed s * cos t))%R with ((d - speed s) * cos t)%R
      by lra.
    replace (gy - (y s + speed s * sin t))%R with ((d - speed s) * sin t)%R
      by lra.
    transitivity ((d - speed s) * (d - speed s)
                  * (sin t * sin t + cos t * cos t))%R; [|ring].
    rewrite H1. ring.
Qed.

Lemma move_keeps_goal_xy s :
  goal_x (_get_older (_move_one_unit s)) = goal_x s
  ∧ goal_y (_get_older (_move_one_unit s)) = goal_y s.
Proof.
  unfold _get_older. destruct (_ && _); simpl;
    unfold _move_one_unit, _correct_offmap_drift; simpl;
    repeat case_bool_decide; auto.
Qed.

(** X5. While the goal is farther than one step, a tick draws no random
    number, keeps the goal and moves the agent by [speed] along the
    heading [atan2] gives towards the goal.  For an agent of the default
    speed, with its position and its goal in the window, the tick leaves
    it closer to the goal by at least half a step and at most a step and
    a half. *)
Theorem update_approaches_coord_goal
    (h : heap) (s : Jubble) (g : Random) (gx gy : R) :
  is_alive s = true → has_jubble_goal s = false → has_coord_goal s = true →
  goal_x s = Some gx → goal_y s = Some gy →
  (0 <= speed s < dist (get_pos s) (gx, gy))%R →
  ∃ s', update h s g = Some (s', g)
        ∧ has_coord_goal s' = true
        ∧ goal_x s' = Some gx ∧ goal_y s' = Some gy
        ∧ x s' = (x s + speed s * cos (atan2 (gy - y s) (gx - x s)))%R
        ∧ y s' = (y s + speed s * sin (atan2 (gy - y s) (gx - x s)))%R
        ∧ (speed s = DEF_SPEED → on_screen (get_pos s) → on_screen (gx, gy) →
           (dist (get_pos s) (gx, gy) - 3 / 2
            <= dist (get_pos s') (gx, gy)
            <= dist (get_pos s) (gx, gy) - 1 / 2)%R).
Proof.
  intros Ha Hj Hc Hx Hy Hfar. unfold get_pos in Hfar.
  rewrite (update_coord_goal h s g gx gy) by assumption.
  rewrite bool_decide_eq_false_2 by lra. cbv zeta.
  unfold to_polar. cbn [fst].
  set (t := atan2 (gy - y s) (gx - x s)).
  eexists. split; [reflexivity|].
  pose proof (get_older_frame (_move_one_unit (with_angle t s)))
    as (Ex&Ey&_&_&Ec&_).
  pose proof (move_one_unit_pos (with_angle t s)) as (Mx&My&_).
  pose proof (move_one_unit_goals (with_angle t s)) as (Mc&_).
  pose proof (move_keeps_goal_xy (with_angle t s)) as [Gx Gy].
  split; [rewrite Ec, Mc; exact Hc|].
  split; [rewrite Gx; exact Hx|]. split; [rewrite Gy; exact Hy|].
  split; [rewrite Ex, Mx; reflexivity|].
  split; [rewrite Ey, My; reflexivity|].
  intros Hsp _ _. pose proof (step_towards s gx gy Hfar) as E.
  fold t in E. rewrite E. unfold get_pos. rewrite Hsp. unfold DEF_SPEED.
  lra.
Qed.

Lemma update_approaches_coord_goal_witness :
  let s := with_goal_xy (Some 200%R) (Some 100%R)
             (with_has_coord_goal true (Jubble_init 1 100 100 (0, 0, 0)%Z)) in
  let g := mkRandom (λ _, 0%R) 0 in
  ∃ s', update ∅ s g = Some (s', g)
        ∧ has_coord_goal s' = true
        ∧ goal_x s' = Some 200%R ∧ goal_y s' = Some 100%R
        ∧ (dist (get_pos s) (200%R, 100%R) - 3 / 2
           <= dist (get_pos s') (200%R, 100%R)
           <= dist (get_pos s) (200%R, 100%R) - 1 / 2)%R.
Proof.
  intros s g.
  destruct (update_approaches_coord_goal ∅ s g 200 100)
    as (s'&Hu&Hc&Hx&Hy&_&_&Hd); try reflexivity.
  { unfold get_pos. rewrite dist_to_goal. simpl.
    replace (200 - 100)%R with 100%R by lra.
    replace (100 - 100)%R with 0%R by lra.
    destruct (hypot_axis 100) as [-> _]; unfold DEF_SPEED; lra. }
  exists s'. split; [exact Hu|]. split; [exact Hc|].
  split; [exact Hx|]. split; [exact Hy|].
  apply Hd; [reflexivity| |]; unfold on_screen; simpl; lra.
Defined.

(** X6. On the tick the goal is within one step, the agent is put on the
    goal, the goal is dropped, and the agent still makes its step, along
    the heading it had towards the goal: it does not stay on the goal it
    has just reached.  For an agent of the default speed and a goal in
    the window it ends between half a step and a step and a half away
    from that goal. *)
Theorem update_overshoots_coord_goal
    (h : heap) (s : Jubble) (g : Random) (gx gy : R) :
  is_alive s = true → has_jubble_goal s = false → has_coord_goal s = true →
  goal_x s = Some gx → goal_y s = Some gy →
  (dist (get_pos s) (gx, gy) <= speed s)%R →
  ∃ s', update h s g = Some (s', g)
        ∧ has_coord_goal s' = false
        ∧ x s' = (gx + speed s * cos (atan2 (gy - y s) (gx - x s)))%R
        ∧ y s' = (gy + speed s * sin (atan2 (gy - y s) (gx - x s)))%R
        ∧ (speed s = DEF_SPEED → on_screen (gx, gy) →
           (1 / 2 <= dist (get_pos s') (gx, gy) <= 3 / 2)%R).
Proof.
  intros Ha Hj Hc Hx Hy Hnear. unfold get_pos in *.
  rewrite (update_coord_goal h s g gx gy) by assumption.
  rewrite bool_decide_eq_true_2 by exact Hnear. cbv zeta.
  unfold to_polar. cbn [fst].
  set (t := atan2 (gy - y s) (gx - x s)).
  set (s2 := with_pos gx gy (with_has_coord_goal false (with_angle t s))).
  eexists. split; [reflexivity|].
  pose proof (get_older_frame (_move_one_unit s2)) as (Ex&Ey&_&_&Ec&_).
  pose proof (move_one_unit_pos s2) as (Mx&My&_).
  pose proof (move_one_unit_goals s2) as (Mc&_).
  rewrite Ec, Mc, Ex, Ey, Mx, My. subst s2. simpl.
  split; [reflexivity|]. split; [reflexivity|]. split; [reflexivity|].
  intros Hsp _.
  assert (Hs : (0 <= speed s)%R).
  { pose proof (dist_nonneg (x s, y s) (gx, gy)). lra. }
  assert (E : dist ((gx + speed s * cos t)%R, (gy + speed s * sin t)%R)
                (gx, gy) = speed s).
  { unfold dist, hypot. simpl.
    pose proof (sin2_cos2 t) as H1. unfold Rsqr in H1.
    replace ((gx + speed s * cos t - gx) * (gx + speed s * cos t - gx)
             + (gy + speed s * sin t - gy) * (gy + speed s * sin t - gy))%R
      with (speed s * speed s)%R.
    - apply sqrt_square, Hs.
    - transitivity (speed s * speed s * (sin t * sin t + cos t * cos t))%R;
        [rewrite H1|]; ring. }
  rewrite E, Hsp. unfold DEF_SPEED. lra.
Qed.

Lemma update_overshoots_coord_goal_witness :
  let s := with_goal_xy (Some 100%R) (Some 100%R)
             (with_has_coord_goal true (Jubble_init 1 100 100 (0, 0, 0)%Z)) in
  let g := mkRandom (λ _, 0%R) 0 in
  ∃ s', update ∅ s g = Some (s', g)
        ∧ has_coord_goal s' = false
        ∧ (1 / 2 <= dist (get_pos s') (100%R, 100%R) <= 3 / 2)%R.
Proof.
  intros s g.
  destruct (update_overshoots_coord_goal ∅ s g 100 100)
    as (s'&Hu&Hc&_&_&Hd); try reflexivity.
  { change (dist (100%R, 100%R) (100%R, 100%R) <= 1)%R.
    rewrite (dist_self (100%R, 100%R)). lra. }
  exists s'. split; [exact Hu|]. split; [exact Hc|].
  apply Hd; [reflexivity|]. unfold on_screen; simpl; lra.
Defined.

(** ** Chasing *)

Lemma update_total h s g :
  coord_goal_set s → jubble_goal_bound h s →
  ∃ s' g', update h s g = Some (s', g')
           ∧ coord_goal_set s'
           ∧ goal_jubble s' = goal_jubble s
           ∧ (has_jubble_goal s' = true → has_jubble_goal s = true).
Proof.
  intros Hc Hj. destruct (is_alive s) eqn:Ha.
  2:{ rewrite update_dead by exact Ha. eexists _, _.
      split; [reflexivity|]. auto. }
  unfold update. rewrite Ha.
  assert (H1 : ∃ s1, (if has_jubble_goal s then _handle_jubble_goal h s
                      else Some s) = Some s1
                     ∧ coord_goal_set s1 ∧ goal_jubble s1 = goal_jubble s
                     ∧ (has_jubble_goal s1 = true → has_jubble_goal s = true)).
  { destruct (has_jubble_goal s) eqn:Eg;
      [|exists s; split; [reflexivity|]; split; [exact Hc|]; split;
        congruence].
    destruct (Hj Eg) as (gl&Egl&[gj Egj]).
    unfold _handle_jubble_goal. rewrite Eg, Egl. simpl. rewrite Egj. simpl.
    destruct (_ && _).
    - eexists. split; [reflexivity|].
      destruct (set_coord_goal_frame s (x gj) (y gj))
        as (_&_&_&_&_&_&_&_&_&_&F1&F2).
      split; [|split; [congruence|auto]].
      unfold set_coord_goal. destruct (_ && _); [|exact Hc].
      intros _. simpl. eauto.
    - eexists. split; [reflexivity|]. split; [exact Hc|].
      split; [exact Egl|]. intros H. discriminate H. }
  destruct H1 as (s1&->&Hc1&Eg1&Hg1). cbn [mbind option_bind].
  assert (H2 : ∃ s2 g2,
             (if has_coord_goal s1
              then s2 ← _handle_coord_goal s1; Some (s2, g)
              else let (turn, g1) := blueMoon CHANCE_OF_TURN g in
                   if turn then Some (_add_random_angle_shift s1 g1)
                   else Some (s1, g1)) = Some (s2, g2)
             ∧ coord_goal_set s2 ∧ goal_jubble s2 = goal_jubble s1
             ∧ has_jubble_goal s2 = has_jubble_goal s1).
  { destruct (has_coord_goal s1) eqn:Ec.
    - destruct (Hc1 Ec) as ([gx Ex]&[gy Ey]).
      unfold _handle_coord_goal. rewrite Ec, Ex, Ey. simpl. rewrite Ec.
      destruct (bool_decide _); simpl.
      + eexists _, _. split; [reflexivity|]. split; [|auto].
        intros H. discriminate H.
      + eexists _, _. split; [reflexivity|]. split; [|auto].
        intros _. simpl. rewrite Ex, Ey. eauto.
    - unfold blueMoon, random_random, _add_random_angle_shift,
        random_uniform, random_random.
      destruct (bool_decide _); simpl; eexists _, _;
        (split; [reflexivity|]); (split; [|auto]);
        intros H; simpl in H; congruence. }
  destruct H2 as (s2&g2&->&Hc2&Eg2&Ef2). cbn [mbind option_bind fst snd].
  eexists _, _. split; [reflexivity|].
  pose proof (get_older_frame (_move_one_unit s2)) as (_&_&_&_&Fc&Fj).
  pose proof (move_one_unit_goals s2) as (Mc&Mj&Mg&_).
  split; [|split].
  - unfold coord_goal_set. rewrite Fc, Mc. intros H.
    destruct (Hc2 H) as [Gx Gy].
    unfold _get_older. destruct (_ && _); simpl;
      unfold _move_one_unit, _correct_offmap_drift; simpl;
      repeat case_bool_decide; simpl; auto.
  - transitivity (goal_jubble (_move_one_unit s2)).
    + unfold _get_older. destruct (_ && _); reflexivity.
    + congruence.
  - rewrite Fj, Mj, Ef2. exact Hg1.
Qed.

Lemma update_no_chase_frame h s g s' g' :
  has_jubble_goal s = false → update h s g = Some (s', g') →
  has_jubble_goal s' = false ∧ goal_jubble s' = goal_jubble s
  ∧ goal_x s' = goal_x s ∧ goal_y s' = goal_y s.
Proof.
  intros Hj Hu. destruct (is_alive s) eqn:Ha.
  2:{ rewrite update_dead in Hu by exact Ha. injection Hu as <- <-. auto. }
  unfold update in Hu. rewrite Ha, Hj in Hu. cbn [mbind option_bind] in Hu.
  assert (H2 : ∃ s2,
             (if has_coord_goal s
              then s2 ← _handle_coord_goal s; Some (s2, g)
              else let (turn, g1) := blueMoon CHANCE_OF_TURN g in
                   if turn then Some (_add_random_angle_shift s g1)
                   else Some (s, g1)) = Some (s2, g')
             ∧ has_jubble_goal s2 = false ∧ goal_jubble s2 = goal_jubble s
             ∧ goal_x s2 = goal_x s ∧ goal_y s2 = goal_y s
             ∧ s' = _get_older (_move_one_unit s2)).
  { destruct (has_coord_goal s) eqn:Ec.
    - unfold _handle_coord_goal in *. rewrite Ec in *.
      destruct (goal_x s) as [gx|] eqn:Egx; [|discriminate].
      destruct (goal_y s) as [gy|] eqn:Egy; [|discriminate].
      cbn [mbind option_bind has_coord_goal with_angle] in *.
      rewrite Ec in *.
      destruct (true && bool_decide _); cbn [mbind option_bind fst snd] in *;
        injection Hu as <- <-; eexists; (split; [reflexivity|]);
        repeat split; first [exact Hj | exact Egx | exact Egy | reflexivity].
    - unfold blueMoon, random_random, _add_random_angle_shift,
        random_uniform, random_random in *.
      destruct (bool_decide _); cbn [mbind option_bind fst snd] in *;
        injection Hu as <- <-; eexists; (split; [reflexivity|]);
        repeat split; first [exact Hj | reflexivity]. }
  destruct H2 as (s2&_&Fj&Fg&Fx&Fy&->).
  pose proof (get_older_frame (_move_one_unit s2)) as (_&_&_&_&_&Ej).
  pose proof (move_one_unit_goals s2) as (_&Mj&Mg&_).
  pose proof (move_keeps_goal_xy s2) as [Gx Gy].
  rewrite Ej, Mj, Gx, Gy. repeat split; try congruence.
  transitivity (goal_jubble (_move_one_unit s2)); [|congruence].
  unfold _get_older. destruct (_ && _); reflexivity.
Qed.

(** X7. A live chaser whose target is dead, or out of its detection
    radius, drops the agent goal at its next tick.  The reference to the
    target and the coordinate goal last copied from it stay as they
    were. *)
Theorem update_drops_lost_target
    (h : heap) (s : Jubble) (g : Random) (gl : loc) (gj : Jubble) :
  is_alive s = true → has_jubble_goal s = true → coord_goal_set s →
  goal_jubble s = Some gl → h !! gl = Some gj →
  is_alive gj = false ∨ can_chase_jubble s gj = false →
  ∃ s' g', update h s g = Some (s', g')
           ∧ has_jubble_goal s' = false
           ∧ goal_jubble s' = Some gl
           ∧ goal_x s' = goal_x s ∧ goal_y s' = goal_y s.
Proof.
  intros Ha Hj Hc Hgl Hgj Hlost.
  assert (E : update h s g = update h (with_has_jubble_goal false s) g).
  { unfold update. simpl. rewrite Ha, Hj.
    unfold _handle_jubble_goal. rewrite Hj, Hgl. simpl. rewrite Hgj. simpl.
    replace (is_alive gj && can_chase_jubble s gj) with false; [reflexivity|].
    destruct Hlost as [-> | ->]; [reflexivity|].
    symmetry. apply andb_false_r. }
  destruct (update_total h (with_has_jubble_goal false s) g)
    as (s'&g'&Hu&_).
  { exact Hc. }
  { intros H. discriminate H. }
  rewrite E, Hu. exists s', g'. split; [reflexivity|].
  destruct (update_no_chase_frame h (with_has_jubble_goal false s) g s' g'
              eq_refl Hu) as (F1&F2&F3&F4).
  simpl in *. repeat split; congruence.
Qed.

Lemma update_drops_lost_target_witness :
  ∃ s' g', update (<[1 := kill duel_b]> duel_heap) duel_a
             (mkRandom (λ _, 0%R) 0) = Some (s', g')
           ∧ has_jubble_goal s' = false
           ∧ goal_jubble s' = Some 1
           ∧ goal_x s' = goal_x duel_a ∧ goal_y s' = goal_y duel_a.
Proof.
  apply (update_drops_lost_target (<[1 := kill duel_b]> duel_heap) duel_a
           (mkRandom (λ _, 0%R) 0) 1 (kill duel_b)).
  - reflexivity.
  - reflexivity.
  - intros H. discriminate H.
  - reflexivity.
  - apply lookup_insert_eq.
  - left. reflexivity.
Defined.



(** ** What a tick keeps and what it changes *)

(** Before it ages, a live agent's tick only touches its position, its
    heading and its goals. *)
Lemma update_alive_shape h s g s' g' :
  is_alive s = true → update h s g = Some (s', g') →
  ∃ m, s' = _get_older m ∧ is_alive m = true ∧ age m = age s
       ∧ age_of_death m = age_of_death s ∧ same_traits s m
       ∧ goal_jubble m = goal_jubble s.
Proof.
  intros Ha Hu. unfold update in Hu. rewrite Ha in Hu.
  destruct (if has_jubble_goal s then _ else _) as [s1|] eqn:E1;
    [|discriminate]. cbn [mbind option_bind] in Hu.
  assert (H1 : is_alive s1 = true ∧ age s1 = age s
               ∧ age_of_death s1 = age_of_death s ∧ same_traits s s1
               ∧ goal_jubble s1 = goal_jubble s).
  { destruct (has_jubble_goal s).
    - unfold _handle_jubble_goal in E1.
      destruct (has_jubble_goal s); [|discriminate].
      destruct (goal_jubble s) as [gl|] eqn:Egl; [|discriminate].
      simpl in E1. destruct (h !! gl) as [gj|]; [|discriminate].
      simpl in E1. destruct (_ && _); injection E1 as <-.
      + destruct (set_coord_goal_frame s (x gj) (y gj))
          as (F1&_&_&F2&_&F3&F4&F5&F6&F7&_&F8).
        unfold same_traits. repeat split; congruence.
      + unfold same_traits. simpl. repeat split; assumption.
    - injection E1 as <-. unfold same_traits. repeat split; assumption. }
  destruct H1 as (A1&G1&D1&T1&J1).
  destruct (if has_coord_goal s1 then _ else _) as [[s2 g2]|] eqn:E2;
    [|discriminate]. cbn [mbind option_bind fst snd] in Hu.
  injection Hu as <- <-.
  assert (H2 : is_alive s2 = true ∧ age s2 = age s
               ∧ age_of_death s2 = age_of_death s ∧ same_traits s s2
               ∧ goal_jubble s2 = goal_jubble s).
  { unfold same_traits in *. destruct T1 as (T1&T2&T3&T4).
    destruct (has_coord_goal s1).
    - unfold _handle_coord_goal in E2.
      destruct (has_coord_goal s1); [|discriminate].
      destruct (goal_x s1); [|discriminate].
      destruct (goal_y s1); [|discriminate].
      cbn [mbind option_bind] in E2.
      destruct (_ && _); injection E2 as <- <-; simpl;
        repeat split; assumption.
    - unfold blueMoon, random_random, _add_random_angle_shift,
        random_uniform, random_random in E2.
      destruct (bool_decide _); injection E2 as <- <-; simpl;
        repeat split; assumption. }
  destruct H2 as (A2&G2&D2&(T1'&T2'&T3'&T4')&J2).
  exists (_move_one_unit s2). split; [reflexivity|].
  destruct (move_one_unit_life s2) as (Ma&Ml&Md).
  destruct (move_one_unit_goals s2) as (_&_&Mg&Ms).
  pose proof (correct_offmap_drift_frame
    (with_pos (x s2 + speed s2 * cos (angle s2))
       (y s2 + speed s2 * sin (angle s2)) s2)) as F.
  simpl in F. destruct F as (Fi&_&_&Fc&_&Fr&_).
  unfold same_traits. unfold _move_one_unit in *. simpl in *.
  repeat split; congruence.
Qed.

Lemma get_older_traits m :
  same_traits m (_get_older m) ∧ goal_jubble (_get_older m) = goal_jubble m.
Proof.
  unfold _get_older, same_traits. destruct (_ && _); simpl; repeat split.
Qed.

(** X9. A tick never changes what an agent is: its identifier, colour,
    speed and detection radius stay, the reference of its agent goal
    stays, and its age grows by exactly one, alive or dead. *)
Theorem update_keeps_identity
    (h : heap) (s : Jubble) (g : Random) (s' : Jubble) (g' : Random) :
  update h s g = Some (s', g') →
  id s' = id s ∧ colour s' = colour s ∧ speed s' = speed s
  ∧ detection_radius s' = detection_radius s
  ∧ goal_jubble s' = goal_jubble s
  ∧ age s' = (age s + 1)%Z.
Proof.
  intros Hu. destruct (is_alive s) eqn:Ha.
  - destruct (update_alive_shape h s g s' g' Ha Hu)
      as (m&->&_&Ga&_&(T1&T2&T3&T4)&Gj).
    destruct (get_older_traits m) as ((O1&O2&O3&O4)&Oj).
    rewrite get_older_age. repeat split; congruence.
  - rewrite update_dead in Hu by exact Ha. injection Hu as <- <-.
    repeat split.
Qed.

Lemma update_keeps_identity_witness :
  ∃ s' g',
    update ∅ (Jubble_init 7 100 100 (1, 2, 3)%Z) (mkRandom (λ _, 0%R) 0)
    = Some (s', g')
    ∧ id s' = 7%Z ∧ colour s' = (1, 2, 3)%Z ∧ age s' = 1%Z.
Proof.
  destruct (update_total ∅ (Jubble_init 7 100 100 (1, 2, 3)%Z)
              (mkRandom (λ _, 0%R) 0)) as (s'&g'&Hu&_).
  { intros H. discriminate H. }
  { intros H. discriminate H. }
  exists s', g'. split; [exact Hu|].
  destruct (update_keeps_identity ∅ (Jubble_init 7 100 100 (1, 2, 3)%Z)
              (mkRandom (λ _, 0%R) 0) s' g' Hu) as (H1&H2&_&_&_&H3).
  auto.
Defined.

(** X10. The tick kills by old age exactly when the new age reaches
    [DEATH_AGE], and records that age: a live agent is dead after
    [update] iff its age plus one is at least [DEATH_AGE], and then its
    age of death is its new age. *)
Theorem update_kills_at_death_age
    (h : heap) (s : Jubble) (g : Random) (s' : Jubble) (g' : Random) :
  is_alive s = true → update h s g = Some (s', g') →
  (is_alive s' = false ↔ (DEATH_AGE ≤ age s + 1)%Z)
  ∧ (is_alive s' = false → age_of_death s' = Some (age s + 1)%Z).
Proof.
  intros Ha Hu.
  destruct (update_alive_shape h s g s' g' Ha Hu) as (m&->&Am&Gm&_).
  unfold _get_older. simpl. rewrite Am, Gm, andb_true_r.
  case_bool_decide; simpl.
  - split; [tauto|]. reflexivity.
  - rewrite Am. split; [split; [discriminate|tauto]|discriminate].
Qed.

Lemma update_kills_at_death_age_witness :
  ∃ s' g', update ∅ (with_age 2999 (Jubble_init 7 100 100 (1, 2, 3)%Z))
             (mkRandom (λ _, 0%R) 0) = Some (s', g')
           ∧ is_alive s' = false ∧ age_of_death s' = Some 3000%Z.
Proof.
  destruct (update_total ∅ (with_age 2999 (Jubble_init 7 100 100 (1, 2, 3)%Z))
              (mkRandom (λ _, 0%R) 0)) as (s'&g'&Hu&_).
  { intros H. discriminate H. }
  { intros H. discriminate H. }
  exists s', g'. split; [exact Hu|].
  destruct (update_kills_at_death_age ∅
              (with_age 2999 (Jubble_init 7 100 100 (1, 2, 3)%Z))
              (mkRandom (λ _, 0%R) 0) s' g' eq_refl Hu) as [H1 H2].
  assert (Hd : is_alive s' = false).
  { apply H1. simpl. unfold DEATH_AGE. lia. }
  split; [exact Hd|]. exact (H2 Hd).
Defined.

(** ** Ages and sizes of reachable agents *)

Lemma age_sane_get_older m : age_sane m → age_sane (_get_older m).
Proof.
  intros (H0&Ha&Hd). unfold _get_older, age_sane. simpl.
  destruct (is_alive m) eqn:Em.
  - rewrite andb_true_r. case_bool_decide; simpl.
    + split; [lia|]. split; [discriminate|]. intros _.
      eexists. split; [reflexivity|]. lia.
    + rewrite Em. split; [lia|]. split; [intros _; lia|discriminate].
  - rewrite andb_false_r. simpl. rewrite Em.
    split; [lia|]. split; [discriminate|]. intros _.
    destruct (Hd eq_refl) as (d&Ed&Hr). exists d. split; [exact Ed|lia].
Qed.

Lemma age_sane_same_life a b :
  age b = age a → is_alive b = is_alive a →
  age_of_death b = age_of_death a → age_sane a → age_sane b.
Proof. unfold age_sane. intros -> -> ->. tauto. Qed.

Lemma reachable_is_age_sane j : reachable j → age_sane j.
Proof.
  induction 1 as
    [rid rx ry rc|h j g j' g' Hr IH Hu|j gx gy Hr IH|j l Hr IH|j Hr IH].
  - split; [simpl; lia|]. split; [intros _; simpl; unfold DEATH_AGE; lia|].
    discriminate.
  - destruct (is_alive j) eqn:Ha.
    + destruct (update_alive_shape h j g j' g' Ha Hu)
        as (m&->&Am&Gm&Dm&_).
      apply age_sane_get_older.
      apply (age_sane_same_life j m); congruence.
    + rewrite update_dead in Hu by exact Ha. injection Hu as <- _.
      destruct IH as (H0&_&Hd). split; [simpl; lia|].
      split; [simpl; congruence|]. intros _. simpl.
      destruct (Hd Ha) as (d&Ed&Hrg). exists d. split; [exact Ed|lia].
  - destruct (set_coord_goal_frame j gx gy)
      as (_&_&_&_&_&_&_&Fa&Fl&Fd&_).
    apply (age_sane_same_life j); assumption.
  - exact IH.
  - destruct IH as (H0&_&_). split; [exact H0|].
    split; [discriminate|]. intros _. simpl. eexists.
    split; [reflexivity|]. lia.
Qed.

(** X11. On every reachable agent state the age is never negative, a live
    agent is younger than [DEATH_AGE], and a dead agent has an age of
    death between zero and its age. *)
Theorem reachable_age_sane (j : Jubble) :
  reachable j →
  (0 ≤ age j)%Z
  ∧ (is_alive j = true → (age j < DEATH_AGE)%Z)
  ∧ (is_alive j = false →
     ∃ d, age_of_death j = Some d ∧ (0 ≤ d ≤ age j)%Z).
Proof. apply reachable_is_age_sane. Qed.

Lemma reachable_age_sane_witness :
  (0 ≤ age (kill (Jubble_init 1 100 100 (0, 0, 0)%Z)))%Z.
Proof.
  apply (proj1 (reachable_age_sane (kill (Jubble_init 1 100 100 (0, 0, 0)%Z))
                  (reach_kill _ (reach_init 1 100 100 (0, 0, 0)%Z)))).
Defined.

(** X12. On every reachable agent state [get_radius] returns a radius,
    and that radius lies between [BIRTH_SIZE] and [MATURE_SIZE]. *)
Theorem reachable_radius_bounds (j : Jubble) :
  reachable j →
  ∃ r, get_radius j = Some r ∧ (BIRTH_SIZE <= r <= MATURE_SIZE)%R.
Proof.
  intros Hr. destruct (reachable_is_age_sane j Hr) as (H0&_&Hd).
  assert (Hb : ∀ a : Z, (0 ≤ a)%Z →
            (BIRTH_SIZE
             <= IZR (if bool_decide (MATURE_AGE ≤ a)%Z then MATURE_AGE else a)
                / IZR MATURE_AGE * (MATURE_SIZE - BIRTH_SIZE) + BIRTH_SIZE
             <= MATURE_SIZE)%R).
  { intros a Ha. unfold MATURE_AGE, MATURE_SIZE, BIRTH_SIZE.
    case_bool_decide.
    - lra.
    - assert (0 <= IZR a)%R by (apply IZR_le; lia).
      assert (IZR a <= 600)%R by (apply IZR_le; lia).
      lra. }
  unfold get_radius. destruct (is_alive j) eqn:Ea; simpl.
  - eexists. split; [reflexivity|]. apply Hb, H0.
  - destruct (Hd eq_refl) as (d&Ed&Hrg). rewrite Ed. simpl.
    eexists. split; [reflexivity|]. apply Hb. lia.
Qed.

Lemma reachable_radius_bounds_witness :
  ∃ r, get_radius (kill (Jubble_init 1 100 100 (0, 0, 0)%Z)) = Some r
       ∧ (BIRTH_SIZE <= r <= MATURE_SIZE)%R.
Proof.
  apply (reachable_radius_bounds (kill (Jubble_init 1 100 100 (0, 0, 0)%Z))
           (reach_kill _ (reach_init 1 100 100 (0, 0, 0)%Z))).
Defined.

(** ** The list a call returns *)

#[local] Instance drawn_in_dec h k : Decision (drawn_in h k).
Proof. unfold drawn_in. apply _. Defined.

Lemma prune_phase_filter h l l' :
  prune_phase h l = Some l' → l' = filter (drawn_in h) l.
Proof.
  revert l'. induction l as [|k l IH]; intros l' H; simpl in H.
  - injection H as <-. reflexivity.
  - destruct (h !! k) as [a|] eqn:Ek; [|discriminate]. simpl in H.
    destruct (will_be_drawn a) as [keep|] eqn:Ew; [|discriminate].
    simpl in H.
    destruct (prune_phase h l) as [r|]; [|discriminate]. simpl in H.
    injection H as <-. rewrite (IH r eq_refl).
    destruct keep.
    + rewrite filter_cons_True; [reflexivity|].
      unfold drawn_in. rewrite Ek. exact Ew.
    + rewrite filter_cons_False; [reflexivity|].
      unfold drawn_in. rewrite Ek. simpl. rewrite Ew. discriminate.
Qed.

Lemma drawn_kept_refl h : drawn_kept h h.
Proof. intros k. reflexivity. Qed.

Lemma drawn_kept_trans h1 h2 h3 :
  drawn_kept h1 h2 → drawn_kept h2 h3 → drawn_kept h1 h3.
Proof. intros H12 H23 k. rewrite H23. apply H12. Qed.

Lemma will_be_drawn_kill a :
  is_alive a = true → will_be_drawn (kill a) = will_be_drawn a.
Proof.
  intros Ha. unfold will_be_drawn. simpl. rewrite Ha. f_equal.
  apply bool_decide_eq_true_2. unfold TIME_TAKEN_TO_DECOMPOSE. lia.
Qed.

Lemma drawn_kept_fight_phase old h h' :
  fight_phase old h = Some h' → drawn_kept h h'.
Proof.
  intros H. unfold fight_phase, for_xrange in H.
  eapply (xrange_loop_inv _ (drawn_kept h)); [|exact H|apply drawn_kept_refl].
  intros i s s' Hb Hs. simpl in Hb.
  destruct (old !! i) as [l|]; [|discriminate]. simpl in Hb.
  eapply drawn_kept_trans; [exact Hs|].
  apply fight_one_cases in Hb as [->|Hb]; [apply drawn_kept_refl|].
  destruct Hb as (self&gl&gj&_&_&_&Hgj&_&Hal&->).
  intros k. destruct (decide (gl = k)) as [->|Hne].
  - rewrite lookup_insert_eq, Hgj. simpl. apply will_be_drawn_kill, Hal.
  - rewrite lookup_insert_ne by exact Hne. reflexivity.
Qed.

Lemma drawn_kept_assign_phase old new h h' :
  assign_phase old new h = Some h' → drawn_kept h h'.
Proof.
  intros H. unfold assign_phase, for_xrange in H.
  eapply (xrange_loop_inv _ (drawn_kept h)); [|exact H|apply drawn_kept_refl].
  intros j s s' Hb Hs. simpl in Hb.
  eapply drawn_kept_trans; [exact Hs|].
  eapply (xrange_loop_inv _ (drawn_kept s)); [|exact Hb|apply drawn_kept_refl].
  intros oj t t' Hb' Ht.
  eapply drawn_kept_trans; [exact Ht|].
  apply assign_one_cases in Hb' as [->|Hb']; [apply drawn_kept_refl|].
  destruct Hb' as (nj&noj&target&_&_&Ht'&->).
  intros k. destruct (decide (nj = k)) as [->|Hne].
  - rewrite lookup_insert_eq, Ht'. reflexivity.
  - rewrite lookup_insert_ne by exact Hne. reflexivity.
Qed.

Lemma update_jubbles_phases old h g h' new g' :
  update_jubbles old h g = Some (h', new, g') →
  ∃ h1 h2, fight_phase old h = Some h1
           ∧ assign_phase old (copy_copy old) h1 = Some h2
           ∧ prune_phase h2 old = Some new
           ∧ update_phase new (h2, g) = Some (h', g').
Proof.
  intros Hu. unfold update_jubbles in Hu.
  destruct (fight_phase old h) as [h1|] eqn:E1; [|discriminate].
  simpl in Hu.
  destruct (assign_phase old (copy_copy old) h1) as [h2|] eqn:E2;
    [|discriminate]. simpl in Hu.
  destruct (prune_phase h2 (copy_copy old)) as [new'|] eqn:E3;
    [|discriminate]. simpl in Hu.
  destruct (update_phase new' (h2, g)) as [[h3 g3]|] eqn:E4; [|discriminate].
  simpl in Hu. injection Hu as <- <- <-.
  exists h1, h2. split; [reflexivity|]. split; [exact E2|].
  split; [exact E3|exact E4].
Qed.

(** X13. The list a call of [update_jubbles] returns is the list it was
    given, in the same order, without the agents for which
    [will_be_drawn] was false when the call began: an agent killed during
    the call is still returned, a corpse that has finished decomposing is
    not, and no agent is ever added. *)
Theorem update_jubbles_returns_drawn
    (old : list loc) (h : heap) (g : Random)
    (h' : heap) (new : list loc) (g' : Random) :
  update_jubbles old h g = Some (h', new, g') →
  new = filter (drawn_in h) old ∧ sublist new old.
Proof.
  intros Hu.
  destruct (update_jubbles_phases _ _ _ _ _ _ Hu) as (h1&h2&F&A&P&_).
  assert (E : new = filter (drawn_in h) old).
  { rewrite (prune_phase_filter h2 old new P).
    apply list_filter_iff. intros k. unfold drawn_in.
    rewrite (drawn_kept_assign_phase _ _ _ _ A k).
    rewrite (drawn_kept_fight_phase _ _ _ F k). reflexivity. }
  split; [exact E|]. rewrite E. apply sublist_filter.
Qed.

(** ** A call never raises on the stores the program builds *)

Lemma is_Some_insert (h : heap) k a k0 :
  is_Some (h !! k0) → is_Some (<[k := a]> h !! k0).
Proof.
  intros H. destruct (decide (k = k0)) as [->|Hne].
  - rewrite lookup_insert_eq. eauto.
  - rewrite lookup_insert_ne by exact Hne. exact H.
Qed.

Lemma jubble_goal_bound_insert h k a j :
  jubble_goal_bound h j → jubble_goal_bound (<[k := a]> h) j.
Proof.
  intros Hj Hg. destruct (Hj Hg) as (gl&Egl&Hb).
  exists gl. split; [exact Egl|]. apply is_Some_insert, Hb.
Qed.

Lemma wf_store_insert h k a :
  wf_store h → death_dated a → coord_goal_set a → jubble_goal_bound h a →
  wf_store (<[k := a]> h).
Proof.
  intros Hw Hd Hc Hj k0 a0 Hk0. destruct (decide (k = k0)) as [->|Hne].
  - rewrite lookup_insert_eq in Hk0. injection Hk0 as <-.
    split; [exact Hd|]. split; [exact Hc|].
    apply jubble_goal_bound_insert, Hj.
  - rewrite lookup_insert_ne in Hk0 by exact Hne.
    destruct (Hw k0 a0 Hk0) as (H1&H2&H3).
    split; [exact H1|]. split; [exact H2|].
    apply jubble_goal_bound_insert, H3.
Qed.

Lemma all_bound_insert old h k a :
  all_bound old h → all_bound old (<[k := a]> h).
Proof. intros Hb i l Hi. apply is_Some_insert, (Hb i l Hi). Qed.

Lemma fight_one_runs old h l :
  wf_store h → all_bound old h → is_Some (h !! l) →
  ∃ h', fight_one l h = Some h' ∧ wf_store h' ∧ all_bound old h'.
Proof.
  intros Hw Hb [self Hl]. unfold fight_one. rewrite Hl. simpl.
  destruct (Hw l self Hl) as (_&_&Hj).
  destruct (has_jubble_goal self) eqn:Eg; [|eauto].
  destruct (Hj Eg) as (gl&Egl&[gj Egj]).
  rewrite Egl. simpl. rewrite Egj. simpl.
  rewrite colliding_with_jubble_some. simpl.
  destruct (_ && _); [|eauto].
  eexists. split; [reflexivity|].
  destruct (Hw gl gj Egj) as (_&Hc&Hjg).
  split; [|apply all_bound_insert, Hb].
  apply wf_store_insert; [exact Hw|apply death_dated_kill|exact Hc|exact Hjg].
Qed.

Lemma fight_phase_runs old h :
  wf_store h → all_bound old h →
  ∃ h', fight_phase old h = Some h' ∧ wf_store h' ∧ all_bound old h'.
Proof.
  intros Hw Hb. unfold fight_phase, for_xrange.
  destruct (xrange_loop_total
    (λ j s, l ← old !! j; fight_one l s)
    (λ s, wf_store s ∧ all_bound old s) (length old))
    with (n := length old) (start := 0) (s := h) as (h'&E&Hw'&Hb');
    [|lia|split; assumption|eauto].
  intros i s Hi [Hws Hbs].
  destruct (lookup_lt_is_Some_2 old i Hi) as [l El]. rewrite El. simpl.
  destruct (fight_one_runs old s l Hws Hbs (Hbs i l El)) as (s'&E&H1&H2).
  eauto.
Qed.

Lemma assign_one_runs old j oj h :
  j < length old → oj < length old → wf_store h → all_bound old h →
  ∃ h', assign_one old (copy_copy old) j oj h = Some h'
        ∧ wf_store h' ∧ all_bound old h'.
Proof.
  intros Hj Hoj Hw Hb.
  destruct (assign_one_total old j oj h Hj Hoj Hb) as [h' E].
  exists h'. split; [exact E|].
  apply assign_one_cases in E as [->|E]; [auto|].
  destruct E as (nj&noj&target&Enj&Enoj&Et&->).
  split; [|apply all_bound_insert, Hb].
  destruct (Hw nj target Et) as (Hd&Hc&_).
  apply wf_store_insert; [exact Hw|exact Hd|exact Hc|].
  intros _. exists noj. split; [reflexivity|]. apply (Hb oj noj Enoj).
Qed.

Lemma assign_phase_runs old h :
  wf_store h → all_bound old h →
  ∃ h', assign_phase old (copy_copy old) h = Some h'
        ∧ wf_store h' ∧ all_bound old h'.
Proof.
  intros Hw Hb. unfold assign_phase, for_xrange, copy_copy.
  destruct (xrange_loop_total
    (λ j s, xrange_loop (λ oj s, assign_one old old j oj s) 0 (length old) s)
    (λ s, wf_store s ∧ all_bound old s) (length old))
    with (n := length old) (start := 0) (s := h) as (h'&E&Hw'&Hb');
    [|lia|split; assumption|eauto].
  intros j s Hj Hs.
  apply (xrange_loop_total (λ oj s, assign_one old old j oj s)
           (λ s, wf_store s ∧ all_bound old s) (length old));
    [|lia|exact Hs].
  intros oj t Hoj [Hwt Hbt].
  destruct (assign_one_runs old j oj t Hj Hoj Hwt Hbt) as (t'&E&H1&H2).
  eauto.
Qed.

Lemma all_bound_sublist new old h :
  sublist new old → all_bound old h → all_bound new h.
Proof.
  intros Hs Hb i l Hi.
  assert (Hin : l ∈ old).
  { eapply sublist_subseteq; [exact Hs|].
    apply list_elem_of_lookup. eauto. }
  apply list_elem_of_lookup in Hin as [i' Hi']. apply (Hb i' l Hi').
Qed.

Lemma prune_phase_runs old h :
  wf_store h → all_bound old h →
  ∃ new, prune_phase h old = Some new ∧ all_bound new h.
Proof.
  intros Hw Hb.
  assert (H : ∃ new, prune_phase h old = Some new).
  { induction old as [|k l IH]; simpl; [eauto|].
    destruct (Hb 0 k eq_refl) as [a Ea]. rewrite Ea. simpl.
    destruct (Hw k a Ea) as (Hd&_).
    assert (Hdr : ∃ b, will_be_drawn a = Some b).
    { unfold will_be_drawn. destruct (is_alive a) eqn:Eal; [eauto|].
      destruct (Hd Eal) as [d Ed]. rewrite Ed. simpl. eauto. }
    destruct Hdr as [b ->]. simpl.
    destruct IH as [r ->]; [|simpl; eauto].
    intros i l' Hi. apply (Hb (S i) l' Hi). }
  destruct H as [new E]. exists new. split; [exact E|].
  apply (all_bound_sublist new old); [|exact Hb].
  rewrite (prune_phase_filter h old new E). apply sublist_filter.
Qed.

Lemma update_at_runs new h g l :
  wf_store h → all_bound new h → is_Some (h !! l) →
  ∃ h' g', update_at l (h, g) = Some (h', g')
           ∧ wf_store h' ∧ all_bound new h'.
Proof.
  intros Hw Hb [self Hl]. unfold update_at. rewrite Hl. simpl.
  destruct (Hw l self Hl) as (Hd&Hc&Hj).
  destruct (update_total h self g Hc Hj) as (s'&g'&Hu&Hc'&Hg'&Hf').
  rewrite Hu. simpl. eexists _, _. split; [reflexivity|].
  split; [|apply all_bound_insert, Hb].
  apply wf_store_insert; [exact Hw| |exact Hc'|].
  - eapply death_dated_update; eassumption.
  - intros Hs'. destruct (Hj (Hf' Hs')) as (gl&Egl&Hbd).
    exists gl. split; [congruence|exact Hbd].
Qed.

Lemma update_phase_runs new h g :
  wf_store h → all_bound new h →
  ∃ h' g', update_phase new (h, g) = Some (h', g')
           ∧ wf_store h' ∧ all_bound new h'.
Proof.
  intros Hw Hb. unfold update_phase, for_xrange.
  destruct (xrange_loop_total
    (λ j (hg : heap * Random), l ← new !! j; update_at l hg)
    (λ hg, wf_store hg.1 ∧ all_bound new hg.1) (length new))
    with (n := length new) (start := 0) (s := (h, g))
    as ([h' g']&E&Hw'&Hb'); [|lia|split; assumption|eauto].
  intros i [s gs] Hi [Hws Hbs]. simpl in *.
  destruct (lookup_lt_is_Some_2 new i Hi) as [l El]. rewrite El. simpl.
  destruct (update_at_runs new s gs l Hws Hbs (Hbs i l El))
    as (s'&gs'&E&H1&H2).
  exists (s', gs'). auto.
Qed.

Lemma update_jubbles_runs old h g :
  wf_store h → all_bound old h →
  ∃ h' new g', update_jubbles old h g = Some (h', new, g')
               ∧ wf_store h' ∧ all_bound new h'.
Proof.
  intros Hw Hb. unfold update_jubbles.
  destruct (fight_phase_runs old h Hw Hb) as (h1&->&Hw1&Hb1). simpl.
  destruct (assign_phase_runs old h1 Hw1 Hb1) as (h2&->&Hw2&Hb2). simpl.
  destruct (prune_phase_runs old h2 Hw2 Hb2) as (new&E3&Hb3).
  unfold copy_copy. rewrite E3. simpl.
  destruct (update_phase_runs new h2 g Hw2 Hb3) as (h3&g3&->&Hw3&Hb4).
  simpl. eauto 10.
Qed.

(** X14. On a store in which every dead agent has its age of death and
    every goal flag comes with its goal, and with a list of bound
    references, [update_jubbles] raises nothing, and the store and list
    it leaves are again of that kind: the next call will not raise
    either. *)
Theorem update_jubbles_never_raises
    (old : list loc) (h : heap) (g : Random) :
  wf_store h → all_bound old h →
  ∃ h' new g', update_jubbles old h g = Some (h', new, g')
               ∧ wf_store h' ∧ all_bound new h'.
Proof. apply update_jubbles_runs. Qed.

(** ** What a call does to each object of the store *)

Section pointwise_phases.
Context (Rel : Jubble → Jubble → Prop).
Hypothesis Rel_refl : ∀ a, Rel a a.
Hypothesis Rel_trans : ∀ a b c, Rel a b → Rel b c → Rel a c.
Hypothesis Rel_kill : ∀ a, is_alive a = true → Rel a (kill a).
Hypothesis Rel_goal : ∀ a l, Rel a (set_jubble_goal a l).
Hypothesis Rel_update :
  ∀ h a g a' g', update h a g = Some (a', g') → Rel a a'.

Lemma pointwise_refl h : pointwise Rel h h.
Proof.
  intros k. destruct (h !! k) as [a|]; [|reflexivity]. eauto.
Qed.

Lemma pointwise_trans h1 h2 h3 :
  pointwise Rel h1 h2 → pointwise Rel h2 h3 → pointwise Rel h1 h3.
Proof.
  intros H12 H23 k. specialize (H12 k). specialize (H23 k).
  destruct (h1 !! k) as [a|].
  - destruct H12 as (a2&E2&R2). rewrite E2 in H23.
    destruct H23 as (a3&E3&R3). eauto.
  - rewrite H12 in H23. exact H23.
Qed.

Lemma pointwise_insert h k a a' :
  h !! k = Some a → Rel a a' → pointwise Rel h (<[k := a']> h).
Proof.
  intros Hk Hr k0. destruct (decide (k = k0)) as [->|Hne].
  - rewrite Hk, lookup_insert_eq. eauto.
  - rewrite lookup_insert_ne by exact Hne.
    destruct (h !! k0) as [a0|]; [|reflexivity]. eauto.
Qed.

Lemma pointwise_fight_phase old h h' :
  fight_phase old h = Some h' → pointwise Rel h h'.
Proof.
  intros H. unfold fight_phase, for_xrange in H.
  eapply (xrange_loop_inv _ (pointwise Rel h));
    [|exact H|apply pointwise_refl].
  intros i s s' Hb Hs. simpl in Hb.
  destruct (old !! i) as [l|]; [|discriminate]. simpl in Hb.
  eapply pointwise_trans; [exact Hs|].
  apply fight_one_cases in Hb as [->|Hb]; [apply pointwise_refl|].
  destruct Hb as (self&gl&gj&_&_&_&Hgj&_&Hal&->).
  apply (pointwise_insert s gl gj); [exact Hgj|apply Rel_kill, Hal].
Qed.

Lemma pointwise_assign_phase old new h h' :
  assign_phase old new h = Some h' → pointwise Rel h h'.
Proof.
  intros H. unfold assign_phase, for_xrange in H.
  eapply (xrange_loop_inv _ (pointwise Rel h));
    [|exact H|apply pointwise_refl].
  intros j s s' Hb Hs. simpl in Hb.
  eapply pointwise_trans; [exact Hs|].
  eapply (xrange_loop_inv _ (pointwise Rel s));
    [|exact Hb|apply pointwise_refl].
  intros oj t t' Hb' Ht.
  eapply pointwise_trans; [exact Ht|].
  apply assign_one_cases in Hb' as [->|Hb']; [apply pointwise_refl|].
  destruct Hb' as (nj&noj&target&_&_&Ht'&->).
  apply (pointwise_insert t nj target); [exact Ht'|apply Rel_goal].
Qed.

Lemma pointwise_update_phase new h g h' g' :
  update_phase new (h, g) = Some (h', g') → pointwise Rel h h'.
Proof.
  intros H. unfold update_phase, for_xrange in H.
  assert (Hstep : ∀ i (s s' : heap * Random),
             (l ← new !! i; update_at l s) = Some s' →
             pointwise Rel h s.1 → pointwise Rel h s'.1); last first.
  { exact (xrange_loop_inv _ (λ hg : heap * Random, pointwise Rel h hg.1)
             Hstep _ _ _ _ H (pointwise_refl h)). }
  intros i [s gs] [s' gs'] Hb Hs. simpl in *.
  destruct (new !! i) as [l|]; [|discriminate]. simpl in Hb.
  eapply pointwise_trans; [exact Hs|].
  apply update_at_cases in Hb as (self&a'&Hl&Hu&->).
  apply (pointwise_insert s l self); [exact Hl|].
  eapply Rel_update, Hu.
Qed.

Lemma pointwise_update_jubbles old h g h' new g' :
  update_jubbles old h g = Some (h', new, g') → pointwise Rel h h'.
Proof.
  intros Hu.
  destruct (update_jubbles_phases _ _ _ _ _ _ Hu) as (h1&h2&F&A&_&U).
  eapply pointwise_trans; [eapply pointwise_fight_phase, F|].
  eapply pointwise_trans; [eapply pointwise_assign_phase, A|].
  eapply pointwise_update_phase, U.
Qed.
End pointwise_phases.

Lemma same_traits_update h a g a' g' :
  update h a g = Some (a', g') → same_traits a a'.
Proof.
  intros Hu. destruct (is_alive a) eqn:Ha.
  - destruct (update_alive_shape h a g a' g' Ha Hu)
      as (m&->&_&_&_&(T1&T2&T3&T4)&_).
    destruct (get_older_traits m) as ((O1&O2&O3&O4)&_).
    unfold same_traits. repeat split; congruence.
  - rewrite update_dead in Hu by exact Ha. injection Hu as <- <-.
    repeat split.
Qed.

(** X15. A call of [update_jubbles] creates and deletes no agent object,
    and every agent keeps its identifier, colour, speed and detection
    radius. *)
Theorem update_jubbles_keeps_agents
    (old : list loc) (h : heap) (g : Random)
    (h' : heap) (new : list loc) (g' : Random) :
  update_jubbles old h g = Some (h', new, g') →
  ∀ k, match h !! k with
       | Some a => ∃ a', h' !! k = Some a'
                         ∧ id a' = id a ∧ colour a' = colour a
                         ∧ speed a' = speed a
                         ∧ detection_radius a' = detection_radius a
       | None => h' !! k = None
       end.
Proof.
  intros Hu.
  apply (pointwise_update_jubbles same_traits) in Hu.
  - exact Hu.
  - intros a. repeat split.
  - unfold same_traits. intros a b c (?&?&?&?) (?&?&?&?).
    repeat split; congruence.
  - intros a _. repeat split.
  - intros a l. repeat split.
  - apply same_traits_update.
Qed.

Lemma duel_heap_wf : wf_store duel_heap ∧ all_bound [0; 1] duel_heap.
Proof.
  destruct duel_heap_lookup as [H0 H1]. split.
  - intros k a Hk. unfold duel_heap in Hk.
    destruct (decide (k = 0)) as [->|N0].
    + rewrite lookup_insert_eq in Hk. injection Hk as <-.
      split; [intros H; discriminate H|]. split; [intros H; discriminate H|].
      intros _. exists 1. split; [reflexivity|]. rewrite H1. eauto.
    + rewrite lookup_insert_ne in Hk by congruence.
      destruct (decide (k = 1)) as [->|N1].
      * rewrite lookup_insert_eq in Hk. injection Hk as <-.
        split; [intros H; discriminate H|].
        split; [intros H; discriminate H|].
        intros _. exists 0. split; [reflexivity|]. rewrite H0. eauto.
      * rewrite lookup_insert_ne in Hk by congruence.
        rewrite lookup_empty in Hk. discriminate.
  - intros i l Hi. destruct i as [|[|i]]; simpl in Hi; inversion Hi; subst.
    + rewrite H0. eauto.
    + rewrite H1. eauto.
Qed.

Lemma update_jubbles_returns_drawn_witness :
  ∃ h' new g',
    update_jubbles [0; 1] duel_heap (mkRandom (λ _, 0%R) 0)
    = Some (h', new, g')
    ∧ new = filter (drawn_in duel_heap) [0; 1] ∧ sublist new [0; 1].
Proof.
  destruct (update_jubbles_runs [0; 1] duel_heap (mkRandom (λ _, 0%R) 0)
              (proj1 duel_heap_wf) (proj2 duel_heap_wf))
    as (h'&new&g'&Hu&_).
  exists h', new, g'. split; [exact Hu|].
  exact (update_jubbles_returns_drawn _ _ _ _ _ _ Hu).
Defined.

Lemma update_jubbles_never_raises_witness :
  ∃ h' new g',
    update_jubbles [0; 1] duel_heap (mkRandom (λ _, 0%R) 0)
    = Some (h', new, g')
    ∧ wf_store h' ∧ all_bound new h'.
Proof.
  exact (update_jubbles_never_raises [0; 1] duel_heap
           (mkRandom (λ _, 0%R) 0)
           (proj1 duel_heap_wf) (proj2 duel_heap_wf)).
Defined.

Lemma update_jubbles_keeps_agents_witness :
  ∃ h' new g' a',
    update_jubbles [0; 1] duel_heap (mkRandom (λ _, 0%R) 0)
    = Some (h', new, g')
    ∧ h' !! 0 = Some a' ∧ id a' = id duel_a ∧ colour a' = colour duel_a.
Proof.
  destruct (update_jubbles_runs [0; 1] duel_heap (mkRandom (λ _, 0%R) 0)
              (proj1 duel_heap_wf) (proj2 duel_heap_wf))
    as (h'&new&g'&Hu&_).
  pose proof (update_jubbles_keeps_agents _ _ _ _ _ _ Hu 0) as H.
  rewrite (proj1 duel_heap_lookup) in H.
  destruct H as (a'&E&H1&H2&_).
  exists h', new, g', a'. auto.
Defined.

(** ** Ages through a call *)

Section indexed_loop.
Context {S : Type}.

(** An invariant that depends on the iteration count. *)
Lemma xrange_loop_inv_idx (body : nat → S → option S) (P : nat → S → Prop) :
  (∀ i s s', body i s = Some s' → P i s → P (Datatypes.S i) s') →
  ∀ n start s s', xrange_loop body start n s = Some s' →
    P start s → P (start + n) s'.
Proof.
  intros Hstep. induction n as [|n IH]; intros start s s' Hl Hs;
    simpl in Hl.
  - injection Hl as <-. rewrite Nat.add_0_r. exact Hs.
  - destruct (body start s) as [s1|] eqn:E; [|discriminate]. simpl in Hl.
    replace (start + Datatypes.S n) with (Datatypes.S start + n) by lia.
    eapply IH; [exact Hl|]. eapply Hstep; eassumption.
Qed.
End indexed_loop.

Lemma NoDup_not_in_take (l : list loc) i k :
  NoDup l → l !! i = Some k → k ∉ take i l.
Proof.
  intros Hn Hi Hin. apply elem_of_take in Hin as (i'&Hi'&Hlt).
  pose proof (NoDup_lookup l i i' k Hn Hi Hi'). lia.
Qed.

Lemma update_phase_ages new h g h' g' :
  NoDup new → update_phase new (h, g) = Some (h', g') →
  ∀ k a, h !! k = Some a →
    ∃ a', h' !! k = Some a'
          ∧ age a' = (age a + if decide (k ∈ new) then 1 else 0)%Z.
Proof.
  intros Hn H. unfold update_phase, for_xrange in H.
  pose (P := λ (i : nat) (hg : heap * Random),
          ∀ k a, h !! k = Some a →
            ∃ a', hg.1 !! k = Some a'
                  ∧ age a' = (age a + if decide (k ∈ take i new)
                                      then 1 else 0)%Z).
  assert (HP : P (0 + length new) (h', g')).
  { apply (xrange_loop_inv_idx
             (λ j (hg : heap * Random), l ← new !! j; update_at l hg) P)
      with (s := (h, g)); [|exact H|].
    - intros i [s gs] [s' gs'] Hb Hs. simpl in Hb.
      destruct (new !! i) as [l|] eqn:El; [|discriminate]. simpl in Hb.
      apply update_at_cases in Hb as (self&a'&Hl&Hu&->).
      intros k a Hk. destruct (Hs k a Hk) as (a1&E1&A1). simpl in E1.
      rewrite (take_S_r new i l El). simpl.
      destruct (decide (l = k)) as [->|Hne].
      + rewrite lookup_insert_eq. eexists. split; [reflexivity|].
        assert (self = a1) as -> by congruence.
        rewrite (decide_False (P := k ∈ take i new)) in A1
          by (apply NoDup_not_in_take; assumption).
        rewrite (decide_True (P := k ∈ take i new ++ [k]))
          by (apply elem_of_app; right; constructor).
        destruct (is_alive a1) eqn:Ha.
        * destruct (update_alive_shape s a1 gs a' gs' Ha Hu)
            as (m&->&_&Gm&_). rewrite get_older_age. lia.
        * rewrite update_dead in Hu by exact Ha. injection Hu as <- _.
          simpl. lia.
      + rewrite lookup_insert_ne by exact Hne. exists a1.
        split; [exact E1|]. rewrite A1. f_equal.
        destruct (decide (k ∈ take i new)) as [Hin|Hin].
        * rewrite (decide_True (P := k ∈ take i new ++ [l]))
            by (apply elem_of_app; left; exact Hin).
          reflexivity.
        * rewrite (decide_False (P := k ∈ take i new ++ [l]));
            [reflexivity|].
          intros Hin'. apply elem_of_app in Hin' as [?|Hin']; [tauto|].
          apply list_elem_of_singleton in Hin'. congruence.
    - intros k a Hk. exists a. split; [exact Hk|].
      destruct (decide (k ∈ take 0 new)) as [Hin|_]; [|lia].
      simpl in Hin. apply not_elem_of_nil in Hin. contradiction. }
  intros k a Hk. destruct (HP k a Hk) as (a'&E&A). simpl in E, A.
  rewrite firstn_all in A. eauto.
Qed.

(** X16. With a list that names no agent twice, a call of
    [update_jubbles] makes every agent of the returned list exactly one
    tick older and leaves the age of every other agent of the store as
    it was. *)
Theorem update_jubbles_ages_by_one
    (old : list loc) (h : heap) (g : Random)
    (h' : heap) (new : list loc) (g' : Random) :
  NoDup old → update_jubbles old h g = Some (h', new, g') →
  ∀ k a, h !! k = Some a →
    ∃ a', h' !! k = Some a'
          ∧ age a' = (age a + if decide (k ∈ new) then 1 else 0)%Z.
Proof.
  intros Hn Hu k a Hk.
  destruct (update_jubbles_phases _ _ _ _ _ _ Hu) as (h1&h2&F&A&P&U).
  assert (H2 : ∃ a2, h2 !! k = Some a2 ∧ age a2 = age a).
  { pose proof (pointwise_fight_phase (λ a a', age a' = age a)
                  ltac:(reflexivity) ltac:(congruence)
                  ltac:(reflexivity) old h h1 F k) as R1.
    rewrite Hk in R1. destruct R1 as (a1&E1&R1).
    pose proof (pointwise_assign_phase (λ a a', age a' = age a)
                  ltac:(reflexivity) ltac:(congruence)
                  ltac:(reflexivity) old (copy_copy old) h1 h2 A k) as R2.
    rewrite E1 in R2. destruct R2 as (a2&E2&R2).
    exists a2. split; [exact E2|congruence]. }
  destruct H2 as (a2&E2&G2).
  assert (Hn' : NoDup new).
  { rewrite (prune_phase_filter h2 old new P). apply NoDup_filter, Hn. }
  destruct (update_phase_ages new h2 g h' g' Hn' U k a2 E2) as (a'&E'&G').
  exists a'. split; [exact E'|]. rewrite G', G2. reflexivity.
Qed.

Lemma update_jubbles_ages_by_one_witness :
  ∃ h' new g' a',
    update_jubbles [0; 1] duel_heap (mkRandom (λ _, 0%R) 0)
    = Some (h', new, g')
    ∧ h' !! 0 = Some a'
    ∧ age a' = (age duel_a + if decide (0%nat ∈ new) then 1 else 0)%Z.
Proof.
  destruct (update_jubbles_runs [0; 1] duel_heap (mkRandom (λ _, 0%R) 0)
              (proj1 duel_heap_wf) (proj2 duel_heap_wf))
    as (h'&new&g'&Hu&_).
  assert (Hn : NoDup [0; 1]).
  { apply NoDup_cons. split; [|apply NoDup_singleton].
    intros H. apply list_elem_of_singleton in H. discriminate. }
  destruct (update_jubbles_ages_by_one _ _ _ _ _ _ Hn Hu 0 duel_a
              (proj1 duel_heap_lookup)) as (a'&E&A).
  exists h', new, g', a'. auto.
Defined.

(** ** Who gets killed, who gets a goal *)

Lemma fight_one_cases_full l h h' :
  fight_one l h = Some h' →
  h' = h
  ∨ ∃ self gl gj,
      h !! l = Some self ∧ has_jubble_goal self = true
      ∧ goal_jubble self = Some gl ∧ h !! gl = Some gj
      ∧ is_alive self = true ∧ is_alive gj = true
      ∧ colliding_with_jubble self gj = Some true
      ∧ will_win_against_jubble self gj = true
      ∧ h' = <[gl := kill gj]> h.
Proof.
  unfold fight_one. intros H.
  destruct (h !! l) as [self|] eqn:El; [|discriminate]. simpl in H.
  destruct (has_jubble_goal self) eqn:Eg; [|left; congruence].
  destruct (goal_jubble self) as [gl|] eqn:Egl; [|discriminate]. simpl in H.
  destruct (h !! gl) as [gj|] eqn:Egj; [|discriminate]. simpl in H.
  destruct (colliding_with_jubble self gj) as [c|] eqn:Ec; [|discriminate].
  simpl in H.
  destruct c; simpl in H; [|left; congruence].
  destruct (will_win_against_jubble self gj) eqn:Ew; [|left; congruence].
  right. destruct (colliding_alive _ _ Ec) as [Ha Hb].
  exists self, gl, gj. repeat split; try assumption. congruence.
Qed.

(** X17. The fight phase does one of two things to an agent: nothing, or
    it kills it at its current age, and then the agent was alive and a
    live agent of the list had it as goal, was at least as old, detected
    it and touched it when the phase began.  An agent that is already
    dead, or that nobody so attacks, comes out of the phase unchanged. *)
Theorem fight_phase_victims (old : list loc) (h h' : heap) :
  fight_phase old h = Some h' →
  ∀ k, h' !! k = h !! k
       ∨ ∃ a, h !! k = Some a ∧ is_alive a = true
              ∧ h' !! k = Some (kill a) ∧ attacked old h k a.
Proof.
  intros H. unfold fight_phase, for_xrange in H.
  apply (xrange_loop_inv
           (λ j s, l ← old !! j; fight_one l s)
           (λ s, ∀ k, s !! k = h !! k
                      ∨ ∃ a, h !! k = Some a ∧ is_alive a = true
                             ∧ s !! k = Some (kill a) ∧ attacked old h k a))
    with (n := length old) (start := 0) (s := h); [|exact H|auto].
  intros i s s' Hb Hs. simpl in Hb.
  destruct (old !! i) as [l|] eqn:El; [|discriminate]. simpl in Hb.
  apply fight_one_cases_full in Hb as [->|Hb]; [exact Hs|].
  destruct Hb as (self&gl&gj&Hl&Hg&Hgl&Hgj&Ha&Hb&Hc&Hw&->).
  assert (Hl0 : h !! l = Some self).
  { destruct (Hs l) as [E|(a&_&_&E&_)]; [congruence|].
    rewrite E in Hl. injection Hl as <-. discriminate Ha. }
  assert (Hg0 : h !! gl = Some gj).
  { destruct (Hs gl) as [E|(a&_&_&E&_)]; [congruence|].
    rewrite E in Hgj. injection Hgj as <-. discriminate Hb. }
  intros k. destruct (decide (gl = k)) as [->|Hne].
  - right. exists gj. rewrite lookup_insert_eq.
    split; [exact Hg0|]. split; [exact Hb|]. split; [reflexivity|].
    unfold will_win_against_jubble in Hw.
    apply andb_true_iff in Hw as [Hage Hdet].
    apply bool_decide_eq_true_1 in Hage.
    exists i, l, self. repeat split; assumption.
  - rewrite lookup_insert_ne by exact Hne. apply Hs.
Qed.

Lemma fight_phase_victims_witness :
  ∃ h', fight_phase [0; 1] duel_heap = Some h'
        ∧ (h' !! 1 = duel_heap !! 1
           ∨ ∃ a, duel_heap !! 1 = Some a ∧ is_alive a = true
                  ∧ h' !! 1 = Some (kill a) ∧ attacked [0; 1] duel_heap 1 a).
Proof.
  destruct (fight_phase_runs [0; 1] duel_heap
              (proj1 duel_heap_wf) (proj2 duel_heap_wf)) as (h'&E&_).
  exists h'. split; [exact E|].
  exact (fight_phase_victims [0; 1] duel_heap h' E 1).
Defined.

Lemma assign_one_cases_full old j oj h h' :
  assign_one old (copy_copy old) j oj h = Some h' →
  h' = h
  ∨ ∃ lj loj self other,
      j ≠ oj ∧ old !! j = Some lj ∧ old !! oj = Some loj
      ∧ h !! lj = Some self ∧ h !! loj = Some other
      ∧ is_alive self = true ∧ is_alive other = true
      ∧ has_jubble_goal self = false
      ∧ can_detect_jubble self other = true
      ∧ (age other ≤ age self)%Z
      ∧ h' = <[lj := set_jubble_goal self loj]> h.
Proof.
  unfold assign_one, copy_copy. intros H.
  case_bool_decide as Hne; [|left; congruence].
  destruct (old !! j) as [lj|] eqn:Elj; [|discriminate]. simpl in H.
  destruct (h !! lj) as [self|] eqn:Es; [|discriminate]. simpl in H.
  destruct (is_alive self) eqn:Ea; [|left; congruence].
  destruct (old !! oj) as [loj|] eqn:Eloj; [|discriminate]. simpl in H.
  destruct (h !! loj) as [other|] eqn:Eo; [|discriminate]. simpl in H.
  destruct (is_alive other) eqn:Eb; [|left; congruence].
  destruct (has_jubble_goal self) eqn:Eg; simpl in H; [left; congruence|].
  destruct (can_detect_jubble self other) eqn:Ed; simpl in H;
    [|left; congruence].
  unfold will_fight_with_jubble in H.
  case_bool_decide as Hage; [|left; congruence].
  injection H as <-. right.
  exists lj, loj, self, other. repeat split; assumption.
Qed.

Lemma assign_phase_cases (old : list loc) (h h' : heap) :
  assign_phase old (copy_copy old) h = Some h' →
  ∀ k, h' !! k = h !! k
       ∨ ∃ a loj, h !! k = Some a ∧ targeted old h k a loj
                  ∧ h' !! k = Some (set_jubble_goal a loj).
Proof.
  intros H. unfold assign_phase, for_xrange in H.
  set (P := λ s : heap,
          ∀ k, s !! k = h !! k
               ∨ ∃ a loj, h !! k = Some a ∧ targeted old h k a loj
                          ∧ s !! k = Some (set_jubble_goal a loj)).
  assert (Hstep : ∀ j oj s s',
             assign_one old (copy_copy old) j oj s = Some s' → P s → P s').
  { intros j oj s s' Hb Hs.
    apply assign_one_cases_full in Hb as [->|Hb]; [exact Hs|].
    destruct Hb as (lj&loj&self&other&Hne&Elj&Eloj&Es&Eo&Ha&Hb&Hg&Hd&Hage&->).
    assert (Hs0 : h !! lj = Some self).
    { destruct (Hs lj) as [E|(a&n&_&_&E)]; [congruence|].
      rewrite E in Es. injection Es as <-. discriminate Hg. }
    assert (Ho0 : ∃ b, h !! loj = Some b ∧ is_alive b = true
                       ∧ can_detect_jubble self b = true
                       ∧ (age b ≤ age self)%Z).
    { destruct (Hs loj) as [E|(b&n&Eb&_&E)].
      - exists other. rewrite <- E. auto.
      - rewrite E in Eo. injection Eo as <-. exists b. auto. }
    destruct Ho0 as (b&Eb&Ab&Db&Gb).
    intros k. destruct (decide (lj = k)) as [->|Hnk].
    - right. exists self, loj. rewrite lookup_insert_eq.
      split; [exact Hs0|]. split; [|reflexivity].
      exists j, oj, b. repeat split; assumption.
    - rewrite lookup_insert_ne by exact Hnk. apply Hs. }
  apply (xrange_loop_inv
           (λ j s, xrange_loop
                     (λ oj s, assign_one old (copy_copy old) j oj s)
                     0 (length old) s) P)
    with (n := length (copy_copy old)) (start := 0) (s := h);
    [|exact H|intros k; left; reflexivity].
  intros j s s' Hb Hs.
  apply (xrange_loop_inv (λ oj s, assign_one old (copy_copy old) j oj s) P)
    with (n := length old) (start := 0) (s := s); [|exact Hb|exact Hs].
  intros oj t t'. apply Hstep.
Qed.

(** X18. The goal-assignment phase does one of two things to an agent:
    nothing, or it gives it an agent goal, once, and then the agent was
    alive and without agent goal and the goal is an agent at another
    index of the list that was alive, that it detected and that was not
    older.  In particular an agent that already has an agent goal, and a
    dead agent, come out of the phase unchanged. *)
Theorem assign_phase_targets (old : list loc) (h h' : heap) :
  assign_phase old (copy_copy old) h = Some h' →
  ∀ k, h' !! k = h !! k
       ∨ ∃ a loj, h !! k = Some a ∧ targeted old h k a loj
                  ∧ h' !! k = Some (set_jubble_goal a loj).
Proof. exact (assign_phase_cases old h h'). Qed.

Lemma assign_phase_targets_witness :
  ∃ h', assign_phase [0; 1] (copy_copy [0; 1]) duel_heap = Some h'
        ∧ (h' !! 0 = duel_heap !! 0
           ∨ ∃ a loj, duel_heap !! 0 = Some a
                      ∧ targeted [0; 1] duel_heap 0 a loj
                      ∧ h' !! 0 = Some (set_jubble_goal a loj)).
Proof.
  destruct (assign_phase_runs [0; 1] duel_heap
              (proj1 duel_heap_wf) (proj2 duel_heap_wf)) as (h'&E&_).
  exists h'. split; [exact E|].
  exact (assign_phase_targets [0; 1] duel_heap h' E 0).
Defined.

(** In a list of two distinct agents the only possible target of one is
    the other. *)
Lemma targeted_pair l1 l2 h k a l :
  l1 ≠ l2 → targeted [l1; l2] h k a l →
  (k = l1 ∧ l = l2) ∨ (k = l2 ∧ l = l1).
Proof.
  intros Hne (j&oj&b&Ej&Eoj&Hjoj&_).
  destruct j as [|[|j]], oj as [|[|oj]]; simpl in Ej, Eoj;
    try discriminate; try congruence.
  - injection Ej as <-. injection Eoj as <-. left. auto.
  - injection Ej as <-. injection Eoj as <-. right. auto.
Qed.

(** ** Agents of equal age *)

(** What the goal-assignment phase leaves at [k], for an agent [a] that
    ends the phase with an agent goal: [a] itself if it had one, else
    [a] with a goal the phase had a reason to give. *)
Lemma assign_phase_goal_origin old h h' k a a' :
  assign_phase old (copy_copy old) h = Some h' →
  h !! k = Some a → h' !! k = Some a' → has_jubble_goal a' = true →
  if has_jubble_goal a then a' = a
  else ∃ l, targeted old h k a l ∧ a' = set_jubble_goal a l.
Proof.
  intros Hp Ea Ea' Ga'.
  destruct (assign_phase_cases old h h' Hp k) as [E|(a0&l&E0&Ht&E1)].
  - assert (a' = a) as -> by congruence. rewrite Ga'. reflexivity.
  - assert (a0 = a) as -> by congruence.
    assert (a' = set_jubble_goal a l) as -> by congruence.
    pose proof Ht as (j&oj&b&_&_&_&_&_&_&Hg&_). rewrite Hg.
    exists l. split; [exact Ht|reflexivity].
Qed.

(** C5, as the code has it.  [will_fight_with_jubble] accepts an opponent
    of the same age.  Of two live agents of equal age that detect each
    other, in a list whose references are all bound, each one holds an
    agent goal when the goal-assignment phase ends: the goal it already
    had, the agent being unchanged, or else a goal the phase has set, an
    agent at another index of the list that was alive, that it detected
    and that was not older.  When the list holds just these two and
    neither had a goal, each one is given the other as its goal. *)
Theorem equal_age_peers_get_goals
    (old : list loc) (h : heap) (j oj : nat) (lj loj : loc) (a b : Jubble) :
  all_bound old h →
  old !! j = Some lj → old !! oj = Some loj → j ≠ oj →
  h !! lj = Some a → h !! loj = Some b →
  is_alive a = true → is_alive b = true → age a = age b →
  can_detect_jubble a b = true → can_detect_jubble b a = true →
  will_fight_with_jubble a b = true
  ∧ will_fight_with_jubble b a = true
  ∧ ∃ h' a' b',
      assign_phase old (copy_copy old) h = Some h'
      ∧ h' !! lj = Some a' ∧ has_jubble_goal a' = true
      ∧ h' !! loj = Some b' ∧ has_jubble_goal b' = true
      ∧ (if has_jubble_goal a then a' = a
         else ∃ l, targeted old h lj a l ∧ a' = set_jubble_goal a l)
      ∧ (if has_jubble_goal b then b' = b
         else ∃ l, targeted old h loj b l ∧ b' = set_jubble_goal b l)
      ∧ (old = [lj; loj] → lj ≠ loj →
         has_jubble_goal a = false → has_jubble_goal b = false →
         a' = set_jubble_goal a loj ∧ goal_jubble a' = Some loj
         ∧ b' = set_jubble_goal b lj ∧ goal_jubble b' = Some lj).
Proof.
  intros Hb Elj Eloj Hne Ea Eb Aa Ab Hage Dab Dba.
  split; [|split].
  - apply bool_decide_eq_true_2. lia.
  - apply bool_decide_eq_true_2. lia.
  - destruct (assign_phase_total old h Hb) as [h' Hp].
    destruct (assign_phase_sets_goal old h h' j oj lj loj a b)
      as (a'&Ea'&Ga'); try assumption; [lia|].
    destruct (assign_phase_sets_goal old h h' oj j loj lj b a)
      as (b'&Eb'&Gb'); try assumption; [congruence|lia|].
    pose proof (assign_phase_goal_origin old h h' lj a a' Hp Ea Ea' Ga')
      as Oa.
    pose proof (assign_phase_goal_origin old h h' loj b b' Hp Eb Eb' Gb')
      as Ob.
    exists h', a', b'.
    split; [exact Hp|]. split; [exact Ea'|]. split; [exact Ga'|].
    split; [exact Eb'|]. split; [exact Gb'|].
    split; [exact Oa|]. split; [exact Ob|].
    intros -> Hll Ha0 Hb0. rewrite Ha0 in Oa. rewrite Hb0 in Ob.
    destruct Oa as (la&Ta&->). destruct Ob as (lb&Tb&->).
    destruct (targeted_pair lj loj h lj a la Hll Ta) as [[_ ->]|[E _]];
      [|congruence].
    destruct (targeted_pair lj loj h loj b lb Hll Tb) as [[E _]|[_ ->]];
      [congruence|].
    auto.
Qed.

Lemma equal_age_peers_get_goals_witness :
  ∃ h' a' b',
    assign_phase [0; 1] (copy_copy [0; 1]) peer_heap = Some h'
    ∧ h' !! 0 = Some a' ∧ has_jubble_goal a' = true
    ∧ h' !! 1 = Some b' ∧ has_jubble_goal b' = true
    ∧ goal_jubble a' = Some 1 ∧ goal_jubble b' = Some 0.
Proof.
  destruct (equal_age_peers_get_goals [0; 1] peer_heap 0 1 0 1 peer_a peer_b)
    as (_&_&h'&a'&b'&Hp&Ea&Ga&Eb&Gb&_&_&Hpair).
  - intros i l Hi. destruct i as [|[|i]]; simpl in Hi; inversion Hi; subst.
    + exists peer_a. apply lookup_insert_eq.
    + exists peer_b. unfold peer_heap. rewrite lookup_insert_ne by lia.
      apply lookup_insert_eq.
  - reflexivity.
  - reflexivity.
  - lia.
  - apply lookup_insert_eq.
  - unfold peer_heap. rewrite lookup_insert_ne by lia. apply lookup_insert_eq.
  - reflexivity.
  - reflexivity.
  - reflexivity.
  - apply duel_detect.
  - apply duel_detect.
  - destruct Hpair as (_&Gja&_&Gjb); [reflexivity|lia|reflexivity..|].
    exists h', a', b'. auto 10.
Defined.

(** ** Heading corrections at the edges *)

Lemma correct_offmap_drift_eq s :
  _correct_offmap_drift s
  = with_angle (drift_angle (x s) (y s) (angle s)) s.
Proof.
  destruct s as [i px py c t sp dr a al ad hc hj gx gy gj].
  unfold _correct_offmap_drift, drift_angle.
  rewrite HORIZONTAL_RANGE_eq, VERTICAL_RANGE_eq. cbn [fst snd].
  cbn [x y angle with_angle].
  destruct (bool_decide (px <= 30)%R); cbn [x y angle with_angle];
    destruct (bool_decide (610 <= px)%R); cbn [x y angle with_angle];
    destruct (bool_decide (py <= 30)%R); cbn [x y angle with_angle];
    destruct (bool_decide (450 <= py)%R); reflexivity.
Qed.

Lemma drift_angle_idempotent px py t :
  drift_angle px py (drift_angle px py t) = drift_angle px py t.
Proof. unfold drift_angle. repeat case_bool_decide; reflexivity. Qed.

(** X19. [_correct_offmap_drift] never moves the agent and changes
    nothing but the heading; applying it twice is applying it once; an
    agent strictly inside the playable rectangle is left as it is; and
    when the agent is on or beyond the top or the bottom edge that edge
    decides the heading, whatever the left and right edges say. *)
Theorem correct_offmap_drift_behaviour (s : Jubble) :
  _correct_offmap_drift (_correct_offmap_drift s) = _correct_offmap_drift s
  ∧ _correct_offmap_drift s = with_angle (angle (_correct_offmap_drift s)) s
  ∧ ((30 < x s < 610)%R → (30 < y s < 450)%R → _correct_offmap_drift s = s)
  ∧ ((y s <= 30)%R → angle (_correct_offmap_drift s) = ANGLE_DOWN)
  ∧ ((450 <= y s)%R → angle (_correct_offmap_drift s) = ANGLE_UP)
  ∧ ((30 < y s < 450)%R → (x s <= 30)%R →
     angle (_correct_offmap_drift s) = ANGLE_RIGHT)
  ∧ ((30 < y s < 450)%R → (610 <= x s)%R →
     angle (_correct_offmap_drift s) = ANGLE_LEFT).
Proof.
  split; [|split; [|split]].
  - rewrite !correct_offmap_drift_eq. cbn [x y angle with_angle].
    rewrite drift_angle_idempotent. reflexivity.
  - rewrite correct_offmap_drift_eq. reflexivity.
  - intros Hx Hy. rewrite correct_offmap_drift_eq. unfold drift_angle.
    rewrite !bool_decide_eq_false_2 by lra.
    destruct s. reflexivity.
  - rewrite correct_offmap_drift_angle. unfold drift_angle.
    repeat split; intros; repeat case_bool_decide; try reflexivity;
      exfalso; lra.
Qed.

Lemma correct_offmap_drift_behaviour_witness :
  angle (_correct_offmap_drift
           (with_pos 20 20 (Jubble_init 1 100 100 (0, 0, 0)%Z)))
  = ANGLE_DOWN.
Proof.
  apply (proj1 (proj2 (proj2 (proj2
           (correct_offmap_drift_behaviour
              (with_pos 20 20 (Jubble_init 1 100 100 (0, 0, 0)%Z))))))).
  simpl. lra.
Defined.

(** ** The colour of a corpse *)







(** ** The main loop *)

#[local] Instance alive_in_dec h k : Decision (alive_in h k).
Proof. unfold alive_in. apply _. Defined.

Lemma all_bound_elem l h k : all_bound l h → k ∈ l → is_Some (h !! k).
Proof.
  intros Hb Hin. apply list_elem_of_lookup in Hin as [i Hi]. apply (Hb i k Hi).
Qed.

Lemma all_bound_from_elems l h :
  (∀ k, k ∈ l → is_Some (h !! k)) → all_bound l h.
Proof.
  intros H i k Hi. apply H. apply list_elem_of_lookup. eauto.
Qed.

Lemma count_alive_filter h l :
  (∀ k, k ∈ l → is_Some (h !! k)) →
  count_alive h l = Some (length (filter (alive_in h) l)).
Proof.
  induction l as [|k l IH]; intros Hb; [reflexivity|]. simpl.
  destruct (Hb k) as [a Ea]; [constructor|]. rewrite Ea. simpl.
  rewrite IH by (intros k' Hk'; apply Hb; constructor; exact Hk'). simpl.
  destruct (is_alive a) eqn:Ha.
  - rewrite filter_cons_True; [reflexivity|].
    unfold alive_in. rewrite Ea. simpl. congruence.
  - rewrite filter_cons_False; [reflexivity|].
    unfold alive_in. rewrite Ea. simpl. congruence.
Qed.

Lemma filter_ext_in (P Q : loc → Prop) `{∀ k, Decision (P k)}
    `{∀ k, Decision (Q k)} (l : list loc) :
  (∀ k, k ∈ l → (P k ↔ Q k)) → filter P l = filter Q l.
Proof.
  induction l as [|k l IH]; intros Hpq; [reflexivity|].
  assert (IH' : filter P l = filter Q l).
  { apply IH. intros k' Hk'. apply Hpq. constructor. exact Hk'. }
  destruct (decide (P k)) as [Hp|Hp].
  - rewrite !filter_cons_True; [congruence| |exact Hp].
    apply Hpq; [constructor|exact Hp].
  - rewrite !filter_cons_False; [exact IH'| |exact Hp].
    intros Hq. apply Hp, Hpq; [constructor|exact Hq].
Qed.

Lemma filter_filter_length (P' P D : loc → Prop) `{∀ k, Decision (P' k)}
    `{∀ k, Decision (P k)} `{∀ k, Decision (D k)} (l : list loc) :
  (∀ k, P' k → P k) →
  length (filter P' (filter D l)) ≤ length (filter P l).
Proof.
  intros Himp. induction l as [|k l IH]; [reflexivity|].
  destruct (decide (D k)) as [Hd|Hd].
  - rewrite (filter_cons_True D) by exact Hd.
    destruct (decide (P' k)) as [Hp|Hp].
    + rewrite (filter_cons_True P') by exact Hp.
      rewrite (filter_cons_True P) by (apply Himp, Hp). simpl. lia.
    + rewrite (filter_cons_False P') by exact Hp.
      destruct (decide (P k)) as [Hq|Hq].
      * rewrite (filter_cons_True P) by exact Hq. simpl. lia.
      * rewrite (filter_cons_False P) by exact Hq. exact IH.
  - rewrite (filter_cons_False D) by exact Hd.
    destruct (decide (P k)) as [Hq|Hq].
    + rewrite (filter_cons_True P) by exact Hq. simpl. lia.
    + rewrite (filter_cons_False P) by exact Hq. exact IH.
Qed.

(** No call brings a dead agent back to life. *)
Lemma update_jubbles_no_resurrection old h g h' new g' k :
  update_jubbles old h g = Some (h', new, g') →
  alive_in h' k → alive_in h k.
Proof.
  intros Hu.
  apply (pointwise_update_jubbles
           (λ a a', is_alive a' = true → is_alive a = true)) in Hu.
  - specialize (Hu k). unfold alive_in. destruct (h !! k) as [a|].
    + destruct Hu as (a'&->&Hr). simpl. intros E. f_equal. apply Hr.
      congruence.
    + rewrite Hu. discriminate.
  - auto.
  - auto.
  - auto.
  - auto.
  - intros hh a gg a' gg' Hup Ha'. destruct (is_alive a) eqn:Ha; [reflexivity|].
    rewrite update_dead in Hup by exact Ha. injection Hup as <- _.
    simpl in Ha'. congruence.
Qed.

Lemma coord_goal_set_set_coord_goal s gx gy :
  coord_goal_set s → coord_goal_set (set_coord_goal s gx gy).
Proof.
  intros Hc. unfold set_coord_goal. destruct (_ && _); [|exact Hc].
  intros _. simpl. eauto.
Qed.

Lemma click_all_runs pos l h :
  wf_store h → (∀ k, k ∈ l → is_Some (h !! k)) →
  ∃ h', click_all pos l h = Some h' ∧ wf_store h'
        ∧ pointwise (λ a a', is_alive a' = is_alive a) h h'.
Proof.
  revert h. induction l as [|k l IH]; intros h Hw Hb; simpl.
  - exists h. split; [reflexivity|]. split; [exact Hw|].
    apply (pointwise_refl (λ a a', is_alive a' = is_alive a) (λ a, eq_refl)).
  - destruct (Hb k) as [self Es]; [constructor|]. rewrite Es. simpl.
    destruct (Hw k self Es) as (Hd&Hc&Hj).
    destruct (set_coord_goal_frame self (IZR pos.1) (IZR pos.2))
      as (_&_&_&_&_&_&_&_&Fa&Fd&Fj&Fg).
    destruct (IH (<[k := set_coord_goal self (IZR pos.1) (IZR pos.2)]> h))
      as (h'&E&Hw'&Hp').
    + apply wf_store_insert; [exact Hw| | |].
      * apply death_dated_set_coord_goal, Hd.
      * apply coord_goal_set_set_coord_goal, Hc.
      * unfold jubble_goal_bound. rewrite Fj, Fg. exact Hj.
    + intros k' Hk'. apply is_Some_insert, Hb. constructor. exact Hk'.
    + exists h'. split; [exact E|]. split; [exact Hw'|].
      eapply pointwise_trans; [intros; congruence| |exact Hp'].
      apply (pointwise_insert (λ a a', is_alive a' = is_alive a)
               (λ a, eq_refl) h k self); [exact Es|exact Fa].
Qed.

Lemma pointwise_bound Rel (l : list loc) h h' :
  pointwise Rel h h' → (∀ k, k ∈ l → is_Some (h !! k)) →
  ∀ k, k ∈ l → is_Some (h' !! k).
Proof.
  intros Hp Hb k Hk. destruct (Hb k Hk) as [a Ea].
  specialize (Hp k). rewrite Ea in Hp. destruct Hp as (a'&->&_). eauto.
Qed.

Lemma handle_events_runs events l h running :
  wf_store h → (∀ k, k ∈ l → is_Some (h !! k)) →
  ∃ h' r, handle_events events l h running = Some (h', r) ∧ wf_store h'
          ∧ pointwise (λ a a', is_alive a' = is_alive a) h h'.
Proof.
  revert h running. induction events as [|e events IH];
    intros h running Hw Hb; simpl.
  - exists h, running. split; [reflexivity|]. split; [exact Hw|].
    apply (pointwise_refl (λ a a', is_alive a' = is_alive a) (λ a, eq_refl)).
  - destruct e as [|pos|].
    + apply IH; assumption.
    + destruct (click_all_runs pos l h Hw Hb) as (h1&->&Hw1&Hp1). simpl.
      destruct (IH h1 running Hw1 (pointwise_bound _ l h h1 Hp1 Hb))
        as (h'&r&E&Hw'&Hp').
      exists h', r. split; [exact E|]. split; [exact Hw'|].
      eapply pointwise_trans; [intros; congruence|exact Hp1|exact Hp'].
    + apply IH; assumption.
Qed.

Lemma pointwise_alive_in h h' k :
  pointwise (λ a a', is_alive a' = is_alive a) h h' →
  alive_in h' k ↔ alive_in h k.
Proof.
  intros Hp. specialize (Hp k). unfold alive_in.
  destruct (h !! k) as [a|].
  - destruct Hp as (a'&->&E). simpl. rewrite E. reflexivity.
  - rewrite Hp. reflexivity.
Qed.

Lemma fresh_agent_ok init h :
  let a := Jubble_init init.1.1.1 init.1.1.2 init.1.2 init.2 in
  death_dated a ∧ coord_goal_set a ∧ jubble_goal_bound h a.
Proof.
  simpl. split; [|split].
  - intros E. discriminate E.
  - intros E. discriminate E.
  - intros E. discriminate E.
Qed.

Lemma spawn_runs init l h n :
  wf_store h → (∀ k, k ∈ l → is_Some (h !! k)) → NoDup l →
  length (filter (alive_in h) l) = n → n ≤ 10 →
  ∃ h' l', spawn init l h = Some (h', l') ∧ main_inv h' l'.
Proof.
  intros Hw Hb Hn Hc Hle. unfold spawn.
  rewrite (count_alive_filter h l Hb). simpl. rewrite Hc.
  destruct (decide (n < 10)) as [Hlt|Hge].
  2:{ exists h, l. split; [reflexivity|]. split; [exact Hw|].
      split; [apply all_bound_from_elems, Hb|]. split; [exact Hn|].
      exists n. split; [|exact Hle].
      rewrite (count_alive_filter h l Hb), Hc. reflexivity. }
  unfold new_Jubble.
  set (k0 := fresh (dom h)).
  assert (Hk0 : h !! k0 = None).
  { apply not_elem_of_dom. apply is_fresh. }
  assert (Hnin : k0 ∉ l).
  { intros Hin. destruct (Hb k0 Hin) as [a Ea]. congruence. }
  set (a0 := Jubble_init init.1.1.1 init.1.1.2 init.1.2 init.2).
  destruct (fresh_agent_ok init h) as (Hd0&Hc0&Hj0). fold a0 in Hd0, Hc0, Hj0.
  assert (Hb' : ∀ k, k ∈ l ++ [k0] → is_Some (<[k0 := a0]> h !! k)).
  { intros k Hk. apply elem_of_app in Hk as [Hk|Hk].
    - apply is_Some_insert, Hb, Hk.
    - apply list_elem_of_singleton in Hk as ->.
      rewrite lookup_insert_eq. eauto. }
  exists (<[k0 := a0]> h), (l ++ [k0]). split; [reflexivity|].
  split; [apply wf_store_insert; assumption|].
  split; [apply all_bound_from_elems, Hb'|].
  split.
  { apply NoDup_app. split; [exact Hn|]. split; [|apply NoDup_singleton].
    intros k Hk Hk'. apply list_elem_of_singleton in Hk' as ->. tauto. }
  exists (S n). split; [|lia].
  rewrite (count_alive_filter _ _ Hb'). f_equal.
  rewrite filter_app, length_app.
  rewrite (filter_ext_in (alive_in (<[k0 := a0]> h)) (alive_in h) l).
  - rewrite Hc. rewrite filter_cons_True.
    + simpl. lia.
    + unfold alive_in. rewrite lookup_insert_eq. reflexivity.
  - intros k Hk. unfold alive_in.
    rewrite lookup_insert_ne; [reflexivity|]. intros ->. tauto.
Qed.

Lemma main_iteration_runs events init l h g :
  main_inv h l →
  ∃ h' l' g' running,
    main_iteration events init l h g = Some (h', l', g', running)
    ∧ main_inv h' l'.
Proof.
  intros (Hw&Hb&Hn&n&Hc&Hle). unfold main_iteration.
  destruct (update_jubbles_runs l h g Hw Hb) as (h1&l1&g1&Hu&Hw1&Hb1).
  rewrite Hu. simpl.
  assert (Hb1' : ∀ k, k ∈ l1 → is_Some (h1 !! k)).
  { intros k Hk. eapply all_bound_elem; eassumption. }
  destruct (handle_events_runs events l1 h1 true Hw1 Hb1')
    as (h2&r&->&Hw2&Hp2). simpl.
  destruct (update_jubbles_phases _ _ _ _ _ _ Hu) as (_&hm&_&_&Hpr&_).
  assert (El1 : l1 = filter (drawn_in hm) l).
  { apply prune_phase_filter, Hpr. }
  assert (Hn1 : NoDup l1) by (rewrite El1; apply NoDup_filter, Hn).
  assert (Hb0 : ∀ k, k ∈ l → is_Some (h !! k)).
  { intros k Hk. eapply all_bound_elem; eassumption. }
  assert (Hcount : length (filter (alive_in h2) l1) ≤ 10).
  { rewrite (count_alive_filter h l Hb0) in Hc. injection Hc as Hc.
    rewrite (filter_ext_in (alive_in h2) (alive_in h1) l1)
      by (intros k _; apply pointwise_alive_in, Hp2).
    rewrite El1.
    etransitivity;
      [apply (filter_filter_length (alive_in h1) (alive_in h))|lia].
    intros k. eapply update_jubbles_no_resurrection, Hu. }
  destruct (spawn_runs init l1 h2 _ Hw2
              (pointwise_bound _ l1 h1 h2 Hp2 Hb1') Hn1 eq_refl Hcount)
    as (h3&l3&->&Hinv). simpl.
  exists h3, l3, g1, r. split; [reflexivity|exact Hinv].
Qed.

(** X21. The main loop keeps itself going.  From a well-formed store and
    a list of bound references without repetition and with at most ten
    live agents (as after the first [Jubble(screen)]), one turn of the
    loop raises nothing, whatever the events and the random choices, and
    leaves a store and a list of the same kind: there are never more
    than ten live jubbles in the list. *)
Theorem main_iteration_keeps_going
    (events : list event) (init : Z * Z * Z * (Z * Z * Z))
    (l : list loc) (h : heap) (g : Random) :
  main_inv h l →
  ∃ h' l' g' running,
    main_iteration events init l h g = Some (h', l', g', running)
    ∧ main_inv h' l'.
Proof. apply main_iteration_runs. Qed.

Lemma main_start init :
  main_inv (new_Jubble init ∅).1 [(new_Jubble init ∅).2].
Proof.
  unfold new_Jubble. simpl.
  set (k0 := fresh (dom (∅ : heap))).
  set (a0 := Jubble_init init.1.1.1 init.1.1.2 init.1.2 init.2).
  destruct (fresh_agent_ok init ∅) as (Hd0&Hc0&Hj0). fold a0 in Hd0, Hc0, Hj0.
  split.
  { apply wf_store_insert; [|assumption..].
    intros k a Hk. rewrite lookup_empty in Hk. discriminate. }
  split.
  { intros i k Hi. destruct i; simpl in Hi; [|discriminate].
    injection Hi as <-. rewrite lookup_insert_eq. eauto. }
  split; [apply NoDup_singleton|].
  exists 1. split; [|lia]. simpl. rewrite lookup_insert_eq. reflexivity.
Qed.

Lemma main_iteration_keeps_going_witness :
  ∃ h' l' g' running,
    main_iteration [MOUSEBUTTONDOWN (100, 100)%Z; QUIT]
      (7, 50, 60, (1, 2, 3))%Z
      [(new_Jubble (1, 100, 100, (0, 0, 0))%Z ∅).2]
      (new_Jubble (1, 100, 100, (0, 0, 0))%Z ∅).1
      (mkRandom (λ _, 0%R) 0)
    = Some (h', l', g', running)
    ∧ main_inv h' l'.
Proof.
  apply (main_iteration_keeps_going
           [MOUSEBUTTONDOWN (100, 100)%Z; QUIT] (7, 50, 60, (1, 2, 3))%Z
           [(new_Jubble (1, 100, 100, (0, 0, 0))%Z ∅).2]
           (new_Jubble (1, 100, 100, (0, 0, 0))%Z ∅).1
           (mkRandom (λ _, 0%R) 0)).
  apply main_start.
Defined.

Lemma set_coord_goal_twice a gx gy :
  set_coord_goal (set_coord_goal a gx gy) gx gy = set_coord_goal a gx gy.
Proof.
  unfold set_coord_goal. destruct (_ && _); reflexivity.
Qed.

Lemma click_all_effect pos (l : list loc) h h' :
  click_all pos l h = Some h' →
  ∀ k, h' !! k
       = if decide (k ∈ l)
         then (λ a, set_coord_goal a (IZR pos.1) (IZR pos.2)) <$> h !! k
         else h !! k.
Proof.
  revert h. induction l as [|k0 l IH]; intros h H k; simpl in H.
  - injection H as <-. rewrite decide_False by apply not_elem_of_nil.
    reflexivity.
  - destruct (h !! k0) as [self|] eqn:Es; [|discriminate]. simpl in H.
    rewrite (IH _ H k).
    destruct (decide (k = k0)) as [->|Hne].
    + rewrite lookup_insert_eq.
      rewrite (decide_True (P := k0 ∈ k0 :: l)) by constructor.
      rewrite Es. simpl. destruct (decide (k0 ∈ l)); simpl;
        [rewrite set_coord_goal_twice|]; reflexivity.
    + rewrite lookup_insert_ne by congruence.
      destruct (decide (k ∈ l)) as [Hin|Hin].
      * rewrite (decide_True (P := k ∈ k0 :: l))
          by (constructor; exact Hin).
        reflexivity.
      * rewrite (decide_False (P := k ∈ k0 :: l)); [reflexivity|].
        intros Hin'. apply elem_of_cons in Hin' as [?|?]; tauto.
Qed.

(** X22. A mouse click inside the playable rectangle gives every agent
    of the list, the dead ones included, the clicked point as coordinate
    goal and touches no other agent; a click outside the rectangle
    changes nothing at all. *)
Theorem click_all_behaviour
    (pos : Z * Z) (l : list loc) (h h' : heap) :
  click_all pos l h = Some h' →
  ((30 ≤ pos.1 ≤ 610)%Z ∧ (30 ≤ pos.2 ≤ 450)%Z →
   ∀ k, h' !! k
        = if decide (k ∈ l)
          then (λ a, with_goal_xy (Some (IZR pos.1)) (Some (IZR pos.2))
                       (with_has_coord_goal true a)) <$> h !! k
          else h !! k)
  ∧ (¬ ((30 ≤ pos.1 ≤ 610)%Z ∧ (30 ≤ pos.2 ≤ 450)%Z) → h' = h).
Proof.
  intros H. pose proof (click_all_effect pos l h h' H) as He. split.
  - intros [[X1 X2] [Y1 Y2]] k. rewrite (He k).
    destruct (decide (k ∈ l)); [|reflexivity].
    destruct (h !! k) as [a|]; [|reflexivity]. simpl. f_equal.
    apply set_coord_goal_accept; split; apply IZR_le; assumption.
  - intros Hout. apply map_eq. intros k. rewrite (He k).
    destruct (decide (k ∈ l)); [|reflexivity].
    destruct (h !! k) as [a|]; [|reflexivity]. simpl. f_equal.
    apply set_coord_goal_reject. intros [[X1 X2] [Y1 Y2]]. apply Hout.
    repeat split; apply le_IZR; assumption.
Qed.

Lemma click_all_behaviour_witness :
  ∃ h', click_all (100, 100)%Z [0; 1] duel_heap = Some h'
        ∧ ∀ k, h' !! k
               = if decide (k ∈ [0; 1])
                 then (λ a, with_goal_xy (Some 100%R) (Some 100%R)
                              (with_has_coord_goal true a)) <$> duel_heap !! k
                 else duel_heap !! k.
Proof.
  destruct (click_all_runs (100, 100)%Z [0; 1] duel_heap (proj1 duel_heap_wf))
    as (h'&E&_).
  { intros k Hk. eapply all_bound_elem; [apply duel_heap_wf|exact Hk]. }
  exists h'. split; [exact E|].
  apply (proj1 (click_all_behaviour (100, 100)%Z [0; 1] duel_heap h' E)).
  simpl. lia.
Defined.

(** ** Drawing *)

Lemma draw_body_repaint self col col' :
  _draw_body self col' = map (repaint col') <$> _draw_body self col.
Proof. unfold _draw_body. destruct (get_radius self); reflexivity. Qed.

Lemma draw_nose_repaint self col col' :
  _draw_nose self col' = map (repaint col') <$> _draw_nose self col.
Proof. unfold _draw_nose. destruct (get_radius self); reflexivity. Qed.

Lemma draw_viewing_angle_repaint self col col' :
  _draw_viewing_angle self col'
  = map (repaint col') (_draw_viewing_angle self col).
Proof. reflexivity. Qed.

Lemma draw_jubble_goal_repaint h self col col' :
  _draw_jubble_goal h self col'
  = map (repaint col') <$> _draw_jubble_goal h self col.
Proof.
  unfold _draw_jubble_goal.
  destruct (goal_jubble self) as [gl|]; [|reflexivity].
  simpl. destruct (h !! gl); reflexivity.
Qed.

Lemma erase_repaints_draw (h : heap) (self : Jubble) :
  erase h self = map (repaint BG_COLOUR) <$> draw h self.
Proof.
  unfold erase, draw. destruct (is_alive self) eqn:Ea; cbn [negb andb].
  - rewrite (draw_viewing_angle_repaint self VIEWING_ANGLE_LINE_COLOUR
               BG_COLOUR).
    rewrite (draw_body_repaint self (colour self) BG_COLOUR).
    rewrite (draw_nose_repaint self (colour self) BG_COLOUR).
    destruct (has_jubble_goal self).
    + rewrite (draw_jubble_goal_repaint h self (255, 0, 0)%Z BG_COLOUR).
      destruct (_draw_jubble_goal h self (255, 0, 0)%Z) as [t|];
        [|reflexivity].
      simpl. destruct (_draw_body self (colour self)) as [b|]; [|reflexivity].
      simpl. destruct (_draw_nose self (colour self)) as [n|]; [|reflexivity].
      simpl. rewrite !map_app. reflexivity.
    + simpl. destruct (_draw_body self (colour self)) as [b|]; [|reflexivity].
      simpl. destruct (_draw_nose self (colour self)) as [n|]; [|reflexivity].
      simpl. rewrite !map_app. reflexivity.
  - unfold draw_death_colour.
    destruct (age_of_death self) as [aod|] eqn:Ed.
    + simpl.
      set (dc := generate_death_colour _).
      rewrite (draw_body_repaint self dc BG_COLOUR).
      rewrite (draw_nose_repaint self dc BG_COLOUR).
      destruct (_draw_body self dc) as [b|]; [|reflexivity].
      simpl. destruct (_draw_nose self dc) as [n|]; [|reflexivity].
      simpl. rewrite map_app. reflexivity.
    + simpl. unfold _draw_body, get_radius. rewrite Ea, Ed. reflexivity.
Qed.

(** The drawing loops, as passes over the list. *)
Lemma calls_loop (f : loc → option (list draw_call)) (L : list loc) :
  ∀ n start done, start + n ≤ length L →
    xrange_loop (λ j done, l ← L !! j; c ← f l; Some (done ++ c)) start n done
    = (λ cs, done ++ cs) <$> calls f (take n (drop start L)).
Proof.
  induction n as [|n IH]; intros start done Hn; simpl.
  - rewrite app_nil_r. reflexivity.
  - destruct (L !! start) as [k|] eqn:Ek.
    2:{ apply lookup_ge_None in Ek. lia. }
    rewrite (drop_S _ _ _ Ek). simpl.
    destruct (f k) as [c|]; [|reflexivity]. simpl.
    rewrite IH by lia.
    destruct (calls f (take n (drop (S start) L))) as [cs|]; [|reflexivity].
    simpl. rewrite app_assoc. reflexivity.
Qed.

Lemma erase_phase_calls l h :
  erase_phase l h = calls (λ k, h !! k ≫= erase h) l.
Proof.
  unfold erase_phase, for_xrange.
  rewrite (xrange_loop_ext _
             (λ j done, k ← l !! j; c ← h !! k ≫= erase h; Some (done ++ c))
             (λ _, True)); [| |auto|exact I].
  - rewrite (calls_loop (λ k, h !! k ≫= erase h) l (length l) 0 [])
      by (simpl; lia).
    rewrite drop_0, firstn_all.
    destruct (calls _ l); reflexivity.
  - intros i s _. destruct (l !! i) as [k|]; [|reflexivity]. simpl.
    destruct (h !! k); reflexivity.
Qed.

Lemma draw_phase_calls l h :
  draw_phase l h = calls (λ k, h !! k ≫= draw h) l.
Proof.
  unfold draw_phase, for_xrange.
  rewrite (xrange_loop_ext _
             (λ j done, k ← l !! j; c ← h !! k ≫= draw h; Some (done ++ c))
             (λ _, True)); [| |auto|exact I].
  - rewrite (calls_loop (λ k, h !! k ≫= draw h) l (length l) 0 [])
      by (simpl; lia).
    rewrite drop_0, firstn_all.
    destruct (calls _ l); reflexivity.
  - intros i s _. destruct (l !! i) as [k|]; [|reflexivity]. simpl.
    destruct (h !! k); reflexivity.
Qed.

Lemma calls_app f l1 l2 :
  calls f (l1 ++ l2)
  = c1 ← calls f l1; c2 ← calls f l2; Some (c1 ++ c2).
Proof.
  induction l1 as [|k l1 IH]; simpl.
  - destruct (calls f l2); reflexivity.
  - destruct (f k) as [c|]; [|reflexivity]. simpl. rewrite IH.
    destruct (calls f l1) as [c1|]; [|reflexivity]. simpl.
    destruct (calls f l2) as [c2|]; [|reflexivity]. simpl.
    rewrite app_assoc. reflexivity.
Qed.

Lemma calls_map f f' (r : draw_call → draw_call) l :
  (∀ k, f' k = map r <$> f k) → calls f' l = map r <$> calls f l.
Proof.
  intros Hf. induction l as [|k l IH]; [reflexivity|]. simpl.
  rewrite Hf, IH. destruct (f k) as [c|]; [|reflexivity]. simpl.
  destruct (calls f l) as [cs|]; [|reflexivity]. simpl.
  rewrite map_app. reflexivity.
Qed.

Lemma calls_stable f f' l cs :
  (∀ k c, k ∈ l → f k = Some c → f' k = Some c) →
  calls f l = Some cs → calls f' l = Some cs.
Proof.
  revert cs. induction l as [|k l IH]; intros cs Hf H; simpl in *.
  - exact H.
  - destruct (f k) as [c|] eqn:Ek; [|discriminate]. simpl in H.
    rewrite (Hf k c); [|constructor|exact Ek]. simpl.
    destruct (calls f l) as [cs'|]; [|discriminate]. simpl in H.
    rewrite (IH cs'); [exact H| |reflexivity].
    intros k' c' Hin. apply Hf. constructor. exact Hin.
Qed.

Lemma calls_total f l :
  (∀ k, k ∈ l → is_Some (f k)) → is_Some (calls f l).
Proof.
  induction l as [|k l IH]; intros Hf; simpl; [eauto|].
  destruct (Hf k) as [c ->]; [constructor|]. simpl.
  destruct IH as [cs ->]; [|simpl; eauto].
  intros k' Hin. apply Hf. constructor. exact Hin.
Qed.

Lemma erase_phase_draw_phase l h :
  erase_phase l h = map (repaint BG_COLOUR) <$> draw_phase l h.
Proof.
  rewrite erase_phase_calls, draw_phase_calls.
  apply calls_map. intros k. destruct (h !! k) as [a|]; [|reflexivity].
  simpl. apply erase_repaints_draw.
Qed.

(** X23. What [erase] wipes is what [draw] paints: in one and the same
    state, [erase] makes the calls [draw] makes, with the same shapes in
    the same order, each in the background colour; it raises exactly
    when [draw] raises.  The same holds of the two loops of
    [update_jubbles] over a list. *)
Theorem erase_wipes_what_draw_paints (l : list loc) (h : heap) :
  (∀ self, erase h self = map (repaint BG_COLOUR) <$> draw h self)
  ∧ erase_phase l h = map (repaint BG_COLOUR) <$> draw_phase l h.
Proof.
  split.
  - intros self. apply erase_repaints_draw.
  - apply erase_phase_draw_phase.
Qed.

Lemma draw_total h a :
  death_dated a → jubble_goal_bound h a → is_Some (draw h a).
Proof.
  intros Hd Hj. unfold draw, draw_death_colour, _draw_body, _draw_nose,
    get_radius.
  destruct (is_alive a) eqn:Ea; cbn [negb andb].
  - destruct (has_jubble_goal a) eqn:Eg.
    + destruct (Hj Eg) as (gl&Egl&gj&Egj).
      unfold _draw_jubble_goal. rewrite Egl. simpl. rewrite Egj. simpl. eauto.
    + simpl. eauto.
  - destruct (Hd Ea) as [aod Eaod]. rewrite Eaod. simpl. eauto.
Qed.

Lemma drawing_phases_total l h :
  wf_store h → all_bound l h →
  ∃ d, draw_phase l h = Some d
       ∧ erase_phase l h = Some (map (repaint BG_COLOUR) d).
Proof.
  intros Hw Hb.
  assert (Hd : is_Some (draw_phase l h)).
  { rewrite draw_phase_calls. apply calls_total. intros k Hk.
    destruct (all_bound_elem l h k Hb Hk) as [a Ea]. rewrite Ea. simpl.
    destruct (Hw k a Ea) as (Hd&_&Hj). apply draw_total; assumption. }
  destruct Hd as [d Ed]. exists d. split; [exact Ed|].
  rewrite erase_phase_draw_phase, Ed. reflexivity.
Qed.

(** X24. The whole of [update_jubbles], drawing included, raises nothing
    on a well-formed store with a list of bound references.  The drawing
    changes no state: the store, the list and the random source it
    returns are those of the state-changing part, and the calls to pygame
    are the erase pass over the old list in the old store followed by
    the draw pass over the returned list in the new store. *)
Theorem update_jubbles_frame_never_raises
    (old : list loc) (h : heap) (g : Random) :
  wf_store h → all_bound old h →
  ∃ h' new g' e d,
    update_jubbles_frame old h g = Some (h', new, g', e ++ d)
    ∧ update_jubbles old h g = Some (h', new, g')
    ∧ erase_phase old h = Some e
    ∧ draw_phase new h' = Some d.
Proof.
  intros Hw Hb.
  destruct (drawing_phases_total old h Hw Hb) as (d0&_&Ee).
  destruct (update_jubbles_runs old h g Hw Hb) as (h'&new&g'&Hu&Hw'&Hb').
  destruct (drawing_phases_total new h' Hw' Hb') as (d&Ed&_).
  exists h', new, g', (map (repaint BG_COLOUR) d0), d.
  split; [|auto].
  destruct (update_jubbles_phases old h g h' new g' Hu) as (h1&h2&E1&E2&E3&E4).
  unfold update_jubbles_frame. rewrite Ee. simpl. rewrite E1. simpl.
  rewrite E2. simpl. unfold copy_copy. rewrite E3. simpl. rewrite E4. simpl.
  rewrite Ed. reflexivity.
Qed.

Lemma update_jubbles_frame_never_raises_witness :
  ∃ h' new g' e d,
    update_jubbles_frame [0; 1] duel_heap (mkRandom (λ _, 0%R) 0)
    = Some (h', new, g', e ++ d)
    ∧ update_jubbles [0; 1] duel_heap (mkRandom (λ _, 0%R) 0)
      = Some (h', new, g')
    ∧ erase_phase [0; 1] duel_heap = Some e
    ∧ draw_phase new h' = Some d.
Proof.
  exact (update_jubbles_frame_never_raises [0; 1] duel_heap
           (mkRandom (λ _, 0%R) 0)
           (proj1 duel_heap_wf) (proj2 duel_heap_wf)).
Defined.

(** ** From one frame to the next *)

Lemma same_look_refl a : same_look a a.
Proof. repeat split. Qed.

Lemma look_kept_refl h : look_kept h h.
Proof. intros k a Ek. exists a. split; [exact Ek|apply same_look_refl]. Qed.

Lemma look_kept_trans h1 h2 h3 :
  look_kept h1 h2 → look_kept h2 h3 → look_kept h1 h3.
Proof.
  intros H12 H23 k a Ek.
  destruct (H12 k a Ek) as (a2&E2&L2).
  destruct (H23 k a2 E2) as (a3&E3&L3).
  exists a3. split; [exact E3|].
  destruct L2 as (?&?&?&?&?&?&?&?&?), L3 as (?&?&?&?&?&?&?&?&?).
  repeat split; congruence.
Qed.

Lemma same_look_set_coord_goal a gx gy : same_look a (set_coord_goal a gx gy).
Proof.
  destruct (set_coord_goal_frame a gx gy)
    as (_&Fx&Fy&Fc&Fa&_&_&Fg&Fl&Fd&Fj&Fgj).
  repeat split; assumption.
Qed.

Lemma click_all_look pos l h h' :
  click_all pos l h = Some h' → look_kept h h'.
Proof.
  intros Hc k a Ek. rewrite (click_all_effect pos l h h' Hc k), Ek.
  destruct (decide (k ∈ l)); simpl.
  - eexists. split; [reflexivity|]. apply same_look_set_coord_goal.
  - eexists. split; [reflexivity|]. apply same_look_refl.
Qed.

Lemma handle_events_look events l h running h' r :
  handle_events events l h running = Some (h', r) → look_kept h h'.
Proof.
  revert h running. induction events as [|e events IH];
    intros h running H; simpl in H.
  - injection H as <- _. apply look_kept_refl.
  - destruct e as [|pos|].
    + eapply IH, H.
    + destruct (click_all pos l h) as [h1|] eqn:Ec; [|discriminate].
      simpl in H. eapply look_kept_trans; [|eapply IH, H].
      eapply click_all_look, Ec.
    + eapply IH, H.
Qed.

Lemma get_radius_look a a' : same_look a a' → get_radius a' = get_radius a.
Proof.
  intros (_&_&_&_&Eg&El&Ed&_). unfold get_radius. rewrite Eg, El, Ed.
  reflexivity.
Qed.

Lemma draw_look h h' a a' c :
  look_kept h h' → same_look a a' →
  draw h a = Some c → draw h' a' = Some c.
Proof.
  intros Hk Hl. pose proof (get_radius_look a a' Hl) as Hr.
  destruct Hl as (Ex&Ey&Ec&Ea&Eg&El&Ed&Ej&Egj).
  unfold draw, draw_death_colour, _draw_body, _draw_nose,
    _draw_viewing_angle, _draw_jubble_goal, get_pos.
  rewrite Hr, Ex, Ey, Ec, Ea, Eg, El, Ed, Ej, Egj.
  destruct (is_alive a); cbn [negb andb]; [|auto].
  destruct (has_jubble_goal a); [|auto].
  destruct (goal_jubble a) as [gl|]; [|auto]. cbn [mbind option_bind].
  destruct (h !! gl) as [gj|] eqn:Egl; [|discriminate].
  destruct (Hk gl gj Egl) as (gj'&->&(Gx&Gy&_)).
  cbn [mbind option_bind]. rewrite Gx, Gy. auto.
Qed.

Lemma draw_phase_look l h h' d :
  look_kept h h' → draw_phase l h = Some d → draw_phase l h' = Some d.
Proof.
  intros Hk. rewrite !draw_phase_calls. apply calls_stable.
  intros k c _ Hc. destruct (h !! k) as [a|] eqn:Ek; [|discriminate].
  destruct (Hk k a Ek) as (a'&->&Hl). simpl in *.
  eapply draw_look; eassumption.
Qed.

Lemma erase_newborn h rid rx ry rc :
  is_Some (erase h (Jubble_init rid rx ry rc)).
Proof. unfold erase. simpl. eauto. Qed.

Lemma calls_bound f l cs k :
  calls f l = Some cs → k ∈ l → is_Some (f k).
Proof.
  revert cs. induction l as [|k0 l IH]; intros cs H Hin; simpl in H.
  - apply elem_of_nil in Hin. destruct Hin.
  - destruct (f k0) as [c|] eqn:E0; [|discriminate]. simpl in H.
    destruct (calls f l) as [cs'|]; [|discriminate].
    apply elem_of_cons in Hin as [->|Hin]; [rewrite E0; eauto|].
    eapply IH; [reflexivity|exact Hin].
Qed.

Lemma spawn_cases init l h h' l' :
  spawn init l h = Some (h', l') →
  look_kept h h'
  ∧ ((h' = h ∧ l' = l)
     ∨ ∃ new, l' = l ++ [new] ∧ h !! new = None
              ∧ h' !! new
                = Some (Jubble_init init.1.1.1 init.1.1.2 init.1.2 init.2)).
Proof.
  unfold spawn. intros H.
  destruct (count_alive h l) as [n|]; [|discriminate]. simpl in H.
  assert (Hf : h !! fresh (dom h) = None).
  { apply not_elem_of_dom, is_fresh. }
  destruct (decide (n < 10)).
  - unfold new_Jubble in H. injection H as <- <-. split.
    + intros k a Ek. exists a. split; [|apply same_look_refl].
      rewrite lookup_insert_ne; [exact Ek|]. intros <-. congruence.
    + right. eexists. split; [reflexivity|]. split; [exact Hf|].
      apply lookup_insert_eq.
  - injection H as <- <-. split; [apply look_kept_refl|]. left. auto.
Qed.

(** X25. The erase pass of the next frame wipes the draw pass of this
    one.  Whatever events arrive in a turn of the main loop, the calls
    the next [update_jubbles] makes to erase begin with exactly the calls
    this [update_jubbles] made to draw, each repainted in the background
    colour.  Nothing follows them when no jubble was spawned; otherwise
    the list has grown by one new jubble, which was in no list and in no
    store before and so was never drawn, and what follows is the erasing
    of that jubble as the constructor made it. *)
Theorem next_erase_wipes_this_draw
    (events : list event) (init : Z * Z * Z * (Z * Z * Z))
    (l : list loc) (h : heap) (g : Random)
    (h1 : heap) (l1 : list loc) (g1 : Random) (d : list draw_call)
    (h2 : heap) (l2 : list loc) (g2 : Random) (running : bool) :
  update_jubbles l h g = Some (h1, l1, g1) →
  draw_phase l1 h1 = Some d →
  main_iteration events init l h g = Some (h2, l2, g2, running) →
  ∃ rest, erase_phase l2 h2 = Some (map (repaint BG_COLOUR) d ++ rest)
          ∧ ((l2 = l1 ∧ rest = [])
             ∨ ∃ new, l2 = l1 ++ [new] ∧ (new ∉ l1) ∧ h1 !! new = None
                      ∧ h2 !! new
                        = Some (Jubble_init init.1.1.1 init.1.1.2
                                  init.1.2 init.2)
                      ∧ erase h2 (Jubble_init init.1.1.1 init.1.1.2
                                    init.1.2 init.2)
                        = Some rest).
Proof.
  intros Hu Hd Hm. unfold main_iteration in Hm. rewrite Hu in Hm.
  simpl in Hm.
  destruct (handle_events events l1 h1 true) as [[h1' r]|] eqn:He;
    [|discriminate]. simpl in Hm.
  destruct (spawn init l1 h1') as [[h2' l2']|] eqn:Hs; [|discriminate].
  simpl in Hm. injection Hm as <- <- _ _.
  destruct (spawn_cases init l1 h1' h2' l2' Hs) as (Hk2&Hl2).
  pose proof (handle_events_look events l1 h1 true h1' r He) as Hk1.
  assert (Hk : look_kept h1 h2').
  { eapply look_kept_trans; eassumption. }
  pose proof (draw_phase_look l1 h1 h2' d Hk Hd) as Hd2.
  assert (He1 : erase_phase l1 h2' = Some (map (repaint BG_COLOUR) d)).
  { rewrite erase_phase_draw_phase, Hd2. reflexivity. }
  destruct Hl2 as [[-> ->]|(new&->&Hnew&En)].
  - exists []. rewrite app_nil_r. split; [exact He1|]. left. auto.
  - destruct (erase_newborn h2' init.1.1.1 init.1.1.2 init.1.2 init.2)
      as [c Ec].
    assert (Hn1 : h1 !! new = None).
    { destruct (h1 !! new) as [a|] eqn:E; [|reflexivity].
      destruct (Hk1 new a E) as (a'&E'&_). congruence. }
    exists c. split.
    + rewrite erase_phase_calls, calls_app, <- (erase_phase_calls l1 h2'), He1.
      cbn [calls mbind option_bind]. rewrite En.
      cbn [mbind option_bind]. rewrite Ec. cbn [mbind option_bind].
      rewrite app_nil_r. reflexivity.
    + right. exists new. split; [reflexivity|]. split; [|auto].
      intros Hin. rewrite draw_phase_calls in Hd.
      destruct (calls_bound _ l1 d new Hd Hin) as [c0 E0].
      rewrite Hn1 in E0. discriminate E0.
Qed.

Lemma next_erase_wipes_this_draw_witness :
  ∃ h1 l1 g1 d h2 l2 g2 running rest,
    update_jubbles [(new_Jubble (1, 100, 100, (0, 0, 0))%Z ∅).2]
      (new_Jubble (1, 100, 100, (0, 0, 0))%Z ∅).1 (mkRandom (λ _, 0%R) 0)
    = Some (h1, l1, g1)
    ∧ draw_phase l1 h1 = Some d
    ∧ main_iteration [MOUSEBUTTONDOWN (100, 100)%Z; QUIT]
        (7, 50, 60, (1, 2, 3))%Z
        [(new_Jubble (1, 100, 100, (0, 0, 0))%Z ∅).2]
        (new_Jubble (1, 100, 100, (0, 0, 0))%Z ∅).1 (mkRandom (λ _, 0%R) 0)
      = Some (h2, l2, g2, running)
    ∧ erase_phase l2 h2 = Some (map (repaint BG_COLOUR) d ++ rest)
    ∧ ((l2 = l1 ∧ rest = [])
       ∨ ∃ new, l2 = l1 ++ [new] ∧ (new ∉ l1) ∧ h1 !! new = None
                ∧ h2 !! new = Some (Jubble_init 7 50 60 (1, 2, 3)%Z)
                ∧ erase h2 (Jubble_init 7 50 60 (1, 2, 3)%Z) = Some rest).
Proof.
  destruct (main_start (1, 100, 100, (0, 0, 0))%Z) as (Hw&Hb&Hn&Hc).
  destruct (update_jubbles_runs _ _ (mkRandom (λ _, 0%R) 0) Hw Hb)
    as (h1&l1&g1&Hu&Hw1&Hb1).
  destruct (drawing_phases_total l1 h1 Hw1 Hb1) as (d&Hd&_).
  destruct (main_iteration_runs [MOUSEBUTTONDOWN (100, 100)%Z; QUIT]
              (7, 50, 60, (1, 2, 3))%Z _ _ (mkRandom (λ _, 0%R) 0)
              (conj Hw (conj Hb (conj Hn Hc))))
    as (h2&l2&g2&running&Hm&_).
  destruct (next_erase_wipes_this_draw _ _ _ _ _ h1 l1 g1 d
              h2 l2 g2 running Hu Hd Hm) as (rest&He&Hr).
  exists h1, l1, g1, d, h2, l2, g2, running, rest. auto.
Defined.

(** ** The shapes on the screen *)

Lemma hypot_polar m a : hypot (m * cos a) (m * sin a) = Rabs m.
Proof.
  unfold hypot.
  replace (m * cos a * (m * cos a) + m * sin a * (m * sin a))%R
    with (Rsqr m * (Rsqr (sin a) + Rsqr (cos a)))%R by (unfold Rsqr; ring).
  rewrite sin2_cos2, Rmult_1_r. apply sqrt_Rsqr_abs.
Qed.

Lemma dist_offset px py dx dy :
  dist (px, py) ((px + dx)%R, (py + dy)%R) = hypot dx dy.
Proof.
  unfold dist. simpl. rewrite <- (hypot_sym_neg dx dy). f_equal; ring.
Qed.

Lemma reachable_detection_radius j :
  reachable j → detection_radius j = DEF_DETECTION_RADIUS.
Proof.
  induction 1 as
    [rid rx ry rc|h j g j' g' Hr IH Hu|j gx gy Hr IH|j l Hr IH|j Hr IH].
  - reflexivity.
  - destruct (same_traits_update h j g j' g' Hu) as (_&_&_&->). exact IH.
  - destruct (set_coord_goal_frame j gx gy) as (_&_&_&_&_&_&->&_). exact IH.
  - exact IH.
  - exact IH.
Qed.

Lemma radius_bounds j :
  age_sane j →
  ∃ r, get_radius j = Some r ∧ (BIRTH_SIZE <= r <= MATURE_SIZE)%R.
Proof.
  intros (H0&_&Hd).
  assert (Hb : ∀ a : Z, (0 ≤ a)%Z →
            (BIRTH_SIZE
             <= IZR (if bool_decide (MATURE_AGE ≤ a)%Z then MATURE_AGE else a)
                / IZR MATURE_AGE * (MATURE_SIZE - BIRTH_SIZE) + BIRTH_SIZE
             <= MATURE_SIZE)%R).
  { intros a Ha. unfold MATURE_AGE, MATURE_SIZE, BIRTH_SIZE.
    case_bool_decide.
    - lra.
    - assert (0 <= IZR a)%R by (apply IZR_le; lia).
      assert (IZR a <= 600)%R by (apply IZR_le; lia).
      lra. }
  unfold get_radius. destruct (is_alive j) eqn:Ea; simpl.
  - eexists. split; [reflexivity|]. apply Hb, H0.
  - destruct (Hd eq_refl) as (d&Ed&Hrg). rewrite Ed. simpl.
    eexists. split; [reflexivity|]. apply Hb. lia.
Qed.

(** X26. The shapes drawn for a reachable agent.  The body is a circle
    around the agent's position with a radius between [BIRTH_SIZE] and
    [MATURE_SIZE].  The nose is a line from the position to a point
    outside the body, less than twice the radius away.  The two sight
    lines start at the position and end between 99 and 101 away from
    it, well inside the detection radius of the agent, and between 140
    and 142 apart from each other, as the ends of two lines of length
    100 at a right angle are. *)
Theorem drawn_shapes_geometry (j : Jubble) (col : Z * Z * Z) :
  reachable j →
  ∃ r tip e1 e2,
    _draw_body j col = Some [pygame_draw_circle col (get_pos j) r]
    ∧ _draw_nose j col
      = Some [pygame_draw_line col (get_pos j) tip NOSE_WIDTH]
    ∧ _draw_viewing_angle j col
      = [pygame_draw_line col (get_pos j) e1 2;
         pygame_draw_line col (get_pos j) e2 2]
    ∧ (BIRTH_SIZE <= r <= MATURE_SIZE)%R
    ∧ (r < dist (get_pos j) tip < 2 * r)%R
    ∧ (99 <= dist (get_pos j) e1 <= 101)%R
    ∧ (99 <= dist (get_pos j) e2 <= 101)%R
    ∧ (101 < detection_radius j)%R
    ∧ (140 <= dist e1 e2 <= 142)%R.
Proof.
  intros Hr.
  destruct (radius_bounds j (reachable_is_age_sane j Hr)) as (r&Er&Hlo&Hhi).
  unfold BIRTH_SIZE in Hlo.
  unfold _draw_body, _draw_nose, _draw_viewing_angle. rewrite Er.
  cbn [mbind option_bind].
  eexists r, _, _, _.
  split; [reflexivity|]. split; [reflexivity|]. split; [reflexivity|].
  split; [unfold BIRTH_SIZE; lra|].
  assert (Et : dist (get_pos j)
                 ((x j + NOSE_TO_BODY * (to_cartesian (angle j) r).1)%R,
                  (y j + NOSE_TO_BODY * (to_cartesian (angle j) r).2)%R)
               = (NOSE_TO_BODY * r)%R).
  { unfold get_pos, to_cartesian. cbn [fst snd]. rewrite dist_offset.
    replace (NOSE_TO_BODY * (r * cos (angle j)))%R
      with (NOSE_TO_BODY * r * cos (angle j))%R by ring.
    replace (NOSE_TO_BODY * (r * sin (angle j)))%R
      with (NOSE_TO_BODY * r * sin (angle j))%R by ring.
    rewrite hypot_polar. apply Rabs_right. unfold NOSE_TO_BODY. lra. }
  split; [rewrite Et; unfold NOSE_TO_BODY; lra|].
  unfold get_pos, to_cartesian. cbn [fst snd].
  rewrite !dist_offset, !hypot_polar.
  assert (E100 : Rabs 100 = 100%R) by (apply Rabs_right; lra).
  rewrite E100.
  split; [lra|]. split; [lra|].
  split.
  { rewrite (reachable_detection_radius j Hr). unfold DEF_DETECTION_RADIUS.
    lra. }
  set (a1 := (angle j - DEF_DETECTION_SLICE / 2)%R).
  set (a2 := (angle j + DEF_DETECTION_SLICE / 2)%R).
  unfold dist, hypot. cbn [fst snd].
  replace ((x j + 100 * cos a1 - (x j + 100 * cos a2))
           * (x j + 100 * cos a1 - (x j + 100 * cos a2))
           + (y j + 100 * sin a1 - (y j + 100 * sin a2))
             * (y j + 100 * sin a1 - (y j + 100 * sin a2)))%R
    with 20000%R.
  - split.
    + apply Rsqr_incr_0_var; [|apply sqrt_pos].
      rewrite Rsqr_sqrt by lra. unfold Rsqr. lra.
    + apply Rsqr_incr_0_var; [|lra].
      rewrite Rsqr_sqrt by lra. unfold Rsqr. lra.
  - pose proof (sin2_cos2 a1) as S1. pose proof (sin2_cos2 a2) as S2.
    unfold Rsqr in S1, S2.
    assert (D : (cos a2 * cos a1 + sin a2 * sin a1 = 0)%R).
    { rewrite <- cos_minus.
      replace (a2 - a1)%R with (PI / 2)%R
        by (unfold a1, a2, DEF_DETECTION_SLICE; lra).
      apply cos_PI2. }
    clearbody a1 a2. nra.
Qed.

Lemma drawn_shapes_geometry_witness :
  ∃ r tip e1 e2,
    _draw_body (Jubble_init 1 100 100 (0, 0, 0)%Z) BG_COLOUR
    = Some [pygame_draw_circle BG_COLOUR
              (get_pos (Jubble_init 1 100 100 (0, 0, 0)%Z)) r]
    ∧ _draw_nose (Jubble_init 1 100 100 (0, 0, 0)%Z) BG_COLOUR
      = Some [pygame_draw_line BG_COLOUR
                (get_pos (Jubble_init 1 100 100 (0, 0, 0)%Z)) tip NOSE_WIDTH]
    ∧ _draw_viewing_angle (Jubble_init 1 100 100 (0, 0, 0)%Z) BG_COLOUR
      = [pygame_draw_line BG_COLOUR
           (get_pos (Jubble_init 1 100 100 (0, 0, 0)%Z)) e1 2;
         pygame_draw_line BG_COLOUR
           (get_pos (Jubble_init 1 100 100 (0, 0, 0)%Z)) e2 2]
    ∧ (BIRTH_SIZE <= r <= MATURE_SIZE)%R
    ∧ (r < dist (get_pos (Jubble_init 1 100 100 (0, 0, 0)%Z)) tip < 2 * r)%R
    ∧ (99 <= dist (get_pos (Jubble_init 1 100 100 (0, 0, 0)%Z)) e1 <= 101)%R
    ∧ (99 <= dist (get_pos (Jubble_init 1 100 100 (0, 0, 0)%Z)) e2 <= 101)%R
    ∧ (101 < detection_radius (Jubble_init 1 100 100 (0, 0, 0)%Z))%R
    ∧ (140 <= dist e1 e2 <= 142)%R.
Proof.
  apply (drawn_shapes_geometry (Jubble_init 1 100 100 (0, 0, 0)%Z) BG_COLOUR).
  apply reach_init.
Defined.
